(** * Red-team evolution loop: defense registry, attack executor,
      adaptation engine and generation orchestrator

    Shallow embedding of
      - red_team/src/core/framework.py  (DefenseType, DefenseConfig,
        AttackPattern, GenerationReport, DefenseFramework, EvolvableSeed)
      - red_team/src/core/defenses.py   (the seven DefenseMechanism classes)
      - red_team/src/core/seed.py       (AttackPatternLibrary, RedTeamExecutor,
        RedTeamAdaptationEngine)
      - red_team/config.py              (DefenseConfig / AttackConfig defaults)
      - counter_intelligence_system.py  (MetricsCollector, EvolutionOrchestrator)

    Conventions.
      - Python [int] is [Z].
      - Python [float] values are exact rationals [Q].  The comparisons of
        [success_rate] with 0.6 and 0.2 and of [blocked / total * 100] with
        50 and 100.0 compare one quotient of two counters with a literal;
        for counters below 2^50 the rounded value lies on the same side of
        the literal as the exact one.  [_check_stagnation] subtracts two
        scores; the model subtracts exactly, which is what the floats do on
        the integer scores of the stagnation scenario.
      - Python [str] is [string]; [len] counts characters, which coincides with
        code points for the ASCII payloads of the attack catalog.
      - A payload is a [PyValue]: [None], a str, an int, a list, a dict with
        str keys, or any other object, given by whether it has a [__dict__]
        and by what its [repr] returns or raises.  Tuples, sets, floats and
        bools are not among these shapes; no payload of the catalog is one.
      - The configured [strengthening_rate], the float 1.0, is held as the
        integer 1.
      - A raised [Exception] is [Raise msg]; state changes made before the
        raise persist, as in Python.
      - [print] calls and [datetime.now()] timestamps are left out, except the
        notices of [run_evolution_cycle], which are returned as events. *)

From Stdlib Require Import ZArith QArith Lia Ascii String.
From stdpp Require Import base option list strings gmap fin_maps pretty.

Local Open Scope Z_scope.

(* ===================================================================== *)
(** ** Exceptions and state: a small monad                                *)
(* ===================================================================== *)

Inductive outcome (A : Type) : Type :=
| Ok (a : A)
| Raise (msg : string).
Arguments Ok {A} a.
Arguments Raise {A} msg.

(** A computation over a mutable store [S] that returns or raises. *)
Definition Py (S A : Type) : Type := S -> outcome A * S.

Definition ret {S A} (a : A) : Py S A := fun s => (Ok a, s).

Definition bind {S A B} (m : Py S A) (k : A -> Py S B) : Py S B :=
  fun s => match m s with
           | (Ok a, s') => k a s'
           | (Raise e, s') => (Raise e, s')
           end.

Definition raise {S A} (msg : string) : Py S A := fun s => (Raise msg, s).

(** [try: m except Exception as e: h e] *)
Definition try_except {S A} (m : Py S A) (h : string -> Py S A) : Py S A :=
  fun s => match m s with
           | (Ok a, s') => (Ok a, s')
           | (Raise e, s') => h e s'
           end.

Definition get {S} : Py S S := fun s => (Ok s, s).
Definition put {S} (s : S) : Py S unit := fun _ => (Ok tt, s).
Definition modify {S} (f : S -> S) : Py S unit := fun s => (Ok tt, f s).

(** Run a computation on a component of the store. *)
Definition zoom {S T A} (proj : S -> T) (upd : T -> S -> S) (m : Py T A) : Py S A :=
  fun s => let '(r, t) := m (proj s) in (r, upd t s).

Notation "x <- m ;; k" := (bind m (fun x => k))
  (at level 100, m at next level, right associativity, only parsing).
Notation "m ;;; k" := (bind m (fun _ => k))
  (at level 100, right associativity, only parsing).

Fixpoint for_each {S A} (xs : list A) (body : A -> Py S unit) : Py S unit :=
  match xs with
  | [] => ret tt
  | x :: rest => body x ;;; for_each rest body
  end.

(* ===================================================================== *)
(** ** framework.py: enumerations                                         *)
(* ===================================================================== *)

Inductive DefenseType : Set :=
| INPUT_VALIDATION
| TYPE_CHECKING
| BOUNDS_ENFORCEMENT
| SANITIZATION
| STATE_PROTECTION
| RATE_LIMITING
| CRYPTOGRAPHY
| LOGIC_HARDENING
| ANOMALY_DETECTION.

(** Iteration order of [for defense_type in DefenseType]. *)
Definition DefenseType_members : list DefenseType :=
  [INPUT_VALIDATION; TYPE_CHECKING; BOUNDS_ENFORCEMENT; SANITIZATION;
   STATE_PROTECTION; RATE_LIMITING; CRYPTOGRAPHY; LOGIC_HARDENING;
   ANOMALY_DETECTION].

(** [DefenseType.X.value] *)
Definition value (d : DefenseType) : string :=
  match d with
  | INPUT_VALIDATION => "validate_input"
  | TYPE_CHECKING => "check_type"
  | BOUNDS_ENFORCEMENT => "enforce_bounds"
  | SANITIZATION => "sanitize"
  | STATE_PROTECTION => "protect_state"
  | RATE_LIMITING => "rate_limit"
  | CRYPTOGRAPHY => "encrypt"
  | LOGIC_HARDENING => "harden_logic"
  | ANOMALY_DETECTION => "detect_anomaly"
  end.

#[global] Instance DefenseType_eq_dec : EqDecision DefenseType.
Proof. solve_decision. Defined.

Definition DefenseType_index (d : DefenseType) : nat :=
  match d with
  | INPUT_VALIDATION => 0 | TYPE_CHECKING => 1 | BOUNDS_ENFORCEMENT => 2
  | SANITIZATION => 3 | STATE_PROTECTION => 4 | RATE_LIMITING => 5
  | CRYPTOGRAPHY => 6 | LOGIC_HARDENING => 7 | ANOMALY_DETECTION => 8
  end%nat.

#[global] Instance DefenseType_countable : Countable DefenseType.
Proof.
  refine (inj_countable' DefenseType_index
            (fun n => nth n DefenseType_members INPUT_VALIDATION) _).
  by intros [].
Defined.

Inductive SeverityLevel : Set := CRITICAL | HIGH | MEDIUM | LOW | INFO.

Inductive EvolutionPhase : Set :=
| INITIALIZATION | TESTING | ANALYSIS | ADAPTATION | VERIFICATION.

(* ===================================================================== *)
(** ** framework.py: DefenseConfig                                        *)
(* ===================================================================== *)

Record DefenseConfig : Type := mkDefenseConfig {
  defense_type : DefenseType;
  active : bool;
  strength : Z;
  threshold : Q;
  times_triggered : Z;
  successful_blocks : Z;
  false_positives : Z
}.

(** Dataclass defaults: [active=True, strength=1, threshold=0.5], counters 0. *)
Definition new_DefenseConfig (d : DefenseType) (act : bool) (str : Z) : DefenseConfig :=
  {| defense_type := d; active := act; strength := str; threshold := 1 # 2;
     times_triggered := 0; successful_blocks := 0; false_positives := 0 |}.

Definition effectiveness (c : DefenseConfig) : Q :=
  if times_triggered c =? 0 then 0%Q
  else (inject_Z (successful_blocks c) / inject_Z (times_triggered c))%Q.

Definition set_strength (v : Z) (c : DefenseConfig) : DefenseConfig :=
  {| defense_type := defense_type c; active := active c; strength := v;
     threshold := threshold c; times_triggered := times_triggered c;
     successful_blocks := successful_blocks c;
     false_positives := false_positives c |}.

Definition set_active (b : bool) (c : DefenseConfig) : DefenseConfig :=
  {| defense_type := defense_type c; active := b; strength := strength c;
     threshold := threshold c; times_triggered := times_triggered c;
     successful_blocks := successful_blocks c;
     false_positives := false_positives c |}.

(** [self.strength = min(10, self.strength + amount)] *)
Definition config_strengthen (amount : Z) (c : DefenseConfig) : DefenseConfig :=
  set_strength (Z.min 10 (strength c + amount)) c.

(** [DefenseConfig.trigger] *)
Definition trigger (successful : bool) (c : DefenseConfig) : DefenseConfig :=
  {| defense_type := defense_type c; active := active c; strength := strength c;
     threshold := threshold c;
     times_triggered := times_triggered c + 1;
     successful_blocks :=
       if successful then successful_blocks c + 1 else successful_blocks c;
     false_positives :=
       if successful then false_positives c else false_positives c + 1 |}.

(* ===================================================================== *)
(** ** Payload values ([Any]) and the string operations the defenses use  *)
(* ===================================================================== *)

(** The payload shapes the defenses distinguish.  [VDict] lists the items of
    a string-keyed dict in insertion order (keys distinct).  [VObject] is any
    other object: whether it has a [__dict__], and what [repr]/[str] of it
    gives, which may raise. *)
#[warnings="-register-all"] Inductive PyValue : Type :=
| VNone
| VStr (s : string)
| VInt (n : Z)
| VList (items : list PyValue)
| VDict (items : list (string * PyValue))
| VObject (has_dict : bool) (text : outcome string).

Definition squote : ascii := "'"%char.
Definition dquote : ascii := ascii_of_nat 34.
Definition backslash : ascii := ascii_of_nat 92.

Definition str1 (c : ascii) : string := String c EmptyString.

Definition len (s : string) : Z := Z.of_nat (String.length s).

Fixpoint count_char (c : ascii) (s : string) : Z :=
  match s with
  | EmptyString => 0
  | String a rest => (if Ascii.eqb a c then 1 else 0) + count_char c rest
  end.

(** [pat in s] for strings *)
Fixpoint contains (pat s : string) : bool :=
  String.prefix pat s ||
  match s with
  | EmptyString => false
  | String _ rest => contains pat rest
  end.

Definition upper_char (c : ascii) : ascii :=
  let n := nat_of_ascii c in
  if (97 <=? n)%nat && (n <=? 122)%nat then ascii_of_nat (n - 32) else c.

(** [s.upper()] on ASCII text *)
Fixpoint upper (s : string) : string :=
  match s with
  | EmptyString => EmptyString
  | String c rest => String (upper_char c) (upper rest)
  end.

(** [s * n]: empty for [n <= 0] *)
Definition str_repeat (s : string) (n : Z) : string :=
  Nat.iter (Z.to_nat n) (String.append s) EmptyString.

Definition hex_digit (n : nat) : ascii :=
  if (n <? 10)%nat then ascii_of_nat (48 + n) else ascii_of_nat (87 + n).

Definition escape_char (q c : ascii) : string :=
  let n := nat_of_ascii c in
  if Ascii.eqb c q || Ascii.eqb c backslash then String backslash (str1 c)
  else if (n =? 10)%nat then String backslash "n"
  else if (n =? 13)%nat then String backslash "r"
  else if (n =? 9)%nat then String backslash "t"
  else if (n <? 32)%nat || (n =? 127)%nat
       then String backslash
              (String "x" (String (hex_digit (n / 16)) (str1 (hex_digit (n mod 16)))))
  else str1 c.

Fixpoint escape (q : ascii) (s : string) : string :=
  match s with
  | EmptyString => EmptyString
  | String c rest => escape_char q c +:+ escape q rest
  end.

(** [repr(s)] for a str: single quotes unless the text has a single quote
    and no double quote. *)
Definition repr_str (s : string) : string :=
  let q := if (0 <? count_char squote s) && (count_char dquote s =? 0)
           then dquote else squote in
  str1 q +:+ escape q s +:+ str1 q.

Fixpoint join (sep : string) (parts : list string) : string :=
  match parts with
  | [] => EmptyString
  | [x] => x
  | x :: rest => x +:+ sep +:+ join sep rest
  end.

(** Collect results left to right; the first raise wins. *)
Fixpoint sequence_outcome {A} (xs : list (outcome A)) : outcome (list A) :=
  match xs with
  | [] => Ok []
  | Ok a :: rest =>
      match sequence_outcome rest with
      | Ok l => Ok (a :: l)
      | Raise e => Raise e
      end
  | Raise e :: _ => Raise e
  end.

Definition outcome_map {A B} (f : A -> B) (o : outcome A) : outcome B :=
  match o with Ok a => Ok (f a) | Raise e => Raise e end.

(** [repr(value)] *)
Fixpoint repr (v : PyValue) : outcome string :=
  match v with
  | VNone => Ok "None"
  | VStr s => Ok (repr_str s)
  | VInt n => Ok (pretty n)
  | VList items =>
      outcome_map (fun parts => "[" +:+ join ", " parts +:+ "]")
        (sequence_outcome (map repr items))
  | VDict items =>
      outcome_map (fun parts => "{" +:+ join ", " parts +:+ "}")
        (sequence_outcome
           (map (fun kv => outcome_map (fun r => repr_str (fst kv) +:+ ": " +:+ r)
                             (repr (snd kv))) items))
  | VObject _ text => text
  end.

(** [str(value)] *)
Definition str (v : PyValue) : outcome string :=
  match v with
  | VStr s => Ok s
  | _ => repr v
  end.

Definition is_str (v : PyValue) : bool := match v with VStr _ => true | _ => false end.
Definition is_list (v : PyValue) : bool := match v with VList _ => true | _ => false end.
Definition is_dict (v : PyValue) : bool := match v with VDict _ => true | _ => false end.
(** [isinstance(value, (str, int, float))] *)
Definition is_base (v : PyValue) : bool :=
  match v with VStr _ | VInt _ => true | _ => false end.
(** [hasattr(value, '__dict__')] *)
Definition has_dict_attr (v : PyValue) : bool :=
  match v with VObject d _ => d | _ => false end.

(* ===================================================================== *)
(** ** defenses.py: the defense mechanisms                                *)
(* ===================================================================== *)

(** One constructor per concrete subclass of [DefenseMechanism]; each holds
    its [config], and [RateLimitingDefense] its [request_count]. *)
Inductive DefenseMechanism : Type :=
| InputValidationDefense (config : DefenseConfig)
| TypeCheckingDefense (config : DefenseConfig)
| BoundsEnforcementDefense (config : DefenseConfig)
| SanitizationDefense (config : DefenseConfig)
| StateProtectionDefense (config : DefenseConfig)
| RateLimitingDefense (config : DefenseConfig) (request_count : Z)
| CryptographyDefense (config : DefenseConfig).

Definition config (m : DefenseMechanism) : DefenseConfig :=
  match m with
  | InputValidationDefense c | TypeCheckingDefense c
  | BoundsEnforcementDefense c | SanitizationDefense c
  | StateProtectionDefense c | RateLimitingDefense c _
  | CryptographyDefense c => c
  end.

Definition update_config (f : DefenseConfig -> DefenseConfig)
    (m : DefenseMechanism) : DefenseMechanism :=
  match m with
  | InputValidationDefense c => InputValidationDefense (f c)
  | TypeCheckingDefense c => TypeCheckingDefense (f c)
  | BoundsEnforcementDefense c => BoundsEnforcementDefense (f c)
  | SanitizationDefense c => SanitizationDefense (f c)
  | StateProtectionDefense c => StateProtectionDefense (f c)
  | RateLimitingDefense c n => RateLimitingDefense (f c) n
  | CryptographyDefense c => CryptographyDefense (f c)
  end.

Definition dangerous_base : list string :=
  [str1 squote; str1 dquote; ";"; "--"; "/*"; "*/"; "DROP"; "DELETE"; "UNION"].

Definition dangerous_extended : list string := ["<"; ">"; "{"; "}"; "["; "]"].

(** [for pattern in dangerous: if pattern in value_str: return ...] *)
Fixpoint first_dangerous (patterns : list string) (value_str : string) : option string :=
  match patterns with
  | [] => None
  | pattern :: rest =>
      if contains pattern value_str then Some pattern
      else first_dangerous rest value_str
  end.

Definition type_name (v : PyValue) : string :=
  match v with
  | VNone => "NoneType" | VStr _ => "str" | VInt _ => "int"
  | VList _ => "list" | VDict _ => "dict" | VObject _ _ => "object"
  end.

(** [value == s] for a str literal [s] *)
Definition str_equals (v : PyValue) (s : string) : bool :=
  match v with VStr t => String.eqb t s | _ => false end.

(** [len(value)] of a str, list or dict *)
Definition value_len (v : PyValue) : Z :=
  match v with
  | VStr s => len s
  | VList items => Z.of_nat (length items)
  | VDict items => Z.of_nat (length items)
  | _ => 0
  end.

(** Each [evaluate] below returns [(should_block, reason)] or raises; only
    [RateLimitingDefense.evaluate] changes the mechanism. *)

Definition InputValidation_evaluate (c : DefenseConfig) (v : PyValue) : bool * string :=
  match v with
  | VNone => (true, "Rejected: null value")
  | _ =>
      if is_str v && str_equals v EmptyString then (true, "Rejected: empty string")
      else if (4 <=? strength c) && negb (is_base v)
           then (true, "Rejected: invalid base type")
      else (false, "Passed validation")
  end.

Definition TypeChecking_evaluate (c : DefenseConfig) (v : PyValue) : bool * string :=
  if is_list v || is_dict v then (true, "Rejected: " +:+ type_name v +:+ " type")
  else if has_dict_attr v && negb (is_base v) then (true, "Rejected: complex object")
  else (false, "Passed type check").

(** [len(value) > max_len / 2] is a true division: compared as
    [2 * len(value) > max_len]. *)
Definition BoundsEnforcement_evaluate (c : DefenseConfig) (v : PyValue) : bool * string :=
  let max_len := 50 - (10 - strength c) * 3 in
  if is_str v && (max_len <? value_len v)
  then (true, "Rejected: string too long (" +:+ pretty (value_len v) +:+ " > "
                +:+ pretty max_len +:+ ")")
  else if (is_list v || is_dict v) && (max_len <? 2 * value_len v)
  then (true, "Rejected: collection too large")
  else (false, "Passed bounds check").

Definition Sanitization_evaluate (c : DefenseConfig) (v : PyValue) : outcome (bool * string) :=
  let dangerous :=
    if 8 <=? strength c then dangerous_base ++ dangerous_extended else dangerous_base in
  match str v with
  | Raise e => Raise e
  | Ok text =>
      match first_dangerous dangerous (upper text) with
      | Some pattern =>
          Ok (true, "Rejected: dangerous pattern '" +:+ pattern +:+ "'")
      | None => Ok (false, "Passed sanitization")
      end
  end.

Definition StateProtection_evaluate (c : DefenseConfig) (v : PyValue) : outcome (bool * string) :=
  if is_dict v || is_list v then
    match str v with
    | Raise e => Raise e
    | Ok value_str =>
        if contains "_protected" value_str || contains "_private" value_str
        then Ok (true, "Rejected: state injection attempt")
        else if contains "exec" value_str || contains "eval" value_str
        then Ok (true, "Rejected: code injection attempt")
        else Ok (false, "Passed state protection")
    end
  else Ok (false, "Passed state protection").

(** Returns the new [request_count] with the verdict. *)
Definition RateLimiting_evaluate (c : DefenseConfig) (request_count : Z) (v : PyValue)
  : (bool * string) * Z :=
  let request_count := request_count + 1 in
  if (5 <=? strength c) && (strength c * 2 <? request_count)
  then ((true, "Rejected: rate limit exceeded"), 0)
  else ((false, "Passed rate limit"), request_count).

Definition Cryptography_evaluate (c : DefenseConfig) (v : PyValue) : bool * string :=
  match v with
  | VStr s =>
      if (7 <=? strength c) && negb (len s mod 2 =? 0) && (0 <? count_char squote s)
      then (true, "Rejected: crypto validation failed")
      else (false, "Passed crypto check")
  | _ => (false, "Passed crypto check")
  end.

(** [DefenseMechanism.evaluate], dispatched on the subclass. *)
Definition evaluate (v : PyValue) : Py DefenseMechanism (bool * string) :=
  fun m =>
    match m with
    | InputValidationDefense c => (Ok (InputValidation_evaluate c v), m)
    | TypeCheckingDefense c => (Ok (TypeChecking_evaluate c v), m)
    | BoundsEnforcementDefense c => (Ok (BoundsEnforcement_evaluate c v), m)
    | SanitizationDefense c => (Sanitization_evaluate c v, m)
    | StateProtectionDefense c => (StateProtection_evaluate c v, m)
    | RateLimitingDefense c n =>
        let '(r, n') := RateLimiting_evaluate c n v in (Ok r, RateLimitingDefense c n')
    | CryptographyDefense c => (Ok (Cryptography_evaluate c v), m)
    end.

(** [DefenseMechanism.execute]: evaluate, then record the trigger. *)
Definition execute (v : PyValue) : Py DefenseMechanism (bool * string) :=
  r <- evaluate v ;;
  modify (update_config (trigger (fst r))) ;;;
  ret r.

(* ===================================================================== *)
(** ** config.py                                                          *)
(* ===================================================================== *)

Module Config.

Record DefenseConfig : Type := {
  max_strength : Z;
  initial_strength : Z;
  strengthening_rate : Z;   (* the float 1.0 *)
  activation_threshold : Q
}.

Record AttackConfig : Type := {
  initial_population_size : Z;
  mutation_rate : Q;
  crossover_rate : Q;
  max_parameter_value : Z
}.

Record SystemConfig : Type := {
  defense : DefenseConfig;
  attack : AttackConfig
}.

(** The dataclass defaults, as [get_config()] first returns them. *)
Definition default : SystemConfig :=
  {| defense := {| max_strength := 10; initial_strength := 1;
                   strengthening_rate := 1; activation_threshold := 1 # 2 |};
     attack := {| initial_population_size := 6; mutation_rate := 1 # 2;
                  crossover_rate := 7 # 10; max_parameter_value := 10000 |} |}.

End Config.

(* ===================================================================== *)
(** ** framework.py: DefenseFramework                                     *)
(* ===================================================================== *)

(** [self.defenses: Dict[DefenseType, DefenseMechanism]] *)
Abbreviation DefenseFramework := (gmap DefenseType DefenseMechanism).

Definition _initialize_defenses (cfg : Config.DefenseConfig) : DefenseFramework :=
  let s := Config.initial_strength cfg in
  <[CRYPTOGRAPHY := CryptographyDefense (new_DefenseConfig CRYPTOGRAPHY false 1)]>
  (<[RATE_LIMITING := RateLimitingDefense (new_DefenseConfig RATE_LIMITING false 1) 0]>
  (<[STATE_PROTECTION := StateProtectionDefense (new_DefenseConfig STATE_PROTECTION true s)]>
  (<[SANITIZATION := SanitizationDefense (new_DefenseConfig SANITIZATION true s)]>
  (<[BOUNDS_ENFORCEMENT := BoundsEnforcementDefense (new_DefenseConfig BOUNDS_ENFORCEMENT true s)]>
  (<[TYPE_CHECKING := TypeCheckingDefense (new_DefenseConfig TYPE_CHECKING true s)]>
  (<[INPUT_VALIDATION := InputValidationDefense (new_DefenseConfig INPUT_VALIDATION true s)]>
   ∅)))))).

(** Run a mechanism's method in place on [self.defenses[defense_type]]. *)
Definition on_defense {A} (d : DefenseType) (mech : DefenseMechanism)
    (m : Py DefenseMechanism A) : Py DefenseFramework A :=
  fun fw => let '(r, mech') := m mech in (r, <[d := mech']> fw).

Definition apply_defense (d : DefenseType) (v : PyValue)
  : Py DefenseFramework (bool * string) :=
  fw <- get ;;
  match fw !! d with
  | None => ret (false, "Defense not found")
  | Some defense =>
      if negb (active (config defense)) then ret (false, "Defense inactive")
      else try_except (on_defense d defense (execute v))
             (fun e => ret (false, "Defense execution error: " +:+ e))
  end.

Definition activate (d : DefenseType) : Py DefenseFramework unit :=
  fw <- get ;;
  match fw !! d with
  | Some defense => put (<[d := update_config (set_active true) defense]> fw)
  | None => ret tt
  end.

Definition strengthen (d : DefenseType) (amount : Z) : Py DefenseFramework unit :=
  fw <- get ;;
  match fw !! d with
  | Some defense => put (<[d := update_config (config_strengthen amount) defense]> fw)
  | None => ret tt
  end.

Record SnapshotEntry : Type := {
  snap_active : bool;
  snap_strength : Z;
  snap_triggered : Z;
  snap_effectiveness : Q
}.

Definition snapshot_entry (m : DefenseMechanism) : SnapshotEntry :=
  {| snap_active := active (config m);
     snap_strength := strength (config m);
     snap_triggered := times_triggered (config m);
     snap_effectiveness := effectiveness (config m) |}.

#[global] Instance value_inj : Inj (=) (=) value.
Proof. intros [] []; simpl; intros H; (reflexivity || discriminate H). Qed.

(** [{name.value: {...} for name, defense in self.defenses.items()}] *)
Definition get_snapshot (fw : DefenseFramework) : gmap string SnapshotEntry :=
  kmap value (snapshot_entry <$> fw).

(* ===================================================================== *)
(** ** framework.py: Exploit, AttackPattern, TestIssue, GenerationReport  *)
(* ===================================================================== *)

Module Exploit.

Record t : Type := mk {
  vector : DefenseType;
  description : string;
  payload : PyValue;
  severity : SeverityLevel;
  difficulty : Z;
  blocked : bool;
  defense_reason : string
}.

End Exploit.

Module AttackPattern.

(** [payload_generator] receives the executor's current
    [generation_number], which the catalog's lambdas read from [self]. *)
Record t : Type := mk {
  defense_type : DefenseType;
  payload_generator : Z -> outcome PyValue;
  description : string;
  difficulty : Z;
  success_count : Z;
  attempt_count : Z;
  adaptations : Z
}.

Definition success_rate (p : t) : Q :=
  if attempt_count p =? 0 then 0%Q
  else (inject_Z (success_count p) / inject_Z (attempt_count p))%Q.

Definition record_attempt (succeeded : bool) (p : t) : t :=
  mk (defense_type p) (payload_generator p) (description p) (difficulty p)
     (if succeeded then success_count p + 1 else success_count p)
     (attempt_count p + 1)
     (adaptations p).

Definition set_difficulty (d : Z) (p : t) : t :=
  mk (defense_type p) (payload_generator p) (description p) d
     (success_count p) (attempt_count p) (adaptations p).

Definition set_adaptations (a : Z) (p : t) : t :=
  mk (defense_type p) (payload_generator p) (description p) (difficulty p)
     (success_count p) (attempt_count p) a.

End AttackPattern.

Module TestIssue.

Record t : Type := mk {
  issue_type : string;
  description : string;
  severity : SeverityLevel;
  affected_defense : option DefenseType;
  root_cause : string;
  fix_applied : string;
  fix_verified : bool
}.

End TestIssue.

Module GenerationReport.

Record t : Type := mk {
  generation : Z;
  phase : EvolutionPhase;
  exploits : list Exploit.t;
  issues : list TestIssue.t;
  defenses_snapshot : gmap string SnapshotEntry;
  fitness_score : Q;
  code_iterations : Z;
  attacks_blocked : Z;
  attacks_total : Z
}.

(** The [success_rate] property. *)
Definition success_rate (r : t) : Q :=
  if attacks_total r =? 0 then 0%Q
  else (inject_Z (attacks_blocked r) / inject_Z (attacks_total r) * 100)%Q.

End GenerationReport.

(* ===================================================================== *)
(** ** framework.py: EvolvableSeed                                        *)
(* ===================================================================== *)

Record EvolvableSeed : Type := mkSeed {
  name : string;
  generation : Z;
  seed_config : Config.SystemConfig;
  defense_framework : DefenseFramework;
  evolution_history : list GenerationReport.t
}.

Definition new_EvolvableSeed (nm : string) (cfg : Config.SystemConfig) : EvolvableSeed :=
  {| name := nm; generation := 0; seed_config := cfg;
     defense_framework := _initialize_defenses (Config.defense cfg);
     evolution_history := [] |}.

Definition set_defense_framework (fw : DefenseFramework) (s : EvolvableSeed) : EvolvableSeed :=
  mkSeed (name s) (generation s) (seed_config s) fw (evolution_history s).

Definition in_framework {A} (m : Py DefenseFramework A) : Py EvolvableSeed A :=
  zoom defense_framework set_defense_framework m.

Definition test_defense (d : DefenseType) (v : PyValue) : Py EvolvableSeed (bool * string) :=
  in_framework (apply_defense d v).

(** [amount=None] selects the configured strengthening rate. *)
Definition strengthen_defense (d : DefenseType) (amount : option Z) : Py EvolvableSeed unit :=
  s <- get ;;
  let amount := match amount with
                | Some a => a
                | None => Config.strengthening_rate (Config.defense (seed_config s))
                end in
  in_framework (strengthen d amount).

Definition activate_defense (d : DefenseType) : Py EvolvableSeed unit :=
  in_framework (activate d).

Definition get_defense_snapshot : Py EvolvableSeed (gmap string SnapshotEntry) :=
  s <- get ;; ret (get_snapshot (defense_framework s)).

Definition record_evolution (report : GenerationReport.t) : Py EvolvableSeed unit :=
  modify (fun s => mkSeed (name s) (GenerationReport.generation report) (seed_config s)
                     (defense_framework s) (evolution_history s ++ [report])).

(* ===================================================================== *)
(** ** seed.py: AttackPatternLibrary                                      *)
(* ===================================================================== *)

Module AttackPatternLibrary.

Definition null_injection : PyValue := VNone.

Definition empty_string : PyValue := VStr EmptyString.

Definition type_confusion_list : PyValue :=
  VList [VStr "malicious"; VStr "payload"; VStr "data"].

Definition type_confusion_dict : PyValue :=
  VDict [("payload", VStr "malicious"); ("exec", VStr "true")].

Definition buffer_overflow_small (gen : Z) : PyValue :=
  let size := 500 + gen * 100 in
  VStr (str_repeat "A" size).

Definition sql_injection : PyValue := VStr "'; DROP TABLE users--".

Definition sql_injection_obfuscated (gen : Z) : PyValue :=
  if gen <? 3 then VStr "1'/**/OR/**/1=1" else VStr "1'/*!50000OR*/'1'='1".

Definition comment_injection : PyValue :=
  VStr "/* malicious */ UNION SELECT * FROM admin".

Definition state_corruption : PyValue :=
  VDict [("_protected", VStr "corrupted"); ("_internal", VStr "compromised")].

Definition code_injection : PyValue :=
  VDict [("eval", VStr "exec('malicious_code')"); ("__builtins__", VStr "override")].

End AttackPatternLibrary.

(* ===================================================================== *)
(** ** seed.py: RedTeamExecutor                                           *)
(* ===================================================================== *)

Record RedTeamExecutor : Type := mkExecutor {
  executor_config : Config.AttackConfig;
  attack_patterns : list AttackPattern.t;
  generation_number : Z
}.

(** The executor's [target] is a reference to a seed that its creator also
    holds: its methods run on the pair of that seed and its own fields. *)
Abbreviation ExecutorStore := (EvolvableSeed * RedTeamExecutor)%type.

Definition on_target {A} (m : Py EvolvableSeed A) : Py ExecutorStore A :=
  zoom fst (fun sd st => (sd, snd st)) m.

Definition set_attack_patterns (ps : list AttackPattern.t) (e : RedTeamExecutor)
  : RedTeamExecutor :=
  mkExecutor (executor_config e) ps (generation_number e).

Definition set_generation_number (g : Z) (e : RedTeamExecutor) : RedTeamExecutor :=
  mkExecutor (executor_config e) (attack_patterns e) g.

Definition new_pattern (nm : string) (d : DefenseType)
    (generator : Z -> outcome PyValue) (diff : Z) : AttackPattern.t :=
  AttackPattern.mk d generator nm diff 0 0 0.

Definition pattern_catalog : list AttackPattern.t :=
  let fixed (v : PyValue) := fun _ : Z => Ok v in
  [ new_pattern "Null injection attack" INPUT_VALIDATION
      (fixed AttackPatternLibrary.null_injection) 1;
    new_pattern "Empty string bypass" INPUT_VALIDATION
      (fixed AttackPatternLibrary.empty_string) 1;
    new_pattern "List type confusion" TYPE_CHECKING
      (fixed AttackPatternLibrary.type_confusion_list) 2;
    new_pattern "Dict type confusion" TYPE_CHECKING
      (fixed AttackPatternLibrary.type_confusion_dict) 2;
    new_pattern "String buffer overflow" BOUNDS_ENFORCEMENT
      (fun gen => Ok (AttackPatternLibrary.buffer_overflow_small gen)) 3;
    new_pattern "SQL injection" SANITIZATION
      (fixed AttackPatternLibrary.sql_injection) 4;
    new_pattern "Obfuscated SQL injection" SANITIZATION
      (fun gen => Ok (AttackPatternLibrary.sql_injection_obfuscated gen)) 5;
    new_pattern "State object corruption" STATE_PROTECTION
      (fixed AttackPatternLibrary.state_corruption) 3;
    new_pattern "Code execution injection" STATE_PROTECTION
      (fixed AttackPatternLibrary.code_injection) 5 ].

(** [for i in range(min(len(patterns), initial_population_size))] *)
Definition _initialize_patterns (cfg : Config.AttackConfig) : list AttackPattern.t :=
  take (Z.to_nat (Z.min (Z.of_nat (length pattern_catalog))
                        (Config.initial_population_size cfg)))
       pattern_catalog.

Definition new_RedTeamExecutor (cfg : Config.AttackConfig) : RedTeamExecutor :=
  {| executor_config := cfg;
     attack_patterns := _initialize_patterns cfg;
     generation_number := 0 |}.

Definition _calculate_severity (pattern : AttackPattern.t) : SeverityLevel :=
  if 5 <=? AttackPattern.difficulty pattern then CRITICAL
  else if 4 <=? AttackPattern.difficulty pattern then HIGH
  else if 2 <=? AttackPattern.difficulty pattern then MEDIUM
  else LOW.

(** Returns the exploit and the pattern as [record_attempt] left it. *)
Definition execute_attack (pattern : AttackPattern.t)
  : Py ExecutorStore (Exploit.t * AttackPattern.t) :=
  st <- get ;;
  let payload :=
    match AttackPattern.payload_generator pattern (generation_number (snd st)) with
    | Ok v => v
    | Raise _ => VNone
    end in
  r <- on_target (test_defense (AttackPattern.defense_type pattern) payload) ;;
  let pattern := AttackPattern.record_attempt (negb (fst r)) pattern in
  ret (Exploit.mk (AttackPattern.defense_type pattern)
         (AttackPattern.description pattern) payload
         (_calculate_severity pattern) (AttackPattern.difficulty pattern)
         (fst r) (snd r),
       pattern).

(** The body of [execute_suite]'s loop over [self.attack_patterns], in list
    order: the exploits, the number blocked, and the patterns as mutated. *)
Fixpoint execute_patterns (patterns : list AttackPattern.t)
  : Py ExecutorStore (list Exploit.t * Z * list AttackPattern.t) :=
  match patterns with
  | [] => ret ([], 0, [])
  | pattern :: rest =>
      r <- execute_attack pattern ;;
      rs <- execute_patterns rest ;;
      ret (fst r :: fst (fst rs),
           (if Exploit.blocked (fst r) then 1 else 0) + snd (fst rs),
           snd r :: snd rs)
  end.

Definition execute_suite : Py ExecutorStore (list Exploit.t * Z * Z) :=
  st <- get ;;
  rs <- execute_patterns (attack_patterns (snd st)) ;;
  modify (fun st => (fst st, set_attack_patterns (snd rs) (snd st))) ;;;
  ret (fst (fst rs), snd (fst rs), Z.of_nat (length (fst (fst rs)))).

(* ===================================================================== *)
(** ** seed.py: RedTeamAdaptationEngine                                   *)
(* ===================================================================== *)

(** [failures_by_defense[defense_name].append(exploit)], a new name going
    to the end (dict insertion order). *)
Fixpoint record_failure (e : Exploit.t) (groups : list (string * list Exploit.t))
  : list (string * list Exploit.t) :=
  match groups with
  | [] => [(value (Exploit.vector e), [e])]
  | (defense_name, failed) :: rest =>
      if String.eqb defense_name (value (Exploit.vector e))
      then (defense_name, failed ++ [e]) :: rest
      else (defense_name, failed) :: record_failure e rest
  end.

Definition failures_by_defense (exploits : list Exploit.t)
  : list (string * list Exploit.t) :=
  fold_left (fun groups e => if Exploit.blocked e then groups else record_failure e groups)
            exploits [].

(** [affected_defense] is [failed_exploits[0].vector]; a group is never
    empty. *)
Definition analyze_results (exploits : list Exploit.t) : list TestIssue.t :=
  map (fun g : string * list Exploit.t =>
         let failed_exploits := snd g in
         TestIssue.mk "DEFENSE_FAILURE"
           (fst g +:+ " failed against " +:+ pretty (Z.of_nat (length failed_exploits))
              +:+ " attacks")
           (if 2 <? Z.of_nat (length failed_exploits) then CRITICAL else HIGH)
           (Exploit.vector <$> head failed_exploits)
           EmptyString EmptyString false)
      (failures_by_defense exploits).

(** The messages [adapt_patterns] returns, by content. *)
Inductive Adaptation : Type :=
| IncreasedDifficulty (description : string) (old_diff new_diff : Z)
| MutatedPayload (description : string).

Definition Qltb (x y : Q) : bool := negb (Qle_bool y x).

Definition _mutate_payload (pattern : AttackPattern.t) : AttackPattern.t :=
  match AttackPattern.defense_type pattern with
  | BOUNDS_ENFORCEMENT =>
      AttackPattern.set_difficulty (AttackPattern.difficulty pattern + 1) pattern
  | SANITIZATION =>
      AttackPattern.set_difficulty (AttackPattern.difficulty pattern + 1) pattern
  | TYPE_CHECKING =>
      AttackPattern.set_difficulty (AttackPattern.difficulty pattern + 1) pattern
  | _ => pattern
  end.

(** One iteration of the loop of [adapt_patterns]. *)
Definition adapt_pattern (pattern : AttackPattern.t) : AttackPattern.t * list Adaptation :=
  if Qltb (6 # 10) (AttackPattern.success_rate pattern) then
    let old_diff := AttackPattern.difficulty pattern in
    let pattern := AttackPattern.set_difficulty (Z.min 10 (old_diff + 1)) pattern in
    let pattern := AttackPattern.set_adaptations (AttackPattern.adaptations pattern + 1) pattern in
    (pattern, [IncreasedDifficulty (AttackPattern.description pattern) old_diff
                 (AttackPattern.difficulty pattern)])
  else if Qltb (AttackPattern.success_rate pattern) (2 # 10)
          && (2 <? AttackPattern.attempt_count pattern) then
    let pattern := _mutate_payload pattern in
    (pattern, [MutatedPayload (AttackPattern.description pattern)])
  else (pattern, []).

Fixpoint adapt_all (patterns : list AttackPattern.t)
  : list AttackPattern.t * list Adaptation :=
  match patterns with
  | [] => ([], [])
  | pattern :: rest =>
      let '(p, a) := adapt_pattern pattern in
      let '(ps, more) := adapt_all rest in
      (p :: ps, a ++ more)
  end.

Record RedTeamAdaptationEngine : Type := mkEngine {
  adaptation_history : list Adaptation
}.

(** The engine holds a reference to the executor: [adapt_patterns] runs on
    the executor's patterns and the engine's history. *)
Definition adapt_patterns (exploits : list Exploit.t)
  : Py (RedTeamExecutor * RedTeamAdaptationEngine) (list Adaptation) :=
  st <- get ;;
  let '(patterns, adaptations) := adapt_all (attack_patterns (fst st)) in
  put (set_attack_patterns patterns (fst st),
       mkEngine (adaptation_history (snd st) ++ adaptations)) ;;;
  ret adaptations.

(* ===================================================================== *)
(** ** counter_intelligence_system.py: MetricsCollector                   *)
(* ===================================================================== *)

Module EvolutionMetrics.

Record t : Type := mk {
  generation : Z;
  fitness_score : Q;
  attacks_blocked : Z;
  attacks_total : Z;
  defenses_active : Z;
  defenses_total : Z;
  issues_found : Z;
  issues_resolved : Z;
  code_iterations : Z;
  time_elapsed : Q
}.

End EvolutionMetrics.

Record MetricsCollector : Type := mkCollector {
  metrics_history : list EvolutionMetrics.t;
  baseline_fitness : Q
}.

Definition count_if {A} (f : A -> bool) (l : list A) : Z :=
  Z.of_nat (length (List.filter f l)).

Definition collect_generation_metrics (report : GenerationReport.t)
  : Py MetricsCollector EvolutionMetrics.t :=
  let snapshot := GenerationReport.defenses_snapshot report in
  let metrics :=
    EvolutionMetrics.mk
      (GenerationReport.generation report)
      (GenerationReport.success_rate report)
      (GenerationReport.attacks_blocked report)
      (GenerationReport.attacks_total report)
      (count_if (fun kv => snap_active (snd kv)) (map_to_list snapshot))
      (Z.of_nat (size snapshot))
      (count_if (fun i => match TestIssue.severity i with
                          | CRITICAL | HIGH => true
                          | _ => false
                          end) (GenerationReport.issues report))
      (count_if TestIssue.fix_verified (GenerationReport.issues report))
      (GenerationReport.code_iterations report)
      0%Q in
  modify (fun c => mkCollector (metrics_history c ++ [metrics]) (baseline_fitness c)) ;;;
  ret metrics.

(* ===================================================================== *)
(** ** counter_intelligence_system.py: EvolutionOrchestrator              *)
(* ===================================================================== *)

(** [seed] is the object that [red_team.target] also refers to, and
    [red_team] the one that [adaptation_engine.executor] refers to. *)
Record EvolutionOrchestrator : Type := mkOrchestrator {
  seed : EvolvableSeed;
  red_team : RedTeamExecutor;
  adaptation_engine : RedTeamAdaptationEngine;
  metrics_collector : MetricsCollector;
  max_generations : Z;
  evolution_log : list GenerationReport.t;
  code_iteration_count : Z
}.

Definition new_EvolutionOrchestrator (sd : EvolvableSeed)
    (attack_cfg : Config.AttackConfig) (max_gen : Z) : EvolutionOrchestrator :=
  {| seed := sd;
     red_team := new_RedTeamExecutor attack_cfg;
     adaptation_engine := mkEngine [];
     metrics_collector := mkCollector [] 0%Q;
     max_generations := max_gen;
     evolution_log := [];
     code_iteration_count := 0 |}.

Definition on_seed {A} (m : Py EvolvableSeed A) : Py EvolutionOrchestrator A :=
  zoom seed
    (fun sd o => mkOrchestrator sd (red_team o) (adaptation_engine o)
                   (metrics_collector o) (max_generations o) (evolution_log o)
                   (code_iteration_count o)) m.

Definition on_red_team {A} (m : Py ExecutorStore A) : Py EvolutionOrchestrator A :=
  zoom (fun o => (seed o, red_team o))
    (fun st o => mkOrchestrator (fst st) (snd st) (adaptation_engine o)
                   (metrics_collector o) (max_generations o) (evolution_log o)
                   (code_iteration_count o)) m.

Definition on_adaptation_engine {A}
    (m : Py (RedTeamExecutor * RedTeamAdaptationEngine) A) : Py EvolutionOrchestrator A :=
  zoom (fun o => (red_team o, adaptation_engine o))
    (fun st o => mkOrchestrator (seed o) (fst st) (snd st)
                   (metrics_collector o) (max_generations o) (evolution_log o)
                   (code_iteration_count o)) m.

Definition on_metrics_collector {A} (m : Py MetricsCollector A) : Py EvolutionOrchestrator A :=
  zoom metrics_collector
    (fun c o => mkOrchestrator (seed o) (red_team o) (adaptation_engine o) c
                  (max_generations o) (evolution_log o) (code_iteration_count o)) m.

(** The entries of [fixes], by content. *)
Inductive Fix : Type :=
| Strengthened (d : DefenseType)
| ActivatedComplementary (d : DefenseType)
| EmergencyActivation (fitness : Q).

Definition defense_relationships (d : DefenseType) : option (list DefenseType) :=
  match d with
  | INPUT_VALIDATION => Some [SANITIZATION; BOUNDS_ENFORCEMENT]
  | TYPE_CHECKING => Some [BOUNDS_ENFORCEMENT]
  | SANITIZATION => Some [CRYPTOGRAPHY; STATE_PROTECTION]
  | BOUNDS_ENFORCEMENT => Some [RATE_LIMITING]
  | _ => None
  end.

(** The set [failed_defenses] as a duplicate-free list.  Python iterates a
    set in an unspecified order; [strengthen] and [activate] on different
    categories commute, so only the order of [fixes] depends on it. *)
Definition failed_defenses (exploits : list Exploit.t) : list DefenseType :=
  remove_dups (Exploit.vector <$> List.filter (fun e => negb (Exploit.blocked e)) exploits).

(** Strategy 1 *)
Fixpoint strengthen_failed (failed : list DefenseType) : Py EvolvableSeed (list Fix) :=
  match failed with
  | [] => ret []
  | d :: rest =>
      strengthen_defense d (Some 2) ;;;
      fixes <- strengthen_failed rest ;;
      ret (Strengthened d :: fixes)
  end.

(** Strategy 2, inner loop: [current_state[complementary.value]] raises
    [KeyError] for a category without a mechanism. *)
Fixpoint activate_complementary (complementaries : list DefenseType)
  : Py EvolvableSeed (list Fix) :=
  match complementaries with
  | [] => ret []
  | complementary :: rest =>
      current_state <- get_defense_snapshot ;;
      match current_state !! value complementary with
      | None => raise (repr_str (value complementary))
      | Some entry =>
          fix1 <- (if negb (snap_active entry)
                   then activate_defense complementary ;;;
                        ret [ActivatedComplementary complementary]
                   else ret []) ;;
          fixes <- activate_complementary rest ;;
          ret (fix1 ++ fixes)
      end
  end.

(** Strategy 2, outer loop *)
Fixpoint activate_related (failed : list DefenseType) : Py EvolvableSeed (list Fix) :=
  match failed with
  | [] => ret []
  | failed_defense :: rest =>
      fixes1 <- match defense_relationships failed_defense with
                | Some complementaries => activate_complementary complementaries
                | None => ret []
                end ;;
      fixes <- activate_related rest ;;
      ret (fixes1 ++ fixes)
  end.

(** [blocked / total * 100 if total > 0 else 0] *)
Definition fitness_of (blocked total : Z) : Q :=
  if 0 <? total then (inject_Z blocked / inject_Z total * 100)%Q else 0%Q.

Definition _apply_defensive_adaptations (issues : list TestIssue.t)
    (exploits : list Exploit.t) : Py EvolvableSeed (list Fix) :=
  let failed := failed_defenses exploits in
  fixes1 <- strengthen_failed failed ;;
  fixes2 <- activate_related failed ;;
  let fitness :=
    fitness_of (count_if Exploit.blocked exploits) (Z.of_nat (length exploits)) in
  fixes3 <- (if Qltb fitness 50
             then for_each DefenseType_members activate_defense ;;;
                  ret [EmergencyActivation fitness]
             else ret []) ;;
  ret (fixes1 ++ fixes2 ++ fixes3).

Definition log_report (report : GenerationReport.t) : Py EvolutionOrchestrator unit :=
  modify (fun o => mkOrchestrator (seed o) (red_team o) (adaptation_engine o)
                     (metrics_collector o) (max_generations o)
                     (evolution_log o ++ [report]) (code_iteration_count o)).

Definition add_code_iterations (n : Z) : Py EvolutionOrchestrator unit :=
  modify (fun o => mkOrchestrator (seed o) (red_team o) (adaptation_engine o)
                     (metrics_collector o) (max_generations o)
                     (evolution_log o) (code_iteration_count o + n)).

Definition run_generation (gen_num : Z) : Py EvolutionOrchestrator GenerationReport.t :=
  on_red_team (modify (fun st => (fst st, set_generation_number gen_num (snd st)))) ;;;
  (* phase 1: testing *)
  r <- on_red_team execute_suite ;;
  let exploits := fst (fst r) in
  let blocked := snd (fst r) in
  let total := snd r in
  let fitness_score := fitness_of blocked total in
  (* phase 2: analysis *)
  let issues := analyze_results exploits in
  (* phase 3: adaptation *)
  fixes <- on_seed (_apply_defensive_adaptations issues exploits) ;;
  add_code_iterations (Z.of_nat (length fixes)) ;;;
  (* phase 4: red team evolution *)
  _ <- on_adaptation_engine (adapt_patterns exploits) ;;
  (* phase 5: snapshot *)
  snapshot <- on_seed get_defense_snapshot ;;
  let report :=
    GenerationReport.mk gen_num VERIFICATION exploits issues snapshot fitness_score
      (Z.of_nat (length fixes)) blocked total in
  log_report report ;;;
  on_seed (record_evolution report) ;;;
  ret report.

Definition Qmax (x y : Q) : Q := if Qle_bool x y then y else x.
Definition Qmin (x y : Q) : Q := if Qle_bool x y then x else y.

(** [max(values)] and [min(values)]; the lists they are applied to have
    three elements. *)
Definition maximum (values : list Q) : Q :=
  match values with [] => 0%Q | x :: rest => fold_left Qmax rest x end.
Definition minimum (values : list Q) : Q :=
  match values with [] => 0%Q | x :: rest => fold_left Qmin rest x end.

(** [l[-3:]] *)
Definition last_three {A} (l : list A) : list A := drop (length l - 3)%nat l.

(** The scores are subtracted exactly.  Python subtracts floats, with the
    same result when the three scores are integers; the theorems on
    stagnation are about integer scores. *)
Definition _check_stagnation (o : EvolutionOrchestrator) : bool :=
  if (length (evolution_log o) <? 4)%nat then false
  else
    let recent := last_three (evolution_log o) in
    let fitness_values := GenerationReport.fitness_score <$> recent in
    if Qltb (maximum fitness_values - minimum fitness_values) 5 then true else false.

Definition _apply_breakthrough_mutations : Py EvolvableSeed unit :=
  for_each DefenseType_members
    (fun defense_type =>
       strengthen_defense defense_type (Some 3) ;;;
       activate_defense defense_type).

(** [print_evolution_summary] only prints, but its averages divide by the
    sizes of the first and last snapshots and of the pattern status. *)
Definition print_evolution_summary : Py EvolutionOrchestrator unit :=
  o <- get ;;
  match evolution_log o, last (evolution_log o) with
  | first_gen :: _, Some last_gen =>
      if (size (GenerationReport.defenses_snapshot first_gen) =? 0)%nat
         || (size (GenerationReport.defenses_snapshot last_gen) =? 0)%nat
         || (length (attack_patterns (red_team o)) =? 0)%nat
      then raise "division by zero"
      else ret tt
  | _, _ => ret tt
  end.

(** The two notices the cycle prints. *)
Inductive CycleEvent : Type :=
| PerfectDefense (gen : Z)
| Stagnating (gen : Z).

(** [range(n)] *)
Definition range (n : Z) : list Z := Z.of_nat <$> seq 0 (Z.to_nat n).

Section EvolutionCycle.

(** The loop of [run_evolution_cycle], for any generation step in place of
    [self.run_generation]. *)
Variable generation_step : Z -> Py EvolutionOrchestrator GenerationReport.t.

(** One pass through the loop body; [true] when the loop breaks. *)
Definition cycle_body (gen : Z) : Py EvolutionOrchestrator (bool * list CycleEvent) :=
  report <- generation_step gen ;;
  _ <- on_metrics_collector (collect_generation_metrics report) ;;
  if Qle_bool 100 (GenerationReport.fitness_score report)
  then ret (true, [PerfectDefense gen])
  else
    o <- get ;;
    if (3 <? gen) && _check_stagnation o
    then on_seed _apply_breakthrough_mutations ;;; ret (false, [Stagnating gen])
    else ret (false, []).

Fixpoint evolution_loop (gens : list Z) : Py EvolutionOrchestrator (list CycleEvent) :=
  match gens with
  | [] => ret []
  | gen :: rest =>
      r <- cycle_body gen ;;
      if fst r then ret (snd r)
      else events <- evolution_loop rest ;; ret (snd r ++ events)
  end.

Definition evolution_cycle : Py EvolutionOrchestrator (list CycleEvent) :=
  o <- get ;;
  events <- evolution_loop (range (max_generations o)) ;;
  print_evolution_summary ;;;
  ret events.

End EvolutionCycle.

Definition run_evolution_cycle : Py EvolutionOrchestrator (list CycleEvent) :=
  evolution_cycle run_generation.

(** [EvolutionOrchestrator(EvolvableSeed(name))] under a configuration. *)
Definition fresh_orchestrator (cfg : Config.SystemConfig) (max_gen : Z)
  : EvolutionOrchestrator :=
  new_EvolutionOrchestrator (new_EvolvableSeed "TestSeed" cfg) (Config.attack cfg) max_gen.

(* ===================================================================== *)
(** ** Scenarios                                                          *)
(* ===================================================================== *)

(** A sequence of [config.strengthen(amount)] calls, first amount first. *)
Definition strengthen_calls (amounts : list Z) (c : DefenseConfig) : DefenseConfig :=
  fold_left (fun c amount => config_strengthen amount c) amounts c.

(** tests/integration/test_evolution.py, [test_defense_strengthening_effect]:
    one suite, every [DefenseType] strengthened by 5, a second suite;
    returns [(blocked1, blocked2)]. *)
Definition test_defense_strengthening_effect : Py ExecutorStore (Z * Z) :=
  r1 <- execute_suite ;;
  on_target (for_each DefenseType_members
               (fun defense_type => strengthen_defense defense_type (Some 5))) ;;;
  r2 <- execute_suite ;;
  ret (snd (fst r1), snd (fst r2)).

(** [for gen in range(n): orchestrator.run_generation(gen)], as in
    [test_fitness_improvement]. *)
Definition run_generations (n : Z) : Py EvolutionOrchestrator unit :=
  for_each (range n) (fun gen => _ <- run_generation gen ;; ret tt).


Definition in_range (x : Z) : Prop := 1 <= x <= 10.

(** The categories the complementary table of strategy 2 can look up. *)
Definition complementary_targets : list DefenseType :=
  [SANITIZATION; BOUNDS_ENFORCEMENT; CRYPTOGRAPHY; STATE_PROTECTION; RATE_LIMITING].

Definition complementaries_registered (fw : DefenseFramework) : Prop :=
  Forall (fun d => is_Some (fw !! d)) complementary_targets.

(** What one breakthrough pass does to a registered mechanism. *)
Definition breakthrough_effect (m : DefenseMechanism) : DefenseMechanism :=
  update_config (set_active true) (update_config (config_strengthen 3) m).

(** No operation removes a mechanism from the registry. *)
Definition keeps_registered (fw fw' : DefenseFramework) : Prop :=
  forall d, is_Some (fw !! d) -> is_Some (fw' !! d).

(** Applying [f] to the mechanisms of the listed categories, in order. *)
Definition alter_each (f : DefenseMechanism -> DefenseMechanism)
    (ds : list DefenseType) (fw : DefenseFramework) : DefenseFramework :=
  fold_left (fun fw d => alter f d fw) ds fw.

(** The seed after some defenses ran or were adapted: same seed, a registry
    with at least the same categories. *)
Definition seed_evolves (s s' : EvolvableSeed) : Prop :=
  exists fw', s' = set_defense_framework fw' s /\
              keeps_registered (defense_framework s) fw'.

(** Strategy 2 looks up only complementaries of failed categories. *)
Definition strategy2_safe (failed : list DefenseType) (fw : DefenseFramework) : Prop :=
  forall d complementaries,
    d ∈ failed -> defense_relationships d = Some complementaries ->
    Forall (fun c => is_Some (fw !! c)) complementaries.

(** No pattern targets a category whose complementaries lack a mechanism. *)
Definition patterns_safe (o : EvolutionOrchestrator) : Prop :=
  strategy2_safe (AttackPattern.defense_type <$> attack_patterns (red_team o))
                 (defense_framework (seed o)).

(** A configuration whose initial defense strength is 9. *)
Definition strong_config : Config.SystemConfig :=
  {| Config.defense := {| Config.max_strength := 10; Config.initial_strength := 9;
                          Config.strengthening_rate := 1;
                          Config.activation_threshold := 1 # 2 |};
     Config.attack := Config.attack Config.default |}.

(* ===================================================================== *)
(** ** Further operations of the embedded files                           *)
(* ===================================================================== *)

(** seed.py, [RedTeamExecutor.get_pattern_status]: a dict keyed by
    description; a later pattern with the same description replaces the
    earlier entry. *)
Record PatternStatus : Type := {
  status_success_rate : Q;
  status_difficulty : Z;
  status_attempts : Z;
  status_successes : Z
}.

Definition pattern_status (pattern : AttackPattern.t) : PatternStatus :=
  {| status_success_rate := AttackPattern.success_rate pattern;
     status_difficulty := AttackPattern.difficulty pattern;
     status_attempts := AttackPattern.attempt_count pattern;
     status_successes := AttackPattern.success_count pattern |}.

Definition get_pattern_status (e : RedTeamExecutor) : gmap string PatternStatus :=
  fold_left (fun status pattern =>
               <[AttackPattern.description pattern := pattern_status pattern]> status)
            (attack_patterns e) ∅.

(** counter_intelligence_system.py, [MetricsCollector.calculate_improvement]:
    [None] stands for the empty dict returned for fewer than two entries. *)
Record Improvement : Type := {
  fitness_improvement : Q;
  defenses_activated : Z;
  improvement_issues_resolved : Z;
  total_iterations : Z
}.

Definition calculate_improvement (c : MetricsCollector) : option Improvement :=
  if (length (metrics_history c) <? 2)%nat then None
  else
    match metrics_history c, last (metrics_history c) with
    | first :: _, Some last_metrics =>
        Some {| fitness_improvement :=
                  (EvolutionMetrics.fitness_score last_metrics
                   - EvolutionMetrics.fitness_score first)%Q;
                defenses_activated :=
                  EvolutionMetrics.defenses_active last_metrics
                  - EvolutionMetrics.defenses_active first;
                improvement_issues_resolved :=
                  EvolutionMetrics.issues_resolved last_metrics;
                total_iterations := EvolutionMetrics.code_iterations last_metrics |}
    | _, _ => None
    end.


(* ===================================================================== *)
(** ** Specification vocabulary                                           *)
(* ===================================================================== *)

(** A computation started where [pre] holds ends, if it returns [a], where
    [post a] holds and, if it raises, where [epost] holds. *)
Definition triple {S A} (pre : S -> Prop) (m : Py S A)
    (post : A -> S -> Prop) (epost : S -> Prop) : Prop :=
  forall s r s', pre s -> m s = (r, s') ->
    match r with Ok a => post a s' | Raise _ => epost s' end.

(** [m] keeps [I], however it ends. *)
Definition preserves {S A} (I : S -> Prop) (m : Py S A) : Prop :=
  triple I m (fun _ => I) I.

(** Every registered mechanism satisfies [P]. *)
Definition registry_all (P : DefenseMechanism -> Prop) (fw : DefenseFramework) : Prop :=
  forall d m, fw !! d = Some m -> P m.

(** The counters of a [DefenseConfig] add up. *)
Definition counters_consistent (m : DefenseMechanism) : Prop :=
  successful_blocks (config m) + false_positives (config m) = times_triggered (config m)
  /\ 0 <= successful_blocks (config m) /\ 0 <= false_positives (config m).

Definition strength_in_range (m : DefenseMechanism) : Prop :=
  in_range (strength (config m)).

(** The counters of an [AttackPattern] are consistent. *)
Definition pattern_counters_ok (p : AttackPattern.t) : Prop :=
  0 <= AttackPattern.success_count p <= AttackPattern.attempt_count p.

(** What [execute_attack] does to a pattern [p], giving exploit [e] and
    leaving the pattern as [p']. *)
Definition attempt_recorded (p : AttackPattern.t) (e : Exploit.t) (p' : AttackPattern.t)
  : Prop :=
  Exploit.vector e = AttackPattern.defense_type p /\
  Exploit.description e = AttackPattern.description p /\
  Exploit.difficulty e = AttackPattern.difficulty p /\
  Exploit.severity e = _calculate_severity p /\
  p' = AttackPattern.record_attempt (negb (Exploit.blocked e)) p.

(** What one [adapt_patterns] pass may do to a pattern. *)
Definition adapted (p p' : AttackPattern.t) : Prop :=
  AttackPattern.defense_type p' = AttackPattern.defense_type p /\
  AttackPattern.payload_generator p' = AttackPattern.payload_generator p /\
  AttackPattern.description p' = AttackPattern.description p /\
  AttackPattern.success_count p' = AttackPattern.success_count p /\
  AttackPattern.attempt_count p' = AttackPattern.attempt_count p /\
  Z.min 10 (AttackPattern.difficulty p) <= AttackPattern.difficulty p'
    <= AttackPattern.difficulty p + 1 /\
  AttackPattern.adaptations p <= AttackPattern.adaptations p'
    <= AttackPattern.adaptations p + 1.

(** [n] calls of [evaluate] on one mechanism; the verdicts, first call
    first. *)
Fixpoint evaluate_calls (n : nat) (v : PyValue)
  : Py DefenseMechanism (list (bool * string)) :=
  match n with
  | O => ret []
  | S n' => r <- evaluate v ;; rs <- evaluate_calls n' v ;; ret (r :: rs)
  end.

(** The verdict of a mechanism on a payload, when its evaluation returns. *)
Definition blocks (m : DefenseMechanism) (v : PyValue) : Prop :=
  exists reason, fst (evaluate v m) = Ok (true, reason).

(** Counters consistent and difficulty at least 1. *)
Definition pattern_well_formed (p : AttackPattern.t) : Prop :=
  pattern_counters_ok p /\ 1 <= AttackPattern.difficulty p /\
  0 <= AttackPattern.adaptations p.

(** The exploits that were not blocked and whose target has the given
    name, in order. *)
Definition failures_named (defense_name : string) (exploits : list Exploit.t)
  : list Exploit.t :=
  List.filter (fun e => negb (Exploit.blocked e)
                        && bool_decide (value (Exploit.vector e) = defense_name))
              exploits.

(** The groups [failures_by_defense] holds after the exploits [l]. *)
Definition groups_represent (groups : list (string * list Exploit.t))
    (l : list Exploit.t) : Prop :=
  NoDup groups.*1 /\
  (forall n es, (n, es) ∈ groups -> es = failures_named n l /\ es <> []) /\
  (forall n, failures_named n l <> [] -> n ∈ groups.*1).

(** What [_apply_defensive_adaptations] does to one mechanism: strengthened
    by 2 or not, then activated or not. *)
Definition defensive_effect (strengthened activated : bool) (m : DefenseMechanism)
  : DefenseMechanism :=
  let m := if strengthened then update_config (config_strengthen 2) m else m in
  if activated then update_config (set_active true) m else m.

(** Two registries with mechanisms for the same categories. *)
Definition same_categories (fw fw' : DefenseFramework) : Prop :=
  forall d, fw !! d = None <-> fw' !! d = None.

(** The category whose check a mechanism's class implements. *)
Definition mechanism_class (m : DefenseMechanism) : DefenseType :=
  match m with
  | InputValidationDefense _ => INPUT_VALIDATION
  | TypeCheckingDefense _ => TYPE_CHECKING
  | BoundsEnforcementDefense _ => BOUNDS_ENFORCEMENT
  | SanitizationDefense _ => SANITIZATION
  | StateProtectionDefense _ => STATE_PROTECTION
  | RateLimitingDefense _ _ => RATE_LIMITING
  | CryptographyDefense _ => CRYPTOGRAPHY
  end.

(** Every category a catalog pattern aims at has its own class of mechanism
    registered and active, at a strength below 160 (where the bounds limit
    [50 - (10 - strength) * 3] reaches the shortest overflow payload). *)
Definition guards (fw : DefenseFramework) : Prop :=
  forall d, d ∈ AttackPattern.defense_type <$> pattern_catalog ->
    exists m, fw !! d = Some m /\ mechanism_class m = d /\
              active (config m) = true /\ strength (config m) < 160.

(** A pattern with the target and the payload generator of a catalog
    entry. *)
Definition from_catalog (p : AttackPattern.t) : Prop :=
  exists c, c ∈ pattern_catalog /\
    AttackPattern.defense_type p = AttackPattern.defense_type c /\
    AttackPattern.payload_generator p = AttackPattern.payload_generator c.

(** An orchestrator whose registry guards the catalog and whose active
    patterns, at least one, come from the catalog. *)
Definition guarded (o : EvolutionOrchestrator) : Prop :=
  guards (defense_framework (seed o)) /\
  Forall from_catalog (attack_patterns (red_team o)) /\
  attack_patterns (red_team o) <> [].

(** Two registries that differ at most in counters: the same categories,
    each with a mechanism of the same class, strength and active flag. *)
Definition settings_kept (fw fw' : DefenseFramework) : Prop :=
  forall d,
    option_Forall2
      (fun m m' => mechanism_class m' = mechanism_class m /\
                   strength (config m') = strength (config m) /\
                   active (config m') = active (config m))
      (fw !! d) (fw' !! d).

(** A report of a generation in which every attack was blocked and nothing
    had to be adapted. *)
Definition perfect_report (report : GenerationReport.t) : Prop :=
  Forall (fun e => Exploit.blocked e = true) (GenerationReport.exploits report) /\
  GenerationReport.attacks_blocked report = GenerationReport.attacks_total report /\
  (GenerationReport.fitness_score report == 100)%Q /\
  GenerationReport.issues report = [] /\
  GenerationReport.code_iterations report = 0.

(** The number of active mechanisms of a registry. *)
Definition active_count (fw : DefenseFramework) : Z :=
  count_if (fun kv => active (config (snd kv))) (map_to_list fw).

(** [_apply_defensive_adaptations] with the iteration order of the set
    [failed_defenses] given as a list. *)
Definition defensive_adaptations_in_order (failed : list DefenseType)
    (exploits : list Exploit.t) : Py EvolvableSeed (list Fix) :=
  fixes1 <- strengthen_failed failed ;;
  fixes2 <- activate_related failed ;;
  let fitness :=
    fitness_of (count_if Exploit.blocked exploits) (Z.of_nat (length exploits)) in
  fixes3 <- (if Qltb fitness 50
             then for_each DefenseType_members activate_defense ;;;
                  ret [EmergencyActivation fitness]
             else ret []) ;;
  ret (fixes1 ++ fixes2 ++ fixes3).

(** The complementaries strategy 2 visits for the failed categories. *)
Definition complementaries_of (failed : list DefenseType) : list DefenseType :=
  failed ≫= (fun d => default [] (defense_relationships d)).

(** A registered mechanism that is switched off. *)
Definition inactive_in (fw : DefenseFramework) (c : DefenseType) : Prop :=
  exists m, fw !! c = Some m /\ active (config m) = false.





(* ===================================================================== *)
(** * Properties                                                          *)
(* ===================================================================== *)

Ltac py_unfold :=
  unfold bind, ret, raise, try_except, get, put, modify, zoom in *.

(** ** DefenseConfig.strengthen *)

Lemma strengthen_calls_upper amounts c :
  strength c <= 10 -> strength (strengthen_calls amounts c) <= 10.
Proof.
  revert c. induction amounts as [|a amounts IH]; intros c Hc; simpl; [exact Hc|].
  apply IH. simpl. lia.
Qed.

Lemma strengthen_calls_lower amounts c :
  Forall (fun a => 0 <= a) amounts ->
  1 <= strength c -> 1 <= strength (strengthen_calls amounts c).
Proof.
  intros Hall. revert c.
  induction Hall as [|a amounts Ha _ IH]; intros c Hc; simpl; [exact Hc|].
  apply IH. simpl. lia.
Qed.

(** C8, as the code has it: from a strength within [1,10], any sequence of
    [strengthen(amount)] calls keeps the strength at most 10, and keeps it
    within [1,10] when no amount is negative. *)
Theorem strengthen_clamping_law (c : DefenseConfig) (amounts : list Z) :
  in_range (strength c) ->
  strength (strengthen_calls amounts c) <= 10 /\
  (Forall (fun a => 0 <= a) amounts -> in_range (strength (strengthen_calls amounts c))).
Proof.
  intros [Hlo Hhi]. split.
  - by apply strengthen_calls_upper.
  - intros Hall. split.
    + by apply strengthen_calls_lower.
    + by apply strengthen_calls_upper.
Qed.

Lemma strengthen_clamping_law_witness :
  in_range (strength (strengthen_calls [2; 5; 0; 7] (new_DefenseConfig INPUT_VALIDATION true 5))).
Proof.
  apply (strengthen_clamping_law (new_DefenseConfig INPUT_VALIDATION true 5) [2; 5; 0; 7]).
  - unfold in_range; simpl; lia.
  - repeat constructor; lia.
Defined.

(** C8 as stated fails: [strengthen(-5)] on a config of strength 1 leaves
    strength -4, below the range; only the upper bound is clamped. *)
Lemma strengthen_negative_amount_leaves_range :
  let c := new_DefenseConfig INPUT_VALIDATION true 1 in
  in_range (strength c) /\
  strength (strengthen_calls [-5] c) = -4 /\
  ~ in_range (strength (strengthen_calls [-5] c)).
Proof.
  simpl. unfold in_range. simpl. repeat split; lia.
Qed.

(** ** DefenseFramework.apply_defense *)

Lemma update_config_config f m : config (update_config f m) = f (config m).
Proof. by destruct m. Qed.

(** [evaluate] never touches the mechanism's [config]. *)
Lemma evaluate_config v m r m' : evaluate v m = (r, m') -> config m' = config m.
Proof.
  destruct m; simpl; try (intros [= _ <-]; reflexivity).
  destruct (RateLimiting_evaluate config0 request_count v) as [r0 n'].
  intros [= _ <-]. reflexivity.
Qed.

Lemma execute_Ok v m b reason m1 :
  evaluate v m = (Ok (b, reason), m1) ->
  execute v m = (Ok (b, reason), update_config (trigger b) m1).
Proof. intros H. unfold execute. py_unfold. by rewrite H. Qed.

Lemma execute_Raise v m e m1 :
  evaluate v m = (Raise e, m1) -> execute v m = (Raise e, m1).
Proof. intros H. unfold execute. py_unfold. by rewrite H. Qed.

Lemma apply_defense_not_found d v (fw : DefenseFramework) :
  fw !! d = None -> apply_defense d v fw = (Ok (false, "Defense not found"), fw).
Proof. intros H. unfold apply_defense. py_unfold. by rewrite H. Qed.

Lemma apply_defense_inactive d v (fw : DefenseFramework) defense :
  fw !! d = Some defense -> active (config defense) = false ->
  apply_defense d v fw = (Ok (false, "Defense inactive"), fw).
Proof. intros H Ha. unfold apply_defense. py_unfold. by rewrite H, Ha. Qed.

Lemma apply_defense_evaluated d v (fw : DefenseFramework) defense b reason m1 :
  fw !! d = Some defense -> active (config defense) = true ->
  evaluate v defense = (Ok (b, reason), m1) ->
  apply_defense d v fw = (Ok (b, reason), <[d := update_config (trigger b) m1]> fw).
Proof.
  intros H Ha He. unfold apply_defense, on_defense. py_unfold.
  rewrite H, Ha. simpl. by rewrite (execute_Ok _ _ _ _ _ He).
Qed.

Lemma apply_defense_fault d v (fw : DefenseFramework) defense e m1 :
  fw !! d = Some defense -> active (config defense) = true ->
  evaluate v defense = (Raise e, m1) ->
  apply_defense d v fw
  = (Ok (false, "Defense execution error: " +:+ e), <[d := m1]> fw).
Proof.
  intros H Ha He. unfold apply_defense, on_defense. py_unfold.
  rewrite H, Ha. simpl. by rewrite (execute_Raise _ _ _ _ He).
Qed.

Lemma keeps_registered_refl fw : keeps_registered fw fw.
Proof. by intros d. Qed.

Lemma keeps_registered_trans fw1 fw2 fw3 :
  keeps_registered fw1 fw2 -> keeps_registered fw2 fw3 -> keeps_registered fw1 fw3.
Proof. intros H12 H23 d H. by apply H23, H12. Qed.

Lemma keeps_registered_insert (fw : DefenseFramework) d m :
  keeps_registered fw (<[d := m]> fw).
Proof.
  intros d' H. rewrite lookup_insert. by case_decide.
Qed.

Lemma keeps_registered_alter (fw : DefenseFramework) f d :
  keeps_registered fw (alter f d fw).
Proof.
  intros d' [m H]. rewrite lookup_alter. case_decide; [subst|by rewrite H].
  rewrite H. by eexists.
Qed.

Lemma apply_defense_Ok d v (fw : DefenseFramework) :
  exists b reason fw',
    apply_defense d v fw = (Ok (b, reason), fw') /\ keeps_registered fw fw'.
Proof.
  destruct (fw !! d) as [defense|] eqn:Hd.
  - destruct (active (config defense)) eqn:Ha.
    + destruct (evaluate v defense) as [[[b reason]|e] m1] eqn:He.
      * eexists _, _, _. split; [by eapply apply_defense_evaluated|].
        apply keeps_registered_insert.
      * eexists _, _, _. split; [by eapply apply_defense_fault|].
        apply keeps_registered_insert.
    + eexists _, _, _. split; [by eapply apply_defense_inactive|].
      apply keeps_registered_refl.
  - eexists _, _, _. split; [by apply apply_defense_not_found|].
    apply keeps_registered_refl.
Qed.

(** C6: [apply_defense] always returns a [(bool, str)] pair and never
    raises; a category without a mechanism gives [(False, "Defense not
    found")] and leaves the registry as it was; a fault raised by an active
    defense's evaluation with message [e] is caught and gives
    [(False, "Defense execution error: " + e)]. *)
Theorem apply_defense_never_raises (fw : DefenseFramework) (d : DefenseType) (v : PyValue) :
  (exists b reason fw', apply_defense d v fw = (Ok (b, reason), fw')) /\
  (fw !! d = None ->
   apply_defense d v fw = (Ok (false, "Defense not found"), fw)) /\
  (forall defense e m1,
     fw !! d = Some defense -> active (config defense) = true ->
     evaluate v defense = (Raise e, m1) ->
     fst (apply_defense d v fw) = Ok (false, "Defense execution error: " +:+ e)).
Proof.
  split; [|split].
  - destruct (apply_defense_Ok d v fw) as (b & reason & fw' & H & _). eauto.
  - apply apply_defense_not_found.
  - intros defense e m1 Hd Ha He.
    by rewrite (apply_defense_fault _ _ _ _ _ _ Hd Ha He).
Qed.

(** An object whose [__str__] raises, sent to the active sanitization
    defense of a fresh registry, and a payload sent to a category that has
    no mechanism. *)
Lemma apply_defense_never_raises_witness :
  let fw := _initialize_defenses (Config.defense Config.default) in
  fst (apply_defense SANITIZATION (VObject false (Raise "boom")) fw)
  = Ok (false, "Defense execution error: boom") /\
  apply_defense LOGIC_HARDENING (VStr "x") fw = (Ok (false, "Defense not found"), fw).
Proof.
  intros fw. split.
  - apply (proj2 (proj2 (apply_defense_never_raises fw SANITIZATION
                           (VObject false (Raise "boom"))))
             (SanitizationDefense (new_DefenseConfig SANITIZATION true 1)) "boom"
             (SanitizationDefense (new_DefenseConfig SANITIZATION true 1)));
      reflexivity.
  - apply (proj1 (proj2 (apply_defense_never_raises fw LOGIC_HARDENING (VStr "x")))).
    reflexivity.
Defined.

(** C7: an inactive registered category answers [(False, "Defense
    inactive")] for every payload and the whole registry, counters
    included, is left as it was; an active one whose evaluation completes
    with verdict [b] answers that verdict, and its mechanism then has
    [times_triggered] one higher and exactly one of [successful_blocks]
    (when [b]) and [false_positives] (when not [b]) one higher. *)
Theorem apply_defense_counters (fw : DefenseFramework) (d : DefenseType)
    (defense : DefenseMechanism) (v : PyValue) :
  fw !! d = Some defense ->
  (active (config defense) = false ->
   apply_defense d v fw = (Ok (false, "Defense inactive"), fw)) /\
  (forall b reason m1,
     active (config defense) = true ->
     evaluate v defense = (Ok (b, reason), m1) ->
     exists defense',
       fst (apply_defense d v fw) = Ok (b, reason) /\
       snd (apply_defense d v fw) !! d = Some defense' /\
       times_triggered (config defense') = times_triggered (config defense) + 1 /\
       successful_blocks (config defense')
       = successful_blocks (config defense) + (if b then 1 else 0) /\
       false_positives (config defense')
       = false_positives (config defense) + (if b then 0 else 1)).
Proof.
  intros Hd. split.
  - intros Ha. by eapply apply_defense_inactive.
  - intros b reason m1 Ha He.
    rewrite (apply_defense_evaluated _ _ _ _ _ _ _ Hd Ha He). simpl.
    eexists. split; [reflexivity|]. split; [apply lookup_insert_eq|].
    rewrite update_config_config, (evaluate_config _ _ _ _ He).
    destruct b; simpl; repeat split; lia.
Qed.

Lemma apply_defense_counters_witness :
  let fw := _initialize_defenses (Config.defense Config.default) in
  apply_defense RATE_LIMITING (VStr "x") fw = (Ok (false, "Defense inactive"), fw) /\
  exists defense',
    fst (apply_defense INPUT_VALIDATION VNone fw) = Ok (true, "Rejected: null value") /\
    snd (apply_defense INPUT_VALIDATION VNone fw) !! INPUT_VALIDATION = Some defense' /\
    times_triggered (config defense') = 0 + 1 /\
    successful_blocks (config defense') = 0 + 1 /\
    false_positives (config defense') = 0 + 0.
Proof.
  intros fw. split.
  - apply (proj1 (apply_defense_counters fw RATE_LIMITING
                    (RateLimitingDefense (new_DefenseConfig RATE_LIMITING false 1) 0)
                    (VStr "x") eq_refl)).
    reflexivity.
  - apply (proj2 (apply_defense_counters fw INPUT_VALIDATION
                    (InputValidationDefense (new_DefenseConfig INPUT_VALIDATION true 1))
                    VNone eq_refl)
             true "Rejected: null value"
             (InputValidationDefense (new_DefenseConfig INPUT_VALIDATION true 1)));
      reflexivity.
Defined.

(** ** Categories without a mechanism *)

Lemma activate_unregistered d (fw : DefenseFramework) :
  fw !! d = None -> activate d fw = (Ok tt, fw).
Proof. intros H. unfold activate. py_unfold. by rewrite H. Qed.

Lemma strengthen_unregistered d amount (fw : DefenseFramework) :
  fw !! d = None -> strengthen d amount fw = (Ok tt, fw).
Proof. intros H. unfold strengthen. py_unfold. by rewrite H. Qed.

Lemma insert_as_alter (f : DefenseMechanism -> DefenseMechanism) d m
    (fw : DefenseFramework) :
  fw !! d = Some m -> <[d := f m]> fw = alter f d fw.
Proof.
  intros H. apply map_eq. intros d'. rewrite lookup_insert, lookup_alter.
  case_decide; [subst; by rewrite H|done].
Qed.

Lemma alter_unregistered (f : DefenseMechanism -> DefenseMechanism) d
    (fw : DefenseFramework) :
  fw !! d = None -> alter f d fw = fw.
Proof.
  intros H. apply map_eq. intros d'. rewrite lookup_alter.
  case_decide; [subst; by rewrite H|done].
Qed.

(** [activate] and [strengthen] change the mechanism of their category, if
    there is one, and nothing else. *)
Lemma activate_alter d (fw : DefenseFramework) :
  activate d fw = (Ok tt, alter (update_config (set_active true)) d fw).
Proof.
  unfold activate. py_unfold. destruct (fw !! d) as [m|] eqn:Hd.
  - by rewrite (insert_as_alter _ _ _ _ Hd).
  - by rewrite alter_unregistered.
Qed.

Lemma strengthen_alter d amount (fw : DefenseFramework) :
  strengthen d amount fw
  = (Ok tt, alter (update_config (config_strengthen amount)) d fw).
Proof.
  unfold strengthen. py_unfold. destruct (fw !! d) as [m|] eqn:Hd.
  - by rewrite (insert_as_alter _ _ _ _ Hd).
  - by rewrite alter_unregistered.
Qed.

Lemma activate_defense_alter d (s : EvolvableSeed) :
  activate_defense d s
  = (Ok tt, set_defense_framework
              (alter (update_config (set_active true)) d (defense_framework s)) s).
Proof. unfold activate_defense, in_framework, zoom. by rewrite activate_alter. Qed.

Lemma strengthen_defense_alter d amount (s : EvolvableSeed) :
  strengthen_defense d (Some amount) s
  = (Ok tt, set_defense_framework
              (alter (update_config (config_strengthen amount)) d
                 (defense_framework s)) s).
Proof.
  unfold strengthen_defense, in_framework. py_unfold. by rewrite strengthen_alter.
Qed.

Lemma alter_each_lookup_None f ds (fw : DefenseFramework) d :
  fw !! d = None -> alter_each f ds fw !! d = None.
Proof.
  revert fw. induction ds as [|d0 ds IH]; intros fw H; simpl; [done|].
  apply IH. rewrite lookup_alter. case_decide; [subst; by rewrite H|done].
Qed.

Lemma alter_each_lookup_once f ds (fw : DefenseFramework) d :
  NoDup ds -> d ∈ ds -> alter_each f ds fw !! d = f <$> fw !! d.
Proof.
  intros Hnd. revert fw. induction Hnd as [|d0 ds Hnotin Hnd IH]; intros fw Hin.
  - by apply elem_of_nil in Hin.
  - simpl. apply elem_of_cons in Hin as [->|Hin].
    + clear IH. assert (Hkeep : forall fw' : DefenseFramework,
                 alter_each f ds fw' !! d0 = fw' !! d0).
      { clear -Hnotin. induction ds as [|d1 ds IH]; intros fw'; simpl; [done|].
        apply not_elem_of_cons in Hnotin as [Hne Hnotin].
        rewrite IH by done. by rewrite lookup_alter_ne. }
      by rewrite Hkeep, lookup_alter_eq.
    + rewrite IH by done. rewrite lookup_alter_ne; [done|].
      intros ->. by apply Hnotin.
Qed.


Lemma DefenseType_members_all d : d ∈ DefenseType_members.
Proof. unfold DefenseType_members. destruct d; repeat constructor. Qed.

(** The emergency rule: [for defense_type in DefenseType: activate]. *)
Lemma emergency_activation_alter (s : EvolvableSeed) ds :
  for_each ds activate_defense s
  = (Ok tt, set_defense_framework
              (alter_each (update_config (set_active true)) ds (defense_framework s)) s).
Proof.
  revert s. induction ds as [|d ds IH]; intros s; simpl.
  - by destruct s.
  - py_unfold. rewrite activate_defense_alter, IH. reflexivity.
Qed.

Lemma breakthrough_loop_alter (s : EvolvableSeed) ds :
  for_each ds (fun defense_type =>
                 strengthen_defense defense_type (Some 3) ;;;
                 activate_defense defense_type) s
  = (Ok tt, set_defense_framework
              (alter_each breakthrough_effect ds (defense_framework s)) s).
Proof.
  revert s. induction ds as [|d ds IH]; intros s; simpl.
  - by destruct s.
  - py_unfold. rewrite strengthen_defense_alter, activate_defense_alter, IH.
    simpl. by rewrite alter_alter_eq.
Qed.

Lemma _apply_breakthrough_mutations_alter (s : EvolvableSeed) :
  _apply_breakthrough_mutations s
  = (Ok tt, set_defense_framework
              (alter_each breakthrough_effect DefenseType_members (defense_framework s)) s).
Proof. apply breakthrough_loop_alter. Qed.

Lemma fresh_registry_lookup cfg d :
  _initialize_defenses cfg !! d
  = match d with
    | INPUT_VALIDATION =>
        Some (InputValidationDefense
                (new_DefenseConfig INPUT_VALIDATION true (Config.initial_strength cfg)))
    | TYPE_CHECKING =>
        Some (TypeCheckingDefense
                (new_DefenseConfig TYPE_CHECKING true (Config.initial_strength cfg)))
    | BOUNDS_ENFORCEMENT =>
        Some (BoundsEnforcementDefense
                (new_DefenseConfig BOUNDS_ENFORCEMENT true (Config.initial_strength cfg)))
    | SANITIZATION =>
        Some (SanitizationDefense
                (new_DefenseConfig SANITIZATION true (Config.initial_strength cfg)))
    | STATE_PROTECTION =>
        Some (StateProtectionDefense
                (new_DefenseConfig STATE_PROTECTION true (Config.initial_strength cfg)))
    | RATE_LIMITING => Some (RateLimitingDefense (new_DefenseConfig RATE_LIMITING false 1) 0)
    | CRYPTOGRAPHY => Some (CryptographyDefense (new_DefenseConfig CRYPTOGRAPHY false 1))
    | LOGIC_HARDENING | ANOMALY_DETECTION => None
    end.
Proof.
  unfold _initialize_defenses.
  destruct d; repeat (rewrite lookup_insert_ne by discriminate);
    first [apply lookup_insert_eq | apply lookup_empty].
Qed.

(** C9: [LOGIC_HARDENING] and [ANOMALY_DETECTION] get no mechanism at
    initialisation.  On any registry without a mechanism for such a category
    [apply_defense] answers [(False, "Defense not found")] for every
    payload, and [activate] and [strengthen] complete and leave the registry
    as it was; the emergency rule and the breakthrough pass, which loop over
    every [DefenseType], complete without raising and leave the category
    without a mechanism. *)
Theorem unregistered_categories_are_skipped (d : DefenseType) :
  d = LOGIC_HARDENING \/ d = ANOMALY_DETECTION ->
  (forall cfg, _initialize_defenses cfg !! d = None) /\
  (forall fw : DefenseFramework,
     fw !! d = None ->
     (forall v, apply_defense d v fw = (Ok (false, "Defense not found"), fw)) /\
     activate d fw = (Ok tt, fw) /\
     (forall amount, strengthen d amount fw = (Ok tt, fw)) /\
     (forall s, defense_framework s = fw ->
        exists s', for_each DefenseType_members activate_defense s = (Ok tt, s') /\
                   defense_framework s' !! d = None) /\
     (forall s, defense_framework s = fw ->
        exists s', _apply_breakthrough_mutations s = (Ok tt, s') /\
                   defense_framework s' !! d = None)).
Proof.
  intros Hd. split.
  - intros cfg. rewrite fresh_registry_lookup. by destruct Hd as [-> | ->].
  - intros fw Hnone. repeat split.
    + intros v. by apply apply_defense_not_found.
    + by apply activate_unregistered.
    + intros amount. by apply strengthen_unregistered.
    + intros s <-. eexists. split; [apply emergency_activation_alter|].
      exact (alter_each_lookup_None _ _ _ _ Hnone).
    + intros s <-. eexists. split; [apply _apply_breakthrough_mutations_alter|].
      exact (alter_each_lookup_None _ _ _ _ Hnone).
Qed.

Lemma unregistered_categories_are_skipped_witness :
  let fw := _initialize_defenses (Config.defense Config.default) in
  fw !! LOGIC_HARDENING = None /\
  apply_defense LOGIC_HARDENING VNone fw = (Ok (false, "Defense not found"), fw) /\
  strengthen LOGIC_HARDENING 3 fw = (Ok tt, fw).
Proof.
  intros fw.
  pose proof (unregistered_categories_are_skipped LOGIC_HARDENING (or_introl eq_refl))
    as [Hfresh Hops].
  specialize (Hops fw (Hfresh _)) as (Happly & _ & Hstrengthen & _).
  split; [apply Hfresh|]. split; [apply Happly|apply Hstrengthen].
Defined.

(** ** RedTeamAdaptationEngine.adapt_patterns *)

Lemma Qltb_lt x y : Qltb x y = true <-> (x < y)%Q.
Proof.
  unfold Qltb. rewrite negb_true_iff. split.
  - intros H. apply Qnot_le_lt. intros Hle.
    apply Qle_bool_iff in Hle. congruence.
  - intros H. destruct (Qle_bool y x) eqn:E; [|done].
    apply Qle_bool_iff in E. by apply Qlt_not_le in H.
Qed.

Lemma Qltb_ge x y : Qltb x y = false <-> (y <= x)%Q.
Proof.
  unfold Qltb. rewrite negb_false_iff. apply Qle_bool_iff.
Qed.

(** The branch for patterns that work well caps the difficulty at 10 and
    counts the adaptation. *)
Lemma increase_path_effect (p : AttackPattern.t) :
  (6 # 10 < AttackPattern.success_rate p)%Q ->
  AttackPattern.difficulty (fst (adapt_pattern p))
  = Z.min 10 (AttackPattern.difficulty p + 1) /\
  AttackPattern.adaptations (fst (adapt_pattern p)) = AttackPattern.adaptations p + 1.
Proof.
  intros H. apply Qltb_lt in H. unfold adapt_pattern. by rewrite H.
Qed.

(** The branch for failing patterns adds 1 to the difficulty of a pattern
    aimed at bounds enforcement, sanitization or type checking, without a
    cap, and changes no other field. *)
Lemma mutation_path_effect (p : AttackPattern.t) :
  (AttackPattern.success_rate p < 2 # 10)%Q ->
  2 < AttackPattern.attempt_count p ->
  AttackPattern.defense_type p ∈ [BOUNDS_ENFORCEMENT; SANITIZATION; TYPE_CHECKING] ->
  adapt_pattern p
  = (AttackPattern.set_difficulty (AttackPattern.difficulty p + 1) p,
     [MutatedPayload (AttackPattern.description p)]).
Proof.
  intros Hrate Hattempts Htarget. unfold adapt_pattern.
  assert (Qltb (6 # 10) (AttackPattern.success_rate p) = false) as ->.
  { apply Qltb_ge. apply Qlt_le_weak. eapply Qlt_trans; [exact Hrate|reflexivity]. }
  apply Qltb_lt in Hrate. rewrite Hrate.
  assert ((2 <? AttackPattern.attempt_count p) = true) as -> by lia.
  simpl. unfold _mutate_payload.
  destruct (AttackPattern.defense_type p) eqn:E; try reflexivity; exfalso;
    repeat (apply elem_of_cons in Htarget as [Htarget|Htarget]; [discriminate|]);
    by apply elem_of_nil in Htarget.
Qed.

(** One pass keeps a difficulty that is within [1,10] within [1,11]. *)
Lemma adapt_pattern_difficulty (p : AttackPattern.t) :
  in_range (AttackPattern.difficulty p) ->
  1 <= AttackPattern.difficulty (fst (adapt_pattern p)) <= 11.
Proof.
  unfold in_range, adapt_pattern, _mutate_payload. intros H.
  destruct (Qltb (6 # 10) (AttackPattern.success_rate p)); simpl; [lia|].
  destruct (Qltb (AttackPattern.success_rate p) (2 # 10)
            && (2 <? AttackPattern.attempt_count p)); simpl; [|lia].
  destruct (AttackPattern.defense_type p); simpl; lia.
Qed.

(** C2 fails on the code.  A pattern aimed at bounds enforcement with
    difficulty 10 and 0 successes in 3 attempts leaves one [adapt_patterns]
    pass with difficulty 11: [_mutate_payload] adds 1 without the
    [min(10, ...)] of the other branch.  The state is reached from a fresh
    default system: after [run_generation] for generations 0 to 8 the
    pattern "SQL injection" has difficulty 11. *)
Theorem mutation_path_exceeds_difficulty_cap :
  let pattern :=
    AttackPattern.mk BOUNDS_ENFORCEMENT
      (fun gen => Ok (AttackPatternLibrary.buffer_overflow_small gen))
      "String buffer overflow" 10 0 3 0 in
  in_range (AttackPattern.difficulty pattern) /\
  AttackPattern.difficulty (fst (adapt_pattern pattern)) = 11 /\
  exists o,
    run_generations 9 (fresh_orchestrator Config.default 10) = (Ok tt, o) /\
    (fun p => (AttackPattern.description p, AttackPattern.difficulty p))
      <$> attack_patterns (red_team o)
    = [("Null injection attack", 1); ("Empty string bypass", 1);
       ("List type confusion", 9); ("Dict type confusion", 9);
       ("String buffer overflow", 10); ("SQL injection", 11)].
Proof.
  split; [unfold in_range; simpl; lia|]. split; [reflexivity|].
  destruct (run_generations 9 (fresh_orchestrator Config.default 10)) as [r o] eqn:E.
  exists o.
  assert (Hr : r = Ok tt).
  { change r with (fst (r, o)). rewrite <- E. vm_compute. reflexivity. }
  subst r. split; [reflexivity|].
  change o with (snd (Ok tt : outcome unit, o)). rewrite <- E.
  vm_compute. reflexivity.
Qed.

(** C3 fails on the code.  For a pattern aimed at bounds enforcement with 0
    successes in 3 attempts, difficulty 3 and no adaptations yet, one
    [adapt_patterns] pass gives difficulty 4 and reports a mutation, but
    [adaptations] is still 0; only the branch for success rates above 0.6
    increments it. *)
Theorem mutation_path_skips_adaptation_count :
  let pattern :=
    AttackPattern.mk BOUNDS_ENFORCEMENT
      (fun gen => Ok (AttackPatternLibrary.buffer_overflow_small gen))
      "String buffer overflow" 3 0 3 0 in
  (AttackPattern.success_rate pattern < 2 # 10)%Q /\
  2 < AttackPattern.attempt_count pattern /\
  AttackPattern.difficulty (fst (adapt_pattern pattern)) = 3 + 1 /\
  snd (adapt_pattern pattern) = [MutatedPayload "String buffer overflow"] /\
  AttackPattern.adaptations (fst (adapt_pattern pattern)) = 0 /\
  AttackPattern.adaptations (fst (adapt_pattern pattern)) <> 0 + 1.
Proof.
  simpl. repeat split; try reflexivity; try lia; discriminate.
Qed.

(** ** Stepping through computations *)

Lemma bind_Ok {S A B} (m : Py S A) (k : A -> Py S B) s a s' :
  m s = (Ok a, s') -> bind m k s = k a s'.
Proof. intros H. unfold bind. by rewrite H. Qed.

Lemma zoom_Ok {S T A} (proj : S -> T) (upd : T -> S -> S) (m : Py T A) s a t :
  m (proj s) = (Ok a, t) -> zoom proj upd m s = (Ok a, upd t s).
Proof. intros H. unfold zoom. by rewrite H. Qed.

(** ** RedTeamExecutor.execute_suite *)

Lemma seed_evolves_refl s : seed_evolves s s.
Proof.
  exists (defense_framework s). split; [by destruct s|apply keeps_registered_refl].
Qed.

Lemma seed_evolves_trans s1 s2 s3 :
  seed_evolves s1 s2 -> seed_evolves s2 s3 -> seed_evolves s1 s3.
Proof.
  intros (fw2 & -> & H12) (fw3 & -> & H23). exists fw3. split; [done|].
  by eapply keeps_registered_trans.
Qed.

Lemma seed_evolves_alter f d s :
  seed_evolves s (set_defense_framework (alter f d (defense_framework s)) s).
Proof. eexists. split; [done|]. apply keeps_registered_alter. Qed.

Lemma seed_evolves_registered s s' d :
  seed_evolves s s' -> is_Some (defense_framework s !! d) ->
  is_Some (defense_framework s' !! d).
Proof. intros (fw' & -> & H). apply H. Qed.

Lemma test_defense_Ok d v s :
  exists b reason s',
    test_defense d v s = (Ok (b, reason), s') /\ seed_evolves s s'.
Proof.
  destruct (apply_defense_Ok d v (defense_framework s)) as (b & reason & fw' & H & Hk).
  exists b, reason, (set_defense_framework fw' s). split.
  - unfold test_defense, in_framework. by apply zoom_Ok.
  - by exists fw'.
Qed.

Lemma execute_attack_Ok pattern (st : ExecutorStore) :
  exists e p' sd',
    execute_attack pattern st = (Ok (e, p'), (sd', snd st)) /\
    Exploit.vector e = AttackPattern.defense_type pattern /\
    seed_evolves (fst st) sd'.
Proof.
  destruct st as [sd ex]. unfold execute_attack.
  set (payload := match AttackPattern.payload_generator pattern
                              (generation_number ex) with
                  | Ok v => v | Raise _ => VNone end).
  destruct (test_defense_Ok (AttackPattern.defense_type pattern) payload sd)
    as (b & reason & sd' & H & Hev).
  eexists _, _, sd'. split; [|split; [|exact Hev]].
  - unfold bind at 1. unfold get at 1. cbn [snd fst].
    fold payload.
    erewrite bind_Ok; [reflexivity|].
    unfold on_target. apply (zoom_Ok fst (fun sd0 st0 => (sd0, snd st0))). exact H.
  - reflexivity.
Qed.

Lemma execute_attack_defense_type pattern st e p' st' :
  execute_attack pattern st = (Ok (e, p'), st') ->
  AttackPattern.defense_type p' = AttackPattern.defense_type pattern.
Proof.
  unfold execute_attack. unfold bind at 1. unfold get at 1.
  unfold bind. destruct (on_target _ _) as [[r|msg] st1]; [|done].
  unfold ret. by intros [= _ <- _].
Qed.

Lemma count_if_cons {A} (f : A -> bool) x l :
  count_if f (x :: l) = (if f x then 1 else 0) + count_if f l.
Proof. unfold count_if. simpl. destruct (f x); simpl length; lia. Qed.

Lemma execute_patterns_Ok patterns (st : ExecutorStore) :
  exists exploits patterns' sd',
    execute_patterns patterns st
    = (Ok (exploits, count_if Exploit.blocked exploits, patterns'), (sd', snd st)) /\
    Exploit.vector <$> exploits = AttackPattern.defense_type <$> patterns /\
    AttackPattern.defense_type <$> patterns' = AttackPattern.defense_type <$> patterns /\
    seed_evolves (fst st) sd'.
Proof.
  revert st. induction patterns as [|pattern rest IH]; intros st.
  - exists [], [], (fst st). destruct st. repeat split. apply seed_evolves_refl.
  - destruct (execute_attack_Ok pattern st) as (e & p' & sd1 & H1 & Hv & Hev1).
    destruct (IH (sd1, snd st)) as (es & ps & sd2 & H2 & Hvs & Hts & Hev2).
    exists (e :: es), (p' :: ps), sd2. split; [|split; [|split]].
    + cbn [execute_patterns]. erewrite bind_Ok by exact H1.
      erewrite bind_Ok by exact H2. cbn [fst snd]. unfold ret.
      by rewrite count_if_cons.
    + rewrite !fmap_cons. by rewrite Hv, Hvs.
    + rewrite !fmap_cons.
      by rewrite (execute_attack_defense_type _ _ _ _ _ H1), Hts.
    + by eapply seed_evolves_trans.
Qed.

Lemma execute_suite_Ok (st : ExecutorStore) :
  exists exploits patterns' sd',
    execute_suite st
    = (Ok (exploits, count_if Exploit.blocked exploits, Z.of_nat (length exploits)),
       (sd', set_attack_patterns patterns' (snd st))) /\
    Exploit.vector <$> exploits = AttackPattern.defense_type <$> attack_patterns (snd st) /\
    AttackPattern.defense_type <$> patterns'
    = AttackPattern.defense_type <$> attack_patterns (snd st) /\
    seed_evolves (fst st) sd'.
Proof.
  destruct (execute_patterns_Ok (attack_patterns (snd st)) st)
    as (es & ps & sd' & H & Hv & Hts & Hev).
  exists es, ps, sd'. split; [|done].
  unfold execute_suite. unfold bind at 1. unfold get at 1.
  erewrite bind_Ok by exact H. reflexivity.
Qed.

(** ** analyze_results *)

Lemma count_if_bounds {A} (f : A -> bool) l :
  0 <= count_if f l <= Z.of_nat (length l).
Proof.
  induction l as [|x l IH]; [unfold count_if; simpl; lia|].
  rewrite count_if_cons. simpl length. destruct (f x); lia.
Qed.

Lemma count_if_all {A} (f : A -> bool) l :
  count_if f l = Z.of_nat (length l) <-> forallb f l = true.
Proof.
  induction l as [|x l IH]; [by unfold count_if|].
  rewrite count_if_cons. simpl. pose proof (count_if_bounds f l).
  destruct (f x); simpl.
  - rewrite <- IH. lia.
  - split; [lia|discriminate].
Qed.

Lemma record_failure_nonempty e groups : record_failure e groups <> [].
Proof.
  destruct groups as [|[defense_name failed] rest]; simpl; [done|].
  by destruct (String.eqb _ _).
Qed.

Lemma failures_fold_empty exploits groups :
  fold_left (fun groups e => if Exploit.blocked e then groups else record_failure e groups)
            exploits groups = []
  <-> groups = [] /\ forallb Exploit.blocked exploits = true.
Proof.
  revert groups. induction exploits as [|e exploits IH]; intros groups; simpl.
  - tauto.
  - rewrite IH. destruct (Exploit.blocked e); simpl; [tauto|].
    split; [|intros [_ [=]]].
    intros [H _]. by apply record_failure_nonempty in H.
Qed.

(** There is an issue exactly when some attack was not blocked. *)
Lemma analyze_results_empty exploits :
  analyze_results exploits = [] <-> forallb Exploit.blocked exploits = true.
Proof.
  unfold analyze_results, failures_by_defense.
  split.
  - intros H. apply map_eq_nil in H. apply failures_fold_empty in H. tauto.
  - intros H. assert (E : fold_left
      (fun groups e => if Exploit.blocked e then groups else record_failure e groups)
      exploits [] = []) by (apply failures_fold_empty; tauto).
    by rewrite E.
Qed.

Lemma fitness_of_bounds blocked total :
  0 <= blocked <= total -> (0 <= fitness_of blocked total <= 100)%Q.
Proof.
  intros H. unfold fitness_of. destruct (0 <? total) eqn:E; [|split; discriminate].
  apply Z.ltb_lt in E. destruct total as [|t|t]; try lia.
  unfold Qle, Qdiv, Qmult, Qinv, inject_Z; simpl. split; nia.
Qed.

(** ** _apply_defensive_adaptations *)

Lemma get_snapshot_lookup (fw : DefenseFramework) d :
  get_snapshot fw !! value d = snapshot_entry <$> fw !! d.
Proof.
  unfold get_snapshot.
  rewrite (lookup_kmap (M1 := gmap DefenseType) (M2 := gmap string) value).
  apply lookup_fmap.
Qed.

Lemma strengthen_failed_Ok failed s :
  exists fixes s', strengthen_failed failed s = (Ok fixes, s') /\ seed_evolves s s'.
Proof.
  revert s. induction failed as [|d rest IH]; intros s.
  - exists [], s. split; [done|apply seed_evolves_refl].
  - destruct (IH (set_defense_framework
                    (alter (update_config (config_strengthen 2)) d (defense_framework s)) s))
      as (fixes & s' & H & Hev).
    exists (Strengthened d :: fixes), s'. split.
    + cbn [strengthen_failed]. erewrite bind_Ok by apply strengthen_defense_alter.
      erewrite bind_Ok by exact H. reflexivity.
    + eapply seed_evolves_trans; [apply seed_evolves_alter|exact Hev].
Qed.

Lemma activate_complementary_Ok complementaries s :
  Forall (fun c => is_Some (defense_framework s !! c)) complementaries ->
  exists fixes s', activate_complementary complementaries s = (Ok fixes, s') /\
                   seed_evolves s s'.
Proof.
  revert s. induction complementaries as [|c rest IH]; intros s Hreg.
  - exists [], s. split; [done|apply seed_evolves_refl].
  - apply Forall_cons in Hreg as [[m Hm] Hrest].
    cbn [activate_complementary]. unfold get_defense_snapshot.
    unfold bind at 1. unfold bind at 1. unfold get at 1. unfold ret at 1.
    rewrite get_snapshot_lookup, Hm. cbn [fmap option_fmap option_map].
    destruct (snap_active (snapshot_entry m)); cbn [negb].
    + destruct (IH s Hrest) as (fixes & s' & H & Hev).
      exists ([] ++ fixes), s'. split; [|done].
      unfold bind at 1. unfold ret at 1. erewrite bind_Ok by exact H. reflexivity.
    + set (s1 := set_defense_framework
                   (alter (update_config (set_active true)) c (defense_framework s)) s).
      assert (Hev1 : seed_evolves s s1) by apply seed_evolves_alter.
      destruct (IH s1) as (fixes & s' & H & Hev).
      { eapply Forall_impl; [exact Hrest|]. intros c' Hc'.
        by eapply seed_evolves_registered. }
      exists ([ActivatedComplementary c] ++ fixes), s'. split.
      * erewrite bind_Ok; [|erewrite bind_Ok by apply activate_defense_alter; reflexivity].
        fold s1. erewrite bind_Ok by exact H. reflexivity.
      * by eapply seed_evolves_trans.
Qed.

Lemma strategy2_safe_evolves failed s s' :
  seed_evolves s s' -> strategy2_safe failed (defense_framework s) ->
  strategy2_safe failed (defense_framework s').
Proof.
  intros Hev Hsafe d cs Hd Hcs. eapply Forall_impl; [by eapply Hsafe|].
  intros c Hc. by eapply seed_evolves_registered.
Qed.

Lemma activate_related_Ok failed s :
  strategy2_safe failed (defense_framework s) ->
  exists fixes s', activate_related failed s = (Ok fixes, s') /\ seed_evolves s s'.
Proof.
  revert s. induction failed as [|d rest IH]; intros s Hsafe.
  - exists [], s. split; [done|apply seed_evolves_refl].
  - assert (exists fixes1 s1,
              match defense_relationships d with
              | Some complementaries => activate_complementary complementaries
              | None => ret []
              end s = (Ok fixes1, s1) /\ seed_evolves s s1)
      as (fixes1 & s1 & H1 & Hev1).
    { destruct (defense_relationships d) as [cs|] eqn:Hcs.
      - apply activate_complementary_Ok. eapply Hsafe; [|exact Hcs]. by left.
      - exists [], s. split; [done|apply seed_evolves_refl]. }
    destruct (IH s1) as (fixes & s' & H & Hev).
    { apply (strategy2_safe_evolves _ s); [done|].
      intros d' cs Hd'. apply Hsafe. by right. }
    exists (fixes1 ++ fixes), s'. split.
    + cbn [activate_related]. erewrite bind_Ok by exact H1.
      erewrite bind_Ok by exact H. reflexivity.
    + by eapply seed_evolves_trans.
Qed.

Lemma keeps_registered_alter_each f ds (fw : DefenseFramework) :
  keeps_registered fw (alter_each f ds fw).
Proof.
  revert fw. induction ds as [|d ds IH]; intros fw; [apply keeps_registered_refl|].
  simpl. eapply keeps_registered_trans; [apply keeps_registered_alter|apply IH].
Qed.

Lemma _apply_defensive_adaptations_Ok issues exploits s :
  strategy2_safe (failed_defenses exploits) (defense_framework s) ->
  exists fixes s',
    _apply_defensive_adaptations issues exploits s = (Ok fixes, s') /\
    seed_evolves s s'.
Proof.
  intros Hsafe. unfold _apply_defensive_adaptations.
  destruct (strengthen_failed_Ok (failed_defenses exploits) s) as (f1 & s1 & H1 & Hev1).
  destruct (activate_related_Ok (failed_defenses exploits) s1) as (f2 & s2 & H2 & Hev2).
  { by apply (strategy2_safe_evolves _ s). }
  erewrite bind_Ok by exact H1. erewrite bind_Ok by exact H2.
  destruct (Qltb _ 50).
  - eexists _, _. split.
    + erewrite bind_Ok;
        [|erewrite bind_Ok by apply emergency_activation_alter; reflexivity].
      reflexivity.
    + eapply seed_evolves_trans; [exact Hev1|].
      eapply seed_evolves_trans; [exact Hev2|].
      eexists. split; [done|]. apply keeps_registered_alter_each.
  - eexists _, _. split; [reflexivity|]. by eapply seed_evolves_trans.
Qed.

(** ** EvolutionOrchestrator.run_generation *)

Lemma adapt_pattern_defense_type p :
  AttackPattern.defense_type (fst (adapt_pattern p)) = AttackPattern.defense_type p.
Proof.
  unfold adapt_pattern, _mutate_payload.
  destruct (Qltb (6 # 10) _); [done|].
  destruct (_ && _); [|done].
  destruct (AttackPattern.defense_type p) eqn:E; simpl; by rewrite ?E.
Qed.

Lemma adapt_all_defense_types patterns :
  AttackPattern.defense_type <$> fst (adapt_all patterns)
  = AttackPattern.defense_type <$> patterns.
Proof.
  induction patterns as [|p rest IH]; [done|].
  cbn [adapt_all]. pose proof (adapt_pattern_defense_type p) as Hp.
  destruct (adapt_pattern p) as [p' a]. destruct (adapt_all rest) as [ps more].
  cbn [fst] in *. rewrite !fmap_cons. by rewrite Hp, IH.
Qed.

Lemma adapt_patterns_Ok exploits (st : RedTeamExecutor * RedTeamAdaptationEngine) :
  adapt_patterns exploits st
  = (Ok (snd (adapt_all (attack_patterns (fst st)))),
     (set_attack_patterns (fst (adapt_all (attack_patterns (fst st)))) (fst st),
      mkEngine (adaptation_history (snd st)
                  ++ snd (adapt_all (attack_patterns (fst st)))))).
Proof.
  unfold adapt_patterns. unfold bind at 1. unfold get at 1.
  by destruct (adapt_all (attack_patterns (fst st))).
Qed.

Lemma failed_defenses_targets exploits d :
  d ∈ failed_defenses exploits -> d ∈ Exploit.vector <$> exploits.
Proof.
  unfold failed_defenses. rewrite elem_of_remove_dups, !list_elem_of_fmap.
  intros (e & -> & He). exists e. split; [done|].
  apply list_elem_of_In in He. apply filter_In in He as [He _].
  by apply list_elem_of_In.
Qed.

Lemma run_generation_Ok gen o :
  patterns_safe o ->
  exists report o',
    run_generation gen o = (Ok report, o') /\
    GenerationReport.attacks_total report
    = Z.of_nat (length (attack_patterns (red_team o))) /\
    GenerationReport.attacks_total report
    = Z.of_nat (length (GenerationReport.exploits report)) /\
    GenerationReport.attacks_blocked report
    = count_if Exploit.blocked (GenerationReport.exploits report) /\
    GenerationReport.fitness_score report
    = fitness_of (GenerationReport.attacks_blocked report)
                 (GenerationReport.attacks_total report) /\
    GenerationReport.issues report = analyze_results (GenerationReport.exploits report) /\
    patterns_safe o' /\
    length (attack_patterns (red_team o')) = length (attack_patterns (red_team o)).
Proof.
  intros Hsafe. destruct o as [sd rt eng mc mg elog cic].
  unfold patterns_safe in Hsafe. cbn [seed red_team] in Hsafe.
  unfold run_generation.
  erewrite bind_Ok by reflexivity. cbn [fst snd seed red_team adaptation_engine
    metrics_collector max_generations evolution_log code_iteration_count].
  destruct (execute_suite_Ok (sd, set_generation_number gen rt))
    as (exploits & ps & sd1 & Hsuite & Hvec & Hpat & Hev1).
  cbn [snd fst attack_patterns set_generation_number] in *.
  erewrite bind_Ok; [|unfold on_red_team; eapply (zoom_Ok _ _ execute_suite);
                      cbn [seed red_team]; exact Hsuite].
  cbn [fst snd seed red_team adaptation_engine metrics_collector max_generations
       evolution_log code_iteration_count].
  destruct (_apply_defensive_adaptations_Ok (analyze_results exploits) exploits sd1)
    as (fixes & sd2 & Hfix & Hev2).
  { apply (strategy2_safe_evolves _ sd); [done|].
    intros d cs Hd. apply failed_defenses_targets in Hd. rewrite Hvec in Hd.
    by apply Hsafe. }
  erewrite bind_Ok; [|unfold on_seed; eapply (zoom_Ok seed); cbn [seed]; exact Hfix].
  erewrite bind_Ok by reflexivity.
  erewrite bind_Ok;
    [|unfold on_adaptation_engine; eapply (zoom_Ok _ _ (adapt_patterns exploits));
      apply adapt_patterns_Ok].
  cbn [fst snd seed red_team adaptation_engine metrics_collector max_generations
       evolution_log code_iteration_count attack_patterns set_attack_patterns].
  erewrite bind_Ok by reflexivity.
  erewrite bind_Ok by reflexivity.
  erewrite bind_Ok by reflexivity.
  unfold ret. eexists _, _. split; [reflexivity|].
  pose proof (adapt_all_defense_types ps) as Hts.
  cbn [GenerationReport.attacks_total GenerationReport.exploits
       GenerationReport.attacks_blocked GenerationReport.fitness_score
       GenerationReport.issues].
  split; [|split; [done|split; [done|split; [done|split; [done|split]]]]].
  - by rewrite <- (length_fmap Exploit.vector exploits), Hvec, length_fmap.
  - unfold patterns_safe. cbn. rewrite Hts, Hpat.
    apply (strategy2_safe_evolves _ sd); [|done].
    by eapply seed_evolves_trans.
  - cbn. by rewrite <- (length_fmap AttackPattern.defense_type (fst _)), Hts, Hpat,
                  length_fmap.
Qed.

Lemma run_generations_loop_Ok gens o :
  patterns_safe o ->
  exists o',
    for_each gens (fun gen => _ <- run_generation gen ;; ret tt) o = (Ok tt, o') /\
    patterns_safe o' /\
    length (attack_patterns (red_team o')) = length (attack_patterns (red_team o)).
Proof.
  revert o. induction gens as [|gen rest IH]; intros o Hsafe.
  - by exists o.
  - destruct (run_generation_Ok gen o Hsafe)
      as (report & o1 & H1 & _ & _ & _ & _ & _ & Hsafe1 & Hlen1).
    destruct (IH o1 Hsafe1) as (o' & H & Hsafe' & Hlen).
    exists o'. split; [|split; [done|congruence]].
    cbn [for_each].
    erewrite bind_Ok; [exact H|]. by erewrite bind_Ok by exact H1.
Qed.

Lemma complementaries_strategy2_safe failed (fw : DefenseFramework) :
  complementaries_registered fw -> strategy2_safe failed fw.
Proof.
  unfold complementaries_registered, complementary_targets.
  intros Hreg d cs _ Hcs. rewrite !Forall_cons in Hreg.
  destruct Hreg as (Hs & Hb & Hc & Hp & Hr & _).
  destruct d; simpl in Hcs; try discriminate; injection Hcs as <-;
    repeat constructor; assumption.
Qed.

Lemma fresh_registry_complementaries cfg :
  complementaries_registered (_initialize_defenses cfg).
Proof.
  unfold complementaries_registered, complementary_targets.
  repeat constructor; rewrite fresh_registry_lookup; by eexists.
Qed.

Lemma fresh_orchestrator_safe cfg max_gen : patterns_safe (fresh_orchestrator cfg max_gen).
Proof. apply complementaries_strategy2_safe, fresh_registry_complementaries. Qed.

(** What every report of [run_generation] satisfies. *)
Lemma report_consistent gen o report o' :
  patterns_safe o -> run_generation gen o = (Ok report, o') ->
  (0 <= GenerationReport.fitness_score report <= 100)%Q /\
  0 <= GenerationReport.attacks_blocked report
    <= GenerationReport.attacks_total report /\
  (GenerationReport.issues report <> []
   <-> GenerationReport.attacks_blocked report < GenerationReport.attacks_total report).
Proof.
  intros Hsafe Hrun.
  destruct (run_generation_Ok gen o Hsafe)
    as (report' & o1 & H1 & _ & Htotal & Hblocked & Hfit & Hissues & _).
  rewrite Hrun in H1. injection H1 as <- <-.
  pose proof (count_if_bounds Exploit.blocked (GenerationReport.exploits report)) as Hb.
  rewrite <- Hblocked, <- Htotal in Hb.
  split; [|split; [exact Hb|]].
  - rewrite Hfit. by apply fitness_of_bounds.
  - rewrite Hissues, Hblocked, Htotal.
    pose proof (analyze_results_empty (GenerationReport.exploits report)) as He.
    pose proof (count_if_all Exploit.blocked (GenerationReport.exploits report)) as Ha.
    rewrite <- Hblocked, <- Htotal in *.
    split.
    + intros Hne. destruct (decide (GenerationReport.attacks_blocked report
                                    = GenerationReport.attacks_total report)) as [E|E];
        [|lia]. exfalso. apply Hne. apply He. by apply Ha.
    + intros Hlt Hnil. apply He, Ha in Hnil. lia.
Qed.

(** C4: on a freshly initialised orchestrator, under any configuration, the
    generation run after any number [n] of earlier generations completes
    with a report whose [attacks_total] is the number N of active patterns,
    with [0 <= fitness_score <= 100] and [attacks_blocked <= attacks_total],
    and whose [issues] are non-empty exactly when
    [attacks_blocked < attacks_total]. *)
Theorem generation_report_consistent (cfg : Config.SystemConfig) (max_gen : Z)
    (n gen : Z) :
  exists o report o',
    run_generations n (fresh_orchestrator cfg max_gen) = (Ok tt, o) /\
    run_generation gen o = (Ok report, o') /\
    GenerationReport.attacks_total report
    = Z.of_nat (length (_initialize_patterns (Config.attack cfg))) /\
    (0 <= GenerationReport.fitness_score report <= 100)%Q /\
    0 <= GenerationReport.attacks_blocked report
      <= GenerationReport.attacks_total report /\
    (GenerationReport.issues report <> []
     <-> GenerationReport.attacks_blocked report < GenerationReport.attacks_total report).
Proof.
  destruct (run_generations_loop_Ok (range n) _ (fresh_orchestrator_safe cfg max_gen))
    as (o & Hrun & Hsafe & Hlen).
  destruct (run_generation_Ok gen o Hsafe) as (report & o' & H & Htotal & _).
  exists o, report, o'. split; [exact Hrun|]. split; [exact H|].
  split; [by rewrite Htotal, Hlen|].
  by apply (report_consistent gen o report o').
Qed.

(** C10: with no active pattern [run_generation] still completes, and its
    report has [attacks_total = 0] and [fitness_score = 0]; and the
    [success_rate] of any report with [attacks_total = 0] is 0. *)
Theorem empty_pattern_set_generation (o : EvolutionOrchestrator) (gen : Z) :
  attack_patterns (red_team o) = [] ->
  (exists report o',
     run_generation gen o = (Ok report, o') /\
     GenerationReport.attacks_total report = 0 /\
     GenerationReport.fitness_score report = 0%Q /\
     GenerationReport.success_rate report = 0%Q) /\
  (forall r, GenerationReport.attacks_total r = 0 -> GenerationReport.success_rate r = 0%Q).
Proof.
  intros Hempty. split.
  - assert (Hsafe : patterns_safe o).
    { unfold patterns_safe. rewrite Hempty. intros d cs Hd.
      by apply elem_of_nil in Hd. }
    destruct (run_generation_Ok gen o Hsafe)
      as (report & o' & H & Htotal & _ & _ & Hfit & _).
    rewrite Hempty in Htotal. simpl in Htotal.
    exists report, o'. split; [exact H|]. split; [exact Htotal|].
    split.
    + rewrite Hfit, Htotal. reflexivity.
    + unfold GenerationReport.success_rate. by rewrite Htotal.
  - intros r Hr. unfold GenerationReport.success_rate. by rewrite Hr.
Qed.

Lemma empty_pattern_set_generation_witness :
  let cfg := {| Config.defense := Config.defense Config.default;
                Config.attack := {| Config.initial_population_size := 0;
                                    Config.mutation_rate := 1 # 2;
                                    Config.crossover_rate := 7 # 10;
                                    Config.max_parameter_value := 10000 |} |} in
  exists report o',
    run_generation 0 (fresh_orchestrator cfg 10) = (Ok report, o') /\
    GenerationReport.attacks_total report = 0 /\
    GenerationReport.fitness_score report = 0%Q /\
    GenerationReport.success_rate report = 0%Q.
Proof.
  intros cfg.
  apply (proj1 (empty_pattern_set_generation (fresh_orchestrator cfg 10) 0 eq_refl)).
Defined.

(** ** Strengthening scenario *)

Lemma outcome_pair {A S} (x : outcome A * S) a : fst x = Ok a -> x = (Ok a, snd x).
Proof. destruct x as [r s]. simpl. by intros ->. Qed.

Lemma population_cases (cfg : Config.AttackConfig) :
  exists k, (k <= 9)%nat /\ _initialize_patterns cfg = take k pattern_catalog.
Proof.
  unfold _initialize_patterns. eexists. split; [|reflexivity].
  change (length pattern_catalog) with 9%nat. lia.
Qed.

(** C5: on a fresh seed with the default defense configuration and the
    first [k] catalog patterns active (the default population is 6), a
    first [execute_suite] blocks [blocked1] attacks; after every
    [DefenseType] is strengthened by 5 a second one blocks [blocked2], and
    [blocked2 >= blocked1]: both times every active pattern is blocked. *)
Theorem strengthening_keeps_blocked_count (attack_cfg : Config.AttackConfig) :
  let cfg := {| Config.defense := Config.defense Config.default;
                Config.attack := attack_cfg |} in
  exists blocked1 blocked2 st',
    test_defense_strengthening_effect
      (new_EvolvableSeed "TestSeed" cfg, new_RedTeamExecutor attack_cfg)
    = (Ok (blocked1, blocked2), st') /\
    blocked1 = Z.of_nat (length (_initialize_patterns attack_cfg)) /\
    blocked2 >= blocked1.
Proof.
  intros cfg. unfold new_RedTeamExecutor.
  destruct (population_cases attack_cfg) as (k & Hk & ->).
  exists (Z.of_nat (length (take k pattern_catalog))),
         (Z.of_nat (length (take k pattern_catalog))).
  eexists. split; [|split; [reflexivity|lia]].
  apply outcome_pair. subst cfg.
  do 10 (destruct k as [|k]; [vm_compute; reflexivity|]). lia.
Qed.

(** ** run_evolution_cycle: stagnation and breakthrough *)


















(** ** The embedding on the concrete scenarios of the test suite *)

Example input_validation_null :
  fst (execute VNone (InputValidationDefense (new_DefenseConfig INPUT_VALIDATION true 2)))
  = Ok (true, "Rejected: null value").
Proof. reflexivity. Qed.

Example input_validation_hello :
  fst (execute (VStr "hello")
         (InputValidationDefense (new_DefenseConfig INPUT_VALIDATION true 2)))
  = Ok (false, "Passed validation").
Proof. reflexivity. Qed.

Example bounds_enforcement_long_string :
  fst (execute (VStr (str_repeat "A" 200))
         (BoundsEnforcementDefense (new_DefenseConfig BOUNDS_ENFORCEMENT true 1)))
  = Ok (true, "Rejected: string too long (200 > 23)").
Proof. vm_compute. reflexivity. Qed.

Example bounds_enforcement_short_string :
  fst (execute (VStr (str_repeat "A" 20))
         (BoundsEnforcementDefense (new_DefenseConfig BOUNDS_ENFORCEMENT true 1)))
  = Ok (false, "Passed bounds check").
Proof. vm_compute. reflexivity. Qed.

Example sanitization_sql :
  fst (execute (VStr "'; DROP TABLE--")
         (SanitizationDefense (new_DefenseConfig SANITIZATION true 1)))
  = Ok (true, "Rejected: dangerous pattern '''").
Proof. vm_compute. reflexivity. Qed.

Example sanitization_angle_brackets :
  fst (execute (VStr "<script>")
         (SanitizationDefense (new_DefenseConfig SANITIZATION true 7)))
  = Ok (false, "Passed sanitization") /\
  fst (execute (VStr "<script>")
         (SanitizationDefense (new_DefenseConfig SANITIZATION true 8)))
  = Ok (true, "Rejected: dangerous pattern '<'").
Proof. split; vm_compute; reflexivity. Qed.

Example state_protection_code_injection :
  str AttackPatternLibrary.code_injection
  = Ok ("{'eval': " +:+ str1 dquote +:+ "exec('malicious_code')" +:+ str1 dquote
          +:+ ", '__builtins__': 'override'}") /\
  fst (execute AttackPatternLibrary.code_injection
         (StateProtectionDefense (new_DefenseConfig STATE_PROTECTION true 1)))
  = Ok (true, "Rejected: code injection attempt").
Proof. split; vm_compute; reflexivity. Qed.

Example rate_limiting_resets :
  let m := RateLimitingDefense (new_DefenseConfig RATE_LIMITING true 5) 10 in
  execute VNone m
  = (Ok (true, "Rejected: rate limit exceeded"),
     RateLimitingDefense (trigger true (new_DefenseConfig RATE_LIMITING true 5)) 0).
Proof. reflexivity. Qed.

(** On the default configuration the first generation blocks all six
    attacks, so the cycle stops at generation 0. *)
Example default_cycle_stops_at_once :
  fst (run_evolution_cycle (fresh_orchestrator Config.default 10))
  = Ok [PerfectDefense 0].
Proof. vm_compute. reflexivity. Qed.

(* ===================================================================== *)
(** * Further properties                                                  *)
(* ===================================================================== *)

(** ** Rules for [triple] *)

Lemma triple_ret {S A} (pre : S -> Prop) (a : A) (post : A -> S -> Prop) epost :
  (forall s, pre s -> post a s) -> triple pre (ret a) post epost.
Proof. intros H s r s' Hpre [= <- <-]. by apply H. Qed.

Lemma triple_raise {S A} (pre : S -> Prop) msg (post : A -> S -> Prop) (epost : S -> Prop) :
  (forall s, pre s -> epost s) -> triple pre (raise msg) post epost.
Proof. intros H s r s' Hpre [= <- <-]. by apply H. Qed.

Lemma triple_get {S} (pre : S -> Prop) (post : S -> S -> Prop) epost :
  (forall s, pre s -> post s s) -> triple pre get post epost.
Proof. intros H s r s' Hpre [= <- <-]. by apply H. Qed.

Lemma triple_modify {S} (pre : S -> Prop) (f : S -> S) (post : unit -> S -> Prop) epost :
  (forall s, pre s -> post tt (f s)) -> triple pre (modify f) post epost.
Proof. intros H s r s' Hpre [= <- <-]. by apply H. Qed.

Lemma triple_put {S} (pre : S -> Prop) (s0 : S) (post : unit -> S -> Prop) epost :
  (forall s, pre s -> post tt s0) -> triple pre (put s0) post epost.
Proof. intros H s r s' Hpre [= <- <-]. by eapply H. Qed.

Lemma triple_bind {S A B} (pre : S -> Prop) (m : Py S A) (k : A -> Py S B)
    (mid : A -> S -> Prop) (post : B -> S -> Prop) (epost : S -> Prop) :
  triple pre m mid epost ->
  (forall a, triple (mid a) (k a) post epost) ->
  triple pre (bind m k) post epost.
Proof.
  intros Hm Hk s r s' Hpre. unfold bind.
  destruct (m s) as [[a|e] s1] eqn:E; specialize (Hm s _ _ Hpre E); simpl in Hm.
  - intros Hka. by apply (Hk a s1).
  - by intros [= <- <-].
Qed.

Lemma triple_try_except {S A} (pre : S -> Prop) (m : Py S A) (h : string -> Py S A)
    (post : A -> S -> Prop) (mid epost : S -> Prop) :
  triple pre m post mid ->
  (forall e, triple mid (h e) post epost) ->
  triple pre (try_except m h) post epost.
Proof.
  intros Hm Hh s r s' Hpre. unfold try_except.
  destruct (m s) as [[a|e] s1] eqn:E; specialize (Hm s _ _ Hpre E); simpl in Hm.
  - by intros [= <- <-].
  - intros Hhe. by apply (Hh e s1).
Qed.

Lemma triple_zoom {S T A} (proj : S -> T) (upd : T -> S -> S) (m : Py T A)
    (pre : S -> Prop) (post : A -> S -> Prop) (epost : S -> Prop) :
  (forall s0, pre s0 ->
     triple (fun t => t = proj s0) m
       (fun a t => post a (upd t s0)) (fun t => epost (upd t s0))) ->
  triple pre (zoom proj upd m) post epost.
Proof.
  intros H s r s' Hpre. unfold zoom.
  destruct (m (proj s)) as [r0 t] eqn:E. intros [= <- <-].
  exact (H s Hpre (proj s) r0 t eq_refl E).
Qed.

Lemma triple_weaken {S A} (pre pre' : S -> Prop) (m : Py S A)
    (post post' : A -> S -> Prop) (epost epost' : S -> Prop) :
  triple pre' m post' epost' ->
  (forall s, pre s -> pre' s) ->
  (forall a s, post' a s -> post a s) ->
  (forall s, epost' s -> epost s) ->
  triple pre m post epost.
Proof.
  intros H Hpre Hpost Hepost s r s' Hs E. specialize (H s r s' (Hpre s Hs) E).
  destruct r; auto.
Qed.

Lemma preserves_zoom {S T A} (proj : S -> T) (upd : T -> S -> S) (m : Py T A)
    (I : S -> Prop) (J : T -> Prop) :
  (forall s, I s -> J (proj s)) ->
  (forall s t, I s -> J t -> I (upd t s)) ->
  preserves J m -> preserves I (zoom proj upd m).
Proof.
  intros Hproj Hupd Hm. apply triple_zoom. intros s0 Hs0 t r t' -> E.
  specialize (Hm (proj s0) r t' (Hproj _ Hs0) E). destruct r; by apply Hupd.
Qed.

Lemma preserves_bind {S A B} (I : S -> Prop) (m : Py S A) (k : A -> Py S B) :
  preserves I m -> (forall a, preserves I (k a)) -> preserves I (bind m k).
Proof. intros Hm Hk. by eapply triple_bind. Qed.

Lemma preserves_ret {S A} (I : S -> Prop) (a : A) : preserves I (ret a).
Proof. by apply triple_ret. Qed.

Lemma preserves_raise {S A} (I : S -> Prop) msg : preserves I (raise msg : Py S A).
Proof. by apply triple_raise. Qed.

Lemma preserves_get {S} (I : S -> Prop) : preserves I get.
Proof. by apply triple_get. Qed.

Lemma preserves_modify {S} (I : S -> Prop) (f : S -> S) :
  (forall s, I s -> I (f s)) -> preserves I (modify f).
Proof. intros H. by apply triple_modify. Qed.

Lemma preserves_for_each {S A} (I : S -> Prop) (xs : list A) (body : A -> Py S unit) :
  (forall x, preserves I (body x)) -> preserves I (for_each xs body).
Proof.
  intros H. induction xs as [|x xs IH]; simpl.
  - apply preserves_ret.
  - apply preserves_bind; [apply H|]. intros _. exact IH.
Qed.

Lemma preserves_eq {S A} (I : S -> Prop) (m : Py S A) r s' :
  (forall s, m s = (r, s' s)) -> (forall s, I s -> I (s' s)) -> preserves I m.
Proof.
  intros Hm HI s r0 s0 Hs E. rewrite Hm in E. injection E as <- <-.
  destruct r; by apply HI.
Qed.

Create HintDb preserve.
#[local] Hint Resolve preserves_ret preserves_raise preserves_get : preserve.

Lemma preserves_zoom_frame {S T A} (proj : S -> T) (upd : T -> S -> S) (m : Py T A)
    (I : S -> Prop) :
  (forall s t, I s -> I (upd t s)) -> preserves I (zoom proj upd m).
Proof.
  intros H. apply (preserves_zoom proj upd m I (fun _ => True)); [done|auto|].
  intros t r t' _ _. by destruct r.
Qed.

(** ** Invariants of the registry through a whole run *)

Lemma registry_all_insert P (fw : DefenseFramework) d m :
  registry_all P fw -> P m -> registry_all P (<[d := m]> fw).
Proof.
  intros Hfw Hm d' m'. rewrite lookup_insert. case_decide.
  - by intros [= <-].
  - apply Hfw.
Qed.

Lemma registry_all_alter P (f : DefenseMechanism -> DefenseMechanism)
    (fw : DefenseFramework) d :
  (forall m, P m -> P (f m)) -> registry_all P fw -> registry_all P (alter f d fw).
Proof.
  intros Hf Hfw d' m'. rewrite lookup_alter. case_decide; [subst|apply Hfw].
  destruct (fw !! d') as [m|] eqn:E; simpl; [|done].
  intros [= <-]. apply Hf. by eapply Hfw.
Qed.

Section RegistryInvariant.

(** A property of mechanisms that evaluation, trigger recording, activation
    and strengthening by a non-negative amount keep. *)
Variable P : DefenseMechanism -> Prop.
Hypothesis P_evaluate : forall v m r m', P m -> evaluate v m = (r, m') -> P m'.
Hypothesis P_trigger : forall b m, P m -> P (update_config (trigger b) m).
Hypothesis P_activate : forall m, P m -> P (update_config (set_active true) m).
Hypothesis P_strengthen :
  forall amount m, 0 <= amount -> P m -> P (update_config (config_strengthen amount) m).

Let seed_ok (s : EvolvableSeed) : Prop := registry_all P (defense_framework s).
Let store_ok (st : ExecutorStore) : Prop := seed_ok (fst st).
Let orchestrator_ok (o : EvolutionOrchestrator) : Prop := seed_ok (seed o).

Lemma apply_defense_keeps d v : preserves (registry_all P) (apply_defense d v).
Proof.
  intros fw r fw' Hfw E.
  assert (registry_all P fw'); [|by destruct r].
  destruct (fw !! d) as [defense|] eqn:Hd.
  - destruct (active (config defense)) eqn:Ha.
    + destruct (evaluate v defense) as [[[b reason]|e] m1] eqn:He.
      * rewrite (apply_defense_evaluated _ _ _ _ _ _ _ Hd Ha He) in E.
        injection E as <- <-. apply registry_all_insert; [done|].
        apply P_trigger. eapply P_evaluate; [by eapply Hfw|exact He].
      * rewrite (apply_defense_fault _ _ _ _ _ _ Hd Ha He) in E.
        injection E as <- <-. apply registry_all_insert; [done|].
        eapply P_evaluate; [by eapply Hfw|exact He].
    + rewrite (apply_defense_inactive _ _ _ _ Hd Ha) in E. by injection E as <- <-.
  - rewrite (apply_defense_not_found _ _ _ Hd) in E. by injection E as <- <-.
Qed.

Lemma test_defense_keeps d v : preserves seed_ok (test_defense d v).
Proof.
  apply (preserves_zoom _ _ _ seed_ok (registry_all P)); [done|done|].
  apply apply_defense_keeps.
Qed.

Lemma activate_defense_keeps d : preserves seed_ok (activate_defense d).
Proof.
  eapply preserves_eq; [apply activate_defense_alter|].
  intros s Hs. by apply registry_all_alter.
Qed.

Lemma strengthen_defense_keeps d amount :
  0 <= amount -> preserves seed_ok (strengthen_defense d (Some amount)).
Proof.
  intros Ha. eapply preserves_eq; [apply strengthen_defense_alter|].
  intros s Hs. apply registry_all_alter; [|done]. intros m. by apply P_strengthen.
Qed.

Lemma get_defense_snapshot_keeps (I : EvolvableSeed -> Prop) :
  preserves I get_defense_snapshot.
Proof. apply preserves_bind; [apply preserves_get|intros; apply preserves_ret]. Qed.

Lemma execute_attack_keeps pattern : preserves store_ok (execute_attack pattern).
Proof.
  unfold execute_attack. apply preserves_bind; [apply preserves_get|]. intros st.
  apply preserves_bind; [|intros; apply preserves_ret].
  apply (preserves_zoom _ _ _ store_ok seed_ok); [done|done|apply test_defense_keeps].
Qed.

Lemma execute_patterns_keeps patterns : preserves store_ok (execute_patterns patterns).
Proof.
  induction patterns as [|pattern rest IH]; simpl; [apply preserves_ret|].
  apply preserves_bind; [apply execute_attack_keeps|]. intros r.
  apply preserves_bind; [apply IH|]. intros; apply preserves_ret.
Qed.

Lemma execute_suite_keeps : preserves store_ok execute_suite.
Proof.
  unfold execute_suite. apply preserves_bind; [apply preserves_get|]. intros st.
  apply preserves_bind; [apply execute_patterns_keeps|]. intros rs.
  apply preserves_bind; [by apply preserves_modify|]. intros; apply preserves_ret.
Qed.

Lemma strengthen_failed_keeps failed : preserves seed_ok (strengthen_failed failed).
Proof.
  induction failed as [|d rest IH]; simpl; [apply preserves_ret|].
  apply preserves_bind; [by apply strengthen_defense_keeps|]. intros _.
  apply preserves_bind; [apply IH|]. intros; apply preserves_ret.
Qed.

Lemma activate_complementary_keeps cs : preserves seed_ok (activate_complementary cs).
Proof.
  induction cs as [|c rest IH]; simpl; [apply preserves_ret|].
  apply preserves_bind; [apply get_defense_snapshot_keeps|]. intros snapshot.
  destruct (snapshot !! value c) as [entry|]; [|apply preserves_raise].
  apply preserves_bind.
  - destruct (negb (snap_active entry)); [|apply preserves_ret].
    apply preserves_bind; [apply activate_defense_keeps|]. intros; apply preserves_ret.
  - intros fix1. apply preserves_bind; [apply IH|]. intros; apply preserves_ret.
Qed.

Lemma activate_related_keeps failed : preserves seed_ok (activate_related failed).
Proof.
  induction failed as [|d rest IH]; simpl; [apply preserves_ret|].
  apply preserves_bind.
  - destruct (defense_relationships d);
      [apply activate_complementary_keeps|apply preserves_ret].
  - intros fixes1. apply preserves_bind; [apply IH|]. intros; apply preserves_ret.
Qed.

Lemma _apply_defensive_adaptations_keeps issues exploits :
  preserves seed_ok (_apply_defensive_adaptations issues exploits).
Proof.
  unfold _apply_defensive_adaptations.
  apply preserves_bind; [apply strengthen_failed_keeps|]. intros fixes1.
  apply preserves_bind; [apply activate_related_keeps|]. intros fixes2.
  apply preserves_bind; [|intros; apply preserves_ret].
  destruct (Qltb _ 50); [|apply preserves_ret].
  apply preserves_bind; [|intros; apply preserves_ret].
  apply preserves_for_each. apply activate_defense_keeps.
Qed.

Lemma on_seed_keeps {A} (m : Py EvolvableSeed A) :
  preserves seed_ok m -> preserves orchestrator_ok (on_seed m).
Proof. intros H. by apply (preserves_zoom _ _ _ orchestrator_ok seed_ok). Qed.

Lemma on_red_team_keeps {A} (m : Py ExecutorStore A) :
  preserves store_ok m -> preserves orchestrator_ok (on_red_team m).
Proof. intros H. by apply (preserves_zoom _ _ _ orchestrator_ok store_ok). Qed.

Lemma run_generation_keeps gen : preserves orchestrator_ok (run_generation gen).
Proof.
  unfold run_generation.
  apply preserves_bind; [apply on_red_team_keeps; by apply preserves_modify|]. intros _.
  apply preserves_bind; [apply on_red_team_keeps, execute_suite_keeps|]. intros r.
  apply preserves_bind;
    [apply on_seed_keeps, _apply_defensive_adaptations_keeps|]. intros fixes.
  apply preserves_bind; [by apply preserves_modify|]. intros _.
  apply preserves_bind; [by apply preserves_zoom_frame|]. intros _.
  apply preserves_bind; [apply on_seed_keeps, get_defense_snapshot_keeps|].
  intros snapshot.
  apply preserves_bind; [by apply preserves_modify|]. intros _.
  apply preserves_bind; [|intros; apply preserves_ret].
  apply on_seed_keeps. by apply preserves_modify.
Qed.

Lemma _apply_breakthrough_mutations_keeps :
  preserves seed_ok _apply_breakthrough_mutations.
Proof.
  apply preserves_for_each. intros d.
  apply preserves_bind; [by apply strengthen_defense_keeps|]. intros _.
  apply activate_defense_keeps.
Qed.

Lemma cycle_body_keeps gen : preserves orchestrator_ok (cycle_body run_generation gen).
Proof.
  unfold cycle_body.
  apply preserves_bind; [apply run_generation_keeps|]. intros report.
  apply preserves_bind; [by apply preserves_zoom_frame|]. intros _.
  destruct (Qle_bool 100 _); [apply preserves_ret|].
  apply preserves_bind; [apply preserves_get|]. intros o.
  destruct (_ && _); [|apply preserves_ret].
  apply preserves_bind; [|intros; apply preserves_ret].
  apply on_seed_keeps, _apply_breakthrough_mutations_keeps.
Qed.

Lemma evolution_loop_keeps gens :
  preserves orchestrator_ok (evolution_loop run_generation gens).
Proof.
  induction gens as [|gen rest IH]; simpl; [apply preserves_ret|].
  apply preserves_bind; [apply cycle_body_keeps|]. intros r.
  destruct (fst r); [apply preserves_ret|].
  apply preserves_bind; [apply IH|]. intros; apply preserves_ret.
Qed.

Lemma print_evolution_summary_keeps (I : EvolutionOrchestrator -> Prop) :
  preserves I print_evolution_summary.
Proof.
  unfold print_evolution_summary. apply preserves_bind; [apply preserves_get|].
  intros o. destruct (evolution_log o); [apply preserves_ret|].
  destruct (last _); [|apply preserves_ret].
  destruct (_ || _); [apply preserves_raise|apply preserves_ret].
Qed.

Lemma run_evolution_cycle_keeps : preserves orchestrator_ok run_evolution_cycle.
Proof.
  unfold run_evolution_cycle, evolution_cycle.
  apply preserves_bind; [apply preserves_get|]. intros o.
  apply preserves_bind; [apply evolution_loop_keeps|]. intros events.
  apply preserves_bind; [apply print_evolution_summary_keeps|].
  intros; apply preserves_ret.
Qed.

End RegistryInvariant.

Lemma counters_consistent_evaluate v m r m' :
  counters_consistent m -> evaluate v m = (r, m') -> counters_consistent m'.
Proof.
  unfold counters_consistent. intros H E. by rewrite (evaluate_config _ _ _ _ E).
Qed.

Lemma counters_consistent_trigger b m :
  counters_consistent m -> counters_consistent (update_config (trigger b) m).
Proof.
  unfold counters_consistent. rewrite update_config_config.
  destruct b; simpl; lia.
Qed.

Lemma counters_consistent_config f m :
  (forall c, times_triggered (f c) = times_triggered c /\
             successful_blocks (f c) = successful_blocks c /\
             false_positives (f c) = false_positives c) ->
  counters_consistent m -> counters_consistent (update_config f m).
Proof.
  unfold counters_consistent. rewrite update_config_config. intros Hf.
  destruct (Hf (config m)) as (-> & -> & ->). done.
Qed.

Lemma effectiveness_bounds m :
  counters_consistent m -> (0 <= effectiveness (config m) <= 1)%Q.
Proof.
  intros (Hsum & Hsb & Hfp). unfold effectiveness.
  destruct (times_triggered (config m) =? 0) eqn:E; [split; discriminate|].
  apply Z.eqb_neq in E.
  destruct (times_triggered (config m)) as [|t|t] eqn:Ht; try lia.
  unfold Qle, Qdiv, Qmult, Qinv, inject_Z; simpl. split; lia.
Qed.

Lemma fresh_registry_mechanisms P cfg :
  (forall m, m ∈ [InputValidationDefense
                    (new_DefenseConfig INPUT_VALIDATION true (Config.initial_strength cfg));
                  TypeCheckingDefense
                    (new_DefenseConfig TYPE_CHECKING true (Config.initial_strength cfg));
                  BoundsEnforcementDefense
                    (new_DefenseConfig BOUNDS_ENFORCEMENT true (Config.initial_strength cfg));
                  SanitizationDefense
                    (new_DefenseConfig SANITIZATION true (Config.initial_strength cfg));
                  StateProtectionDefense
                    (new_DefenseConfig STATE_PROTECTION true (Config.initial_strength cfg));
                  RateLimitingDefense (new_DefenseConfig RATE_LIMITING false 1) 0;
                  CryptographyDefense (new_DefenseConfig CRYPTOGRAPHY false 1)] -> P m) ->
  registry_all P (_initialize_defenses cfg).
Proof.
  intros H d m. rewrite fresh_registry_lookup.
  destruct d; try discriminate; intros [= <-]; apply H; set_unfold; tauto.
Qed.

(** The counters of every registered defense add up,
    [successful_blocks + false_positives = times_triggered], in a fresh
    registry and after [apply_defense], [run_generation] and
    [run_evolution_cycle] on a registry where they did, however these end;
    each [effectiveness] is then within [0,1]. *)
Theorem counters_add_up_through_evolution :
  (forall cfg, registry_all counters_consistent (_initialize_defenses cfg)) /\
  (forall fw d v r fw',
     registry_all counters_consistent fw -> apply_defense d v fw = (r, fw') ->
     registry_all counters_consistent fw') /\
  (forall o gen r o',
     registry_all counters_consistent (defense_framework (seed o)) ->
     run_generation gen o = (r, o') ->
     forall d m, defense_framework (seed o') !! d = Some m ->
       counters_consistent m /\ (0 <= effectiveness (config m) <= 1)%Q) /\
  (forall o r o',
     registry_all counters_consistent (defense_framework (seed o)) ->
     run_evolution_cycle o = (r, o') ->
     forall d m, defense_framework (seed o') !! d = Some m ->
       counters_consistent m /\ (0 <= effectiveness (config m) <= 1)%Q).
Proof.
  assert (Ha : forall m, counters_consistent m ->
                 counters_consistent (update_config (set_active true) m))
    by (intros m; by apply counters_consistent_config).
  assert (Hs : forall amount m, 0 <= amount -> counters_consistent m ->
                 counters_consistent (update_config (config_strengthen amount) m))
    by (intros amount m _; by apply counters_consistent_config).
  split; [|split; [|split]].
  - intros cfg. apply fresh_registry_mechanisms. intros m Hm.
    set_unfold. destruct Hm as [->|[->|[->|[->|[->|[->|[->|[]]]]]]]];
      unfold counters_consistent; simpl; lia.
  - intros fw d v r fw' Hfw E.
    pose proof (apply_defense_keeps _ counters_consistent_evaluate
                  counters_consistent_trigger d v fw r fw' Hfw E) as H.
    by destruct r.
  - intros o gen r o' Ho E d m Hm.
    pose proof (run_generation_keeps _ counters_consistent_evaluate
                  counters_consistent_trigger Ha Hs gen o r o' Ho E) as H.
    assert (counters_consistent m) by (destruct r; by eapply H).
    split; [done|by apply effectiveness_bounds].
  - intros o r o' Ho E d m Hm.
    pose proof (run_evolution_cycle_keeps _ counters_consistent_evaluate
                  counters_consistent_trigger Ha Hs o r o' Ho E) as H.
    assert (counters_consistent m) by (destruct r; by eapply H).
    split; [done|by apply effectiveness_bounds].
Qed.

Lemma counters_add_up_through_evolution_witness :
  registry_all counters_consistent
    (defense_framework (seed (snd (run_evolution_cycle (fresh_orchestrator Config.default 10))))).
Proof.
  set (o := fresh_orchestrator Config.default 10).
  destruct counters_add_up_through_evolution as (Hfresh & _ & _ & Hrun).
  intros d m Hm.
  apply (Hrun o (fst (run_evolution_cycle o)) (snd (run_evolution_cycle o)) (Hfresh _)
           (surjective_pairing _) d m Hm).
Defined.

Lemma strength_in_range_config f m :
  (forall c, in_range (strength c) -> in_range (strength (f c))) ->
  strength_in_range m -> strength_in_range (update_config f m).
Proof. unfold strength_in_range. rewrite update_config_config. auto. Qed.

Lemma strength_in_range_evaluate v m r m' :
  strength_in_range m -> evaluate v m = (r, m') -> strength_in_range m'.
Proof. unfold strength_in_range. intros H E. by rewrite (evaluate_config _ _ _ _ E). Qed.

(** Every registered defense has a strength within [1,10] in a fresh
    registry whose configured initial strength is, and after
    [run_generation] and [run_evolution_cycle] (breakthrough passes
    included) on a registry where it had, however these end. *)
Theorem strength_in_range_through_evolution :
  (forall cfg, in_range (Config.initial_strength cfg) ->
     registry_all strength_in_range (_initialize_defenses cfg)) /\
  (forall o gen r o',
     registry_all strength_in_range (defense_framework (seed o)) ->
     run_generation gen o = (r, o') ->
     registry_all strength_in_range (defense_framework (seed o'))) /\
  (forall o r o',
     registry_all strength_in_range (defense_framework (seed o)) ->
     run_evolution_cycle o = (r, o') ->
     registry_all strength_in_range (defense_framework (seed o'))).
Proof.
  assert (Ht : forall b m, strength_in_range m ->
                 strength_in_range (update_config (trigger b) m))
    by (intros b m; by apply strength_in_range_config).
  assert (Ha : forall m, strength_in_range m ->
                 strength_in_range (update_config (set_active true) m))
    by (intros m; by apply strength_in_range_config).
  assert (Hs : forall amount m, 0 <= amount -> strength_in_range m ->
                 strength_in_range (update_config (config_strengthen amount) m)).
  { intros amount m Hamount. apply strength_in_range_config.
    unfold in_range. simpl. lia. }
  split; [|split].
  - intros cfg Hcfg. apply fresh_registry_mechanisms. intros m Hm.
    set_unfold. destruct Hm as [->|[->|[->|[->|[->|[->|[->|[]]]]]]]];
      unfold strength_in_range, in_range in *; simpl; lia.
  - intros o gen r o' Ho E.
    pose proof (run_generation_keeps _ strength_in_range_evaluate Ht Ha Hs
                  gen o r o' Ho E) as H.
    by destruct r.
  - intros o r o' Ho E.
    pose proof (run_evolution_cycle_keeps _ strength_in_range_evaluate Ht Ha Hs
                  o r o' Ho E) as H.
    by destruct r.
Qed.

Lemma strength_in_range_through_evolution_witness :
  registry_all strength_in_range
    (defense_framework (seed (snd (run_generation 3 (fresh_orchestrator strong_config 10))))).
Proof.
  destruct strength_in_range_through_evolution as (Hfresh & Hgen & _).
  apply (Hgen (fresh_orchestrator strong_config 10) 3
           (fst (run_generation 3 (fresh_orchestrator strong_config 10)))).
  - apply Hfresh. unfold in_range. simpl. lia.
  - by destruct (run_generation 3 (fresh_orchestrator strong_config 10)).
Defined.

(** ** What [apply_defense] leaves alone *)

(** [apply_defense] on one category changes no other category's
    mechanism, and never the strength, activation or type of its own: it
    only adds to the trigger counters (and to the rate limiter's request
    count). *)
Theorem apply_defense_frame (fw : DefenseFramework) (d : DefenseType) (v : PyValue) :
  let fw' := snd (apply_defense d v fw) in
  (forall d', d' <> d -> fw' !! d' = fw !! d') /\
  (fw !! d = None -> fw' = fw) /\
  (forall m, fw !! d = Some m ->
     exists m', fw' !! d = Some m' /\
       strength (config m') = strength (config m) /\
       active (config m') = active (config m) /\
       defense_type (config m') = defense_type (config m) /\
       threshold (config m') = threshold (config m) /\
       times_triggered (config m) <= times_triggered (config m')
         <= times_triggered (config m) + 1).
Proof.
  intros fw'. subst fw'.
  destruct (fw !! d) as [defense|] eqn:Hd.
  - destruct (active (config defense)) eqn:Ha.
    + destruct (evaluate v defense) as [[[b reason]|e] m1] eqn:He.
      * rewrite (apply_defense_evaluated _ _ _ _ _ _ _ Hd Ha He). simpl.
        split; [intros d' Hne; by rewrite lookup_insert_ne|]. split; [done|].
        intros m [= <-]. eexists. split; [apply lookup_insert_eq|].
        rewrite update_config_config, (evaluate_config _ _ _ _ He). simpl.
        repeat split; lia.
      * rewrite (apply_defense_fault _ _ _ _ _ _ Hd Ha He). simpl.
        split; [intros d' Hne; by rewrite lookup_insert_ne|]. split; [done|].
        intros m [= <-]. eexists. split; [apply lookup_insert_eq|].
        rewrite (evaluate_config _ _ _ _ He). repeat split; lia.
    + rewrite (apply_defense_inactive _ _ _ _ Hd Ha). simpl.
      split; [done|]. split; [done|]. intros m [= <-]. exists defense.
      repeat split; (done || lia).
  - rewrite (apply_defense_not_found _ _ _ Hd). simpl. by repeat split.
Qed.

Lemma apply_defense_frame_witness :
  let fw := _initialize_defenses (Config.defense Config.default) in
  snd (apply_defense LOGIC_HARDENING VNone fw) = fw /\
  exists m', snd (apply_defense SANITIZATION (VStr "x") fw) !! SANITIZATION = Some m' /\
             strength (config m') = 1 /\ active (config m') = true.
Proof.
  intros fw.
  destruct (apply_defense_frame fw LOGIC_HARDENING VNone) as (_ & Hnone & _).
  destruct (apply_defense_frame fw SANITIZATION (VStr "x")) as (_ & _ & Hsome).
  split; [by apply Hnone|].
  destruct (Hsome (SanitizationDefense (new_DefenseConfig SANITIZATION true 1)) eq_refl)
    as (m' & Hm' & Hs & Ha & _).
  exists m'. by repeat split.
Defined.

(** ** The rate limiter *)

Lemma evaluate_calls_snoc k v m rs m1 r m2 :
  evaluate_calls k v m = (Ok rs, m1) -> evaluate v m1 = (Ok r, m2) ->
  evaluate_calls (S k) v m = (Ok (rs ++ [r]), m2).
Proof.
  revert m rs. induction k as [|k IH]; intros m rs Hk Hlast.
  - injection Hk as <- <-. cbn [evaluate_calls].
    erewrite bind_Ok by exact Hlast. reflexivity.
  - cbn [evaluate_calls] in Hk. unfold bind at 1 in Hk.
    destruct (evaluate v m) as [[r0|e] m0] eqn:E0; [|done].
    unfold bind at 1 in Hk.
    destruct (evaluate_calls k v m0) as [[rs0|e] m3] eqn:Ek; [|done].
    injection Hk as <- <-.
    pose proof (IH _ _ Ek Hlast) as Hrest.
    remember (S k) as k' eqn:Hk'. cbn [evaluate_calls].
    erewrite bind_Ok by exact E0.
    erewrite bind_Ok by exact Hrest. reflexivity.
Qed.

Lemma rate_limiter_passes c k n v :
  strength c < 5 \/ n + Z.of_nat k <= 2 * strength c ->
  evaluate_calls k v (RateLimitingDefense c n)
  = (Ok (replicate k (false, "Passed rate limit")),
     RateLimitingDefense c (n + Z.of_nat k)).
Proof.
  revert n. induction k as [|k IH]; intros n Hn.
  - simpl. unfold ret. by rewrite Z.add_0_r.
  - cbn [evaluate_calls].
    assert (E : evaluate v (RateLimitingDefense c n)
                = (Ok (false, "Passed rate limit"), RateLimitingDefense c (n + 1))).
    { simpl. unfold RateLimiting_evaluate.
      assert ((5 <=? strength c) && (strength c * 2 <? n + 1) = false) as ->; [|done].
      apply andb_false_iff.
      destruct Hn; [left; apply Z.leb_gt|right; apply Z.ltb_ge]; lia. }
    erewrite bind_Ok by exact E.
    assert (Hrest : strength c < 5 \/ n + 1 + Z.of_nat k <= 2 * strength c) by lia.
    rewrite (bind_Ok _ _ _ _ _ (IH (n + 1) Hrest)).
    replace (n + Z.of_nat (S k)) with (n + 1 + Z.of_nat k) by lia. reflexivity.
Qed.

(** The rate limiter counts requests whether or not it blocks.  Below
    strength 5 it blocks nothing.  From strength 5 on, starting from a count
    of 0, it passes [2 * strength] requests, blocks the next one and is back
    at a count of 0: it blocks exactly every [(2 * strength + 1)]-th request,
    whatever the payloads. *)
Theorem rate_limiter_period (c : DefenseConfig) (v : PyValue) :
  (strength c < 5 ->
   forall k n,
     evaluate_calls k v (RateLimitingDefense c n)
     = (Ok (replicate k (false, "Passed rate limit")),
        RateLimitingDefense c (n + Z.of_nat k))) /\
  (5 <= strength c ->
   evaluate_calls (S (Z.to_nat (2 * strength c))) v (RateLimitingDefense c 0)
   = (Ok (replicate (Z.to_nat (2 * strength c)) (false, "Passed rate limit")
          ++ [(true, "Rejected: rate limit exceeded")]),
      RateLimitingDefense c 0)).
Proof.
  split.
  - intros Hs k n. apply rate_limiter_passes. by left.
  - intros Hs. eapply evaluate_calls_snoc.
    + apply rate_limiter_passes. right. lia.
    + simpl. unfold RateLimiting_evaluate.
      assert ((5 <=? strength c)
              && (strength c * 2 <? 0 + Z.of_nat (Z.to_nat (2 * strength c)) + 1) = true)
        as ->; [|done].
      apply andb_true_iff. split; [apply Z.leb_le|apply Z.ltb_lt]; lia.
Qed.

Lemma rate_limiter_period_witness :
  evaluate_calls 11 VNone (RateLimitingDefense (new_DefenseConfig RATE_LIMITING true 5) 0)
  = (Ok (replicate 10 (false, "Passed rate limit")
         ++ [(true, "Rejected: rate limit exceeded")]),
     RateLimitingDefense (new_DefenseConfig RATE_LIMITING true 5) 0).
Proof.
  apply (proj2 (rate_limiter_period (new_DefenseConfig RATE_LIMITING true 5) VNone)).
  simpl. lia.
Defined.

(** ** Verdicts and strength *)

Lemma first_dangerous_app patterns more text pattern :
  first_dangerous patterns text = Some pattern ->
  first_dangerous (patterns ++ more) text = Some pattern.
Proof.
  induction patterns as [|p rest IH]; simpl; [done|].
  destruct (contains p text); [done|exact IH].
Qed.

Lemma leb_mono a s s' : s <= s' -> (a <=? s) = true -> (a <=? s') = true.
Proof. intros H E. apply Z.leb_le in E. apply Z.leb_le. lia. Qed.

(** Raising the strength of input validation, sanitization or the
    cryptographic check never unblocks a payload; the verdicts of type
    checking and state protection do not depend on strength. *)
Theorem verdict_monotone_in_strength (c c' : DefenseConfig) (v : PyValue) :
  strength c <= strength c' ->
  (blocks (InputValidationDefense c) v -> blocks (InputValidationDefense c') v) /\
  (blocks (SanitizationDefense c) v -> blocks (SanitizationDefense c') v) /\
  (blocks (CryptographyDefense c) v -> blocks (CryptographyDefense c') v) /\
  (blocks (TypeCheckingDefense c) v <-> blocks (TypeCheckingDefense c') v) /\
  (blocks (StateProtectionDefense c) v <-> blocks (StateProtectionDefense c') v).
Proof.
  intros Hle. unfold blocks. simpl. split; [|split; [|split; [|split]]].
  - intros [reason H]. unfold InputValidation_evaluate in *.
    destruct v; try by eexists.
    all: destruct (is_str _ && str_equals _ _); [by eexists|].
    all: destruct ((4 <=? strength c) && negb (is_base _)) eqn:E; [|done].
    all: apply andb_true_iff in E as [E1 E2].
    all: rewrite (leb_mono _ _ _ Hle E1), E2; by eexists.
  - intros [reason H]. unfold Sanitization_evaluate in *.
    destruct (str v) as [text|e]; [|done].
    destruct (first_dangerous _ (upper text)) as [p|] eqn:E in H; [|done].
    assert (first_dangerous
              (if 8 <=? strength c' then dangerous_base ++ dangerous_extended
               else dangerous_base) (upper text) = Some p) as ->; [|by eexists].
    destruct (8 <=? strength c) eqn:E8.
    + by rewrite (leb_mono _ _ _ Hle E8).
    + destruct (8 <=? strength c'); [by apply first_dangerous_app|done].
  - intros [reason H]. unfold Cryptography_evaluate in *.
    destruct v; try done.
    destruct ((7 <=? strength c) && _ && _) eqn:E; [|done].
    apply andb_true_iff in E as [E E3]. apply andb_true_iff in E as [E1 E2].
    rewrite (leb_mono _ _ _ Hle E1), E2, E3. by eexists.
  - done.
  - done.
Qed.

Lemma verdict_monotone_in_strength_witness :
  blocks (SanitizationDefense (new_DefenseConfig SANITIZATION true 9))
         (VStr "'; DROP TABLE users--").
Proof.
  apply (proj1 (proj2 (verdict_monotone_in_strength
                         (new_DefenseConfig SANITIZATION true 1)
                         (new_DefenseConfig SANITIZATION true 9)
                         (VStr "'; DROP TABLE users--") ltac:(simpl; lia)))).
  eexists. vm_compute. reflexivity.
Defined.

(** Bounds enforcement goes the other way: its limit
    [50 - (10 - strength) * 3] grows with the strength, so whatever it blocks
    at a strength it also blocks at every lower one, and a text is blocked
    exactly when it is longer than [20 + 3 * strength]. *)
Theorem bounds_enforcement_relaxes_with_strength (c c' : DefenseConfig) (v : PyValue) :
  strength c <= strength c' ->
  (blocks (BoundsEnforcementDefense c') v -> blocks (BoundsEnforcementDefense c) v) /\
  (forall s, blocks (BoundsEnforcementDefense c) (VStr s) <-> 20 + 3 * strength c < len s).
Proof.
  intros Hle. unfold blocks. simpl. unfold BoundsEnforcement_evaluate. split.
  - intros [reason H].
    destruct v; simpl in *; try done.
    + destruct (_ <? len s) eqn:E in H; [|done].
      apply Z.ltb_lt in E.
      assert ((50 - (10 - strength c) * 3 <? len s) = true) as -> by (apply Z.ltb_lt; lia).
      by eexists.
    + destruct (_ <? _) eqn:E in H; [|done].
      apply Z.ltb_lt in E.
      assert ((50 - (10 - strength c) * 3 <? 2 * Z.of_nat (length items)) = true) as ->
        by (apply Z.ltb_lt; lia).
      by eexists.
    + destruct (_ <? _) eqn:E in H; [|done].
      apply Z.ltb_lt in E.
      assert ((50 - (10 - strength c) * 3 <? 2 * Z.of_nat (length items)) = true) as ->
        by (apply Z.ltb_lt; lia).
      by eexists.
  - intros s. simpl. destruct (_ <? len s) eqn:E.
    + apply Z.ltb_lt in E. split; [lia|]. intros _. by eexists.
    + apply Z.ltb_ge in E. split; [by intros [reason [=]]|lia].
Qed.

Lemma bounds_enforcement_relaxes_with_strength_witness :
  blocks (BoundsEnforcementDefense (new_DefenseConfig BOUNDS_ENFORCEMENT true 1))
         (VStr (str_repeat "A" 60)) /\
  ~ blocks (BoundsEnforcementDefense (new_DefenseConfig BOUNDS_ENFORCEMENT true 10))
           (VStr (str_repeat "A" 40)).
Proof.
  split.
  - apply (proj1 (bounds_enforcement_relaxes_with_strength
                    (new_DefenseConfig BOUNDS_ENFORCEMENT true 1)
                    (new_DefenseConfig BOUNDS_ENFORCEMENT true 10)
                    (VStr (str_repeat "A" 60)) ltac:(simpl; lia))).
    eexists. vm_compute. reflexivity.
  - intros H.
    apply (proj2 (bounds_enforcement_relaxes_with_strength
                    (new_DefenseConfig BOUNDS_ENFORCEMENT true 10)
                    (new_DefenseConfig BOUNDS_ENFORCEMENT true 10)
                    VNone ltac:(simpl; lia))) in H.
    vm_compute in H. discriminate H.
Defined.

Lemma upper_char_squote a : Ascii.eqb (upper_char a) squote = Ascii.eqb a squote.
Proof. destruct a as [[] [] [] [] [] [] [] []]; reflexivity. Qed.

Lemma count_char_upper s : count_char squote (upper s) = count_char squote s.
Proof.
  induction s as [|a s IH]; [done|]. simpl. by rewrite upper_char_squote, IH.
Qed.

Lemma count_char_nonneg c s : 0 <= count_char c s.
Proof. induction s as [|a s IH]; simpl; [lia|]. destruct (Ascii.eqb a c); lia. Qed.

Lemma contains_char c s : 0 < count_char c s -> contains (str1 c) s = true.
Proof.
  induction s as [|a s IH]; simpl; [lia|].
  destruct (Ascii.eqb a c) eqn:E.
  - intros _. apply Ascii.eqb_eq in E as ->.
    unfold str1. simpl. destruct (ascii_dec c c); [|done].
    by destruct s.
  - intros H. rewrite IH by lia. apply orb_true_r.
Qed.

(** Sanitization blocks every text that contains a single quote, at any
    strength, naming the quote as the pattern; so whatever the
    cryptographic check blocks (a text of odd length with a single quote, at
    strength 7 or more) sanitization blocks too. *)
Theorem sanitization_blocks_single_quote (c : DefenseConfig) :
  (forall s, 0 < count_char squote s ->
     fst (evaluate (VStr s) (SanitizationDefense c))
     = Ok (true, "Rejected: dangerous pattern '''")) /\
  (forall c' v, blocks (CryptographyDefense c') v -> blocks (SanitizationDefense c) v).
Proof.
  assert (Hquote : forall s, 0 < count_char squote s ->
            fst (evaluate (VStr s) (SanitizationDefense c))
            = Ok (true, "Rejected: dangerous pattern '''")).
  { intros s Hs. simpl. unfold Sanitization_evaluate. simpl str.
    assert (Hc : contains (str1 squote) (upper s) = true)
      by (apply contains_char; by rewrite count_char_upper).
    destruct (8 <=? strength c); simpl; by rewrite Hc. }
  split; [exact Hquote|].
  intros c' v [reason H]. simpl in H. unfold Cryptography_evaluate in H.
  destruct v; try done.
  destruct (_ && _ && (0 <? count_char squote s)) eqn:E; [|done].
  apply andb_true_iff in E as [_ E]. apply Z.ltb_lt in E.
  eexists. by apply Hquote.
Qed.

Lemma sanitization_blocks_single_quote_witness :
  fst (evaluate (VStr "it's") (SanitizationDefense (new_DefenseConfig SANITIZATION true 1)))
  = Ok (true, "Rejected: dangerous pattern '''").
Proof.
  apply (proj1 (sanitization_blocks_single_quote (new_DefenseConfig SANITIZATION true 1))).
  reflexivity.
Defined.

(** ** Accounting of the attack suite *)

Lemma execute_attack_recorded pattern (st : ExecutorStore) :
  exists e p' sd',
    execute_attack pattern st = (Ok (e, p'), (sd', snd st)) /\
    attempt_recorded pattern e p'.
Proof.
  destruct st as [sd ex]. unfold execute_attack.
  set (payload := match AttackPattern.payload_generator pattern
                              (generation_number ex) with
                  | Ok v => v | Raise _ => VNone end).
  destruct (test_defense_Ok (AttackPattern.defense_type pattern) payload sd)
    as (b & reason & sd' & H & _).
  eexists _, _, sd'. split.
  - unfold bind at 1. unfold get at 1. cbn [snd fst]. fold payload.
    erewrite bind_Ok; [reflexivity|].
    unfold on_target. apply (zoom_Ok fst (fun sd0 st0 => (sd0, snd st0))). exact H.
  - by repeat split.
Qed.

Lemma execute_patterns_recorded patterns (st : ExecutorStore) :
  exists exploits patterns' sd',
    execute_patterns patterns st
    = (Ok (exploits, count_if Exploit.blocked exploits, patterns'), (sd', snd st)) /\
    Forall3 attempt_recorded patterns exploits patterns'.
Proof.
  revert st. induction patterns as [|pattern rest IH]; intros st.
  - exists [], [], (fst st). destruct st. split; [done|constructor].
  - destruct (execute_attack_recorded pattern st) as (e & p' & sd1 & H1 & Hrec).
    destruct (IH (sd1, snd st)) as (es & ps & sd2 & H2 & Hall).
    exists (e :: es), (p' :: ps), sd2. split; [|by constructor].
    cbn [execute_patterns]. erewrite bind_Ok by exact H1.
    erewrite bind_Ok by exact H2. cbn [fst snd]. unfold ret.
    by rewrite count_if_cons.
Qed.

Lemma execute_suite_recorded (st : ExecutorStore) :
  exists exploits sd' patterns',
    execute_suite st
    = (Ok (exploits, count_if Exploit.blocked exploits, Z.of_nat (length exploits)),
       (sd', set_attack_patterns patterns' (snd st))) /\
    Forall3 attempt_recorded (attack_patterns (snd st)) exploits patterns'.
Proof.
  destruct (execute_patterns_recorded (attack_patterns (snd st)) st)
    as (es & ps & sd' & H & Hall).
  exists es, sd', ps. split; [|exact Hall].
  unfold execute_suite. unfold bind at 1. unfold get at 1.
  erewrite bind_Ok by exact H. reflexivity.
Qed.

(** [execute_suite] never raises.  It returns one exploit per active
    pattern, in order, carrying the pattern's target, description, severity
    and difficulty; [total] is the number of patterns and [blocked] the
    number of blocked exploits; every pattern gets exactly one more attempt,
    and one more success exactly when its attack was not blocked; nothing
    else of the executor changes. *)
Theorem execute_suite_accounting (st : ExecutorStore) :
  exists exploits blocked total sd' patterns',
    execute_suite st
    = (Ok (exploits, blocked, total), (sd', set_attack_patterns patterns' (snd st))) /\
    Forall3 attempt_recorded (attack_patterns (snd st)) exploits patterns' /\
    total = Z.of_nat (length (attack_patterns (snd st))) /\
    blocked = count_if Exploit.blocked exploits /\
    count_if (fun e => negb (Exploit.blocked e)) exploits = total - blocked.
Proof.
  destruct (execute_suite_recorded st) as (es & sd' & ps & H & Hall).
  exists es, (count_if Exploit.blocked es), (Z.of_nat (length es)), sd', ps.
  split; [exact H|split; [exact Hall|split; [|split; [done|]]]].
  - by rewrite (Forall3_length_lm _ _ _ _ Hall).
  - clear. induction es as [|e es IH]; [done|].
    rewrite !count_if_cons. simpl length. destruct (Exploit.blocked e); simpl; lia.
Qed.

(** ** Attack patterns through a whole run *)

Lemma adapt_pattern_adapted p : adapted p (fst (adapt_pattern p)).
Proof.
  unfold adapted, adapt_pattern, _mutate_payload.
  destruct (Qltb (6 # 10) _); simpl; [repeat split; lia|].
  destruct (_ && _); simpl; [|repeat split; lia].
  destruct (AttackPattern.defense_type p) eqn:E; simpl; rewrite ?E; repeat split; lia.
Qed.

Lemma adapt_all_adapted patterns : Forall2 adapted patterns (fst (adapt_all patterns)).
Proof.
  induction patterns as [|p rest IH]; [constructor|].
  cbn [adapt_all]. pose proof (adapt_pattern_adapted p) as Hp.
  destruct (adapt_pattern p) as [p' a]. destruct (adapt_all rest) as [ps more].
  by constructor.
Qed.

Lemma adapt_all_messages patterns :
  (length (snd (adapt_all patterns)) <= length patterns)%nat.
Proof.
  induction patterns as [|p rest IH]; [done|].
  cbn [adapt_all].
  assert (length (snd (adapt_pattern p)) <= 1)%nat as Hp.
  { unfold adapt_pattern. destruct (Qltb (6 # 10) _); [done|].
    destruct (_ && _); simpl; lia. }
  destruct (adapt_pattern p) as [p' a]. destruct (adapt_all rest) as [ps more].
  simpl in *. rewrite length_app. lia.
Qed.

(** One [adapt_patterns] pass never raises, keeps the patterns in number
    and order, and changes of a pattern at most its difficulty and its
    adaptation count: target, payload generator, description and attempt
    and success counters stay; the adaptation count grows by 0 or 1; the
    difficulty grows by at most 1 and does not fall below
    [min(10, difficulty)] (a difficulty above 10 is cut back to 10 by the
    branch for working patterns); it reports at most one adaptation per
    pattern and appends the reports to the history. *)
Theorem adapt_patterns_frame (exploits : list Exploit.t)
    (st : RedTeamExecutor * RedTeamAdaptationEngine) :
  exists adaptations patterns',
    adapt_patterns exploits st
    = (Ok adaptations,
       (set_attack_patterns patterns' (fst st),
        mkEngine (adaptation_history (snd st) ++ adaptations))) /\
    Forall2 adapted (attack_patterns (fst st)) patterns' /\
    (length adaptations <= length (attack_patterns (fst st)))%nat.
Proof.
  eexists _, _. split; [apply adapt_patterns_Ok|].
  split; [apply adapt_all_adapted|apply adapt_all_messages].
Qed.

Section PatternInvariant.

(** A property of patterns that recording an attempt and an adaptation
    pass keep. *)
Variable Q : AttackPattern.t -> Prop.
Hypothesis Q_record : forall b p, Q p -> Q (AttackPattern.record_attempt b p).
Hypothesis Q_adapt : forall p, Q p -> Q (fst (adapt_pattern p)).

Let patterns_ok (o : EvolutionOrchestrator) : Prop :=
  Forall Q (attack_patterns (red_team o)).

Lemma recorded_keeps ps es ps' :
  Forall3 attempt_recorded ps es ps' -> Forall Q ps -> Forall Q ps'.
Proof.
  induction 1 as [|p e p' ps es ps' (_ & _ & _ & _ & ->) _ IH]; [done|].
  intros [Hp Hps]%Forall_cons. constructor; [by apply Q_record|by apply IH].
Qed.

Lemma adapt_all_keeps ps : Forall Q ps -> Forall Q (fst (adapt_all ps)).
Proof.
  induction 1 as [|p ps Hp _ IH]; [done|].
  cbn [adapt_all]. pose proof (Q_adapt p Hp) as Hp'.
  destruct (adapt_pattern p) as [p' a]. destruct (adapt_all ps) as [ps' more].
  by constructor.
Qed.

Lemma run_generation_keeps_patterns gen : preserves patterns_ok (run_generation gen).
Proof.
  unfold run_generation.
  apply preserves_bind.
  { eapply preserves_eq; [reflexivity|]. by intros []. }
  intros _. apply preserves_bind.
  { intros o r o' Ho E. unfold on_red_team, zoom in E.
    destruct (execute_suite_recorded (seed o, red_team o))
      as (es & sd' & ps' & Hs & Hall).
    rewrite Hs in E. injection E as <- <-. unfold patterns_ok. simpl.
    by eapply recorded_keeps. }
  intros r. apply preserves_bind; [by apply preserves_zoom_frame|]. intros fixes.
  apply preserves_bind; [by apply preserves_modify|]. intros _.
  apply preserves_bind.
  { intros o r0 o' Ho E. unfold on_adaptation_engine, zoom in E.
    rewrite adapt_patterns_Ok in E. injection E as <- <-.
    unfold patterns_ok. simpl. by apply adapt_all_keeps. }
  intros _. apply preserves_bind; [by apply preserves_zoom_frame|]. intros snapshot.
  apply preserves_bind; [by apply preserves_modify|]. intros _.
  apply preserves_bind; [by apply preserves_zoom_frame|]. intros; apply preserves_ret.
Qed.

Lemma run_evolution_cycle_keeps_patterns : preserves patterns_ok run_evolution_cycle.
Proof.
  unfold run_evolution_cycle, evolution_cycle.
  apply preserves_bind; [apply preserves_get|]. intros o0.
  apply preserves_bind; [|intros events; apply preserves_bind;
                           [apply print_evolution_summary_keeps|intros; apply preserves_ret]].
  induction (range (max_generations o0)) as [|gen rest IH]; simpl; [apply preserves_ret|].
  apply preserves_bind.
  - unfold cycle_body.
    apply preserves_bind; [apply run_generation_keeps_patterns|]. intros report.
    apply preserves_bind; [by apply preserves_zoom_frame|]. intros _.
    destruct (Qle_bool 100 _); [apply preserves_ret|].
    apply preserves_bind; [apply preserves_get|]. intros o.
    destruct (_ && _); [|apply preserves_ret].
    apply preserves_bind; [by apply preserves_zoom_frame|]. intros; apply preserves_ret.
  - intros r. destruct (fst r); [apply preserves_ret|].
    apply preserves_bind; [apply IH|]. intros; apply preserves_ret.
Qed.

End PatternInvariant.

Lemma success_rate_bounds p :
  pattern_counters_ok p -> (0 <= AttackPattern.success_rate p <= 1)%Q.
Proof.
  intros [Hlo Hhi]. unfold AttackPattern.success_rate.
  destruct (AttackPattern.attempt_count p =? 0) eqn:E; [split; discriminate|].
  apply Z.eqb_neq in E.
  destruct (AttackPattern.attempt_count p) as [|t|t] eqn:Ht; try lia.
  unfold Qle, Qdiv, Qmult, Qinv, inject_Z; simpl. split; lia.
Qed.

(** Every active pattern has [0 <= success_count <= attempt_count] (so a
    success rate within [0,1]), a difficulty of at least 1 and a
    non-negative adaptation count, from initialisation on and after
    [run_generation] and [run_evolution_cycle], however these end. *)
Theorem patterns_well_formed_through_evolution :
  (forall cfg, Forall pattern_well_formed (_initialize_patterns cfg)) /\
  (forall o gen r o',
     Forall pattern_well_formed (attack_patterns (red_team o)) ->
     run_generation gen o = (r, o') ->
     Forall pattern_well_formed (attack_patterns (red_team o'))) /\
  (forall o r o',
     Forall pattern_well_formed (attack_patterns (red_team o)) ->
     run_evolution_cycle o = (r, o') ->
     Forall pattern_well_formed (attack_patterns (red_team o'))) /\
  (forall p, pattern_well_formed p -> (0 <= AttackPattern.success_rate p <= 1)%Q).
Proof.
  assert (Hrec : forall b p, pattern_well_formed p ->
                   pattern_well_formed (AttackPattern.record_attempt b p)).
  { intros b p. unfold pattern_well_formed, pattern_counters_ok.
    destruct b; simpl; lia. }
  assert (Had : forall p, pattern_well_formed p ->
                  pattern_well_formed (fst (adapt_pattern p))).
  { intros p. pose proof (adapt_pattern_adapted p) as (_ & _ & _ & Hs & Ha & Hd & Hn).
    unfold pattern_well_formed, pattern_counters_ok. rewrite Hs, Ha. lia. }
  split; [|split; [|split]].
  - intros cfg. unfold _initialize_patterns. apply Forall_take.
    unfold pattern_catalog, pattern_well_formed, pattern_counters_ok.
    repeat constructor; simpl; lia.
  - intros o gen r o' Ho E.
    pose proof (run_generation_keeps_patterns _ Hrec Had gen o r o' Ho E) as H.
    by destruct r.
  - intros o r o' Ho E.
    pose proof (run_evolution_cycle_keeps_patterns _ Hrec Had o r o' Ho E) as H.
    by destruct r.
  - intros p [Hp _]. by apply success_rate_bounds.
Qed.

Lemma patterns_well_formed_through_evolution_witness :
  Forall pattern_well_formed
    (attack_patterns (red_team (snd (run_generation 0 (fresh_orchestrator Config.default 10))))).
Proof.
  destruct patterns_well_formed_through_evolution as (Hfresh & Hgen & _).
  apply (Hgen (fresh_orchestrator Config.default 10) 0
           (fst (run_generation 0 (fresh_orchestrator Config.default 10)))).
  - apply Hfresh.
  - by destruct (run_generation 0 (fresh_orchestrator Config.default 10)).
Defined.

(** ** analyze_results *)

Lemma record_failure_keys e groups :
  (record_failure e groups).*1
  = if bool_decide (value (Exploit.vector e) ∈ groups.*1) then groups.*1
    else groups.*1 ++ [value (Exploit.vector e)].
Proof.
  induction groups as [|[k es] rest IH]; [done|].
  cbn [record_failure].
  destruct (String.eqb k (value (Exploit.vector e))) eqn:E.
  - apply String.eqb_eq in E as ->. rewrite !fmap_cons. cbn [fst].
    rewrite bool_decide_eq_true_2; [done|by left].
  - apply String.eqb_neq in E. rewrite !fmap_cons. cbn [fst]. rewrite IH.
    case_bool_decide as H1; case_bool_decide as H2; try done.
    + exfalso. apply H2. by right.
    + exfalso. apply elem_of_cons in H2 as [H2|H2]; [by symmetry in H2|done].
Qed.

Lemma record_failure_elem e groups k es :
  NoDup groups.*1 ->
  (k, es) ∈ record_failure e groups ->
  (k <> value (Exploit.vector e) /\ (k, es) ∈ groups) \/
  (k = value (Exploit.vector e) /\
   exists es0, es = es0 ++ [e] /\
     ((k, es0) ∈ groups \/ (es0 = [] /\ k ∉ groups.*1))).
Proof.
  induction groups as [|[k0 es0] rest IH]; cbn [record_failure].
  - intros _ [= -> ->]%list_elem_of_singleton. right. split; [done|].
    exists []. split; [done|]. right. split; [done|]. apply not_elem_of_nil.
  - rewrite fmap_cons. cbn [fst]. intros [Hnotin Hnd]%NoDup_cons.
    destruct (String.eqb k0 (value (Exploit.vector e))) eqn:E.
    + apply String.eqb_eq in E as ->.
      intros [[= -> ->]|H]%elem_of_cons.
      * right. split; [done|]. exists es0. split; [done|]. left. by left.
      * left. split; [|by right]. intros ->. apply Hnotin.
        apply list_elem_of_fmap. by exists (value (Exploit.vector e), es).
    + apply String.eqb_neq in E.
      intros [[= -> ->]|H]%elem_of_cons; [left; split; [done|by left]|].
      destruct (IH Hnd H) as [[Hne Hin]|(-> & es1 & -> & [Hin|[-> Hnotin']])].
      * left. split; [done|by right].
      * right. split; [done|]. exists es1. split; [done|]. left. by right.
      * right. split; [done|]. exists []. split; [done|]. right. split; [done|].
        apply not_elem_of_cons. by split; [congruence|].
Qed.

Lemma failures_named_snoc n l e :
  failures_named n (l ++ [e])
  = failures_named n l
    ++ (if negb (Exploit.blocked e) && bool_decide (value (Exploit.vector e) = n)
        then [e] else []).
Proof. unfold failures_named. by rewrite List.filter_app. Qed.

Lemma groups_represent_step groups l e :
  groups_represent groups l ->
  groups_represent (if Exploit.blocked e then groups else record_failure e groups)
                   (l ++ [e]).
Proof.
  intros (Hnd & Hel & Hkeys).
  destruct (Exploit.blocked e) eqn:Hb.
  - split; [done|]. split.
    + intros n es Hin. rewrite failures_named_snoc, Hb. simpl. rewrite app_nil_r.
      by apply Hel.
    + intros n. rewrite failures_named_snoc, Hb. simpl. rewrite app_nil_r.
      apply Hkeys.
  - split; [|split].
    + rewrite record_failure_keys. case_bool_decide as Hin; [done|].
      apply NoDup_app. split; [done|]. split; [|apply NoDup_singleton].
      intros x Hx ->%list_elem_of_singleton. done.
    + intros n es Hin. rewrite failures_named_snoc, Hb. simpl.
      apply (record_failure_elem _ _ _ _ Hnd) in Hin
        as [[Hne Hin]|(-> & es0 & -> & [Hin|[-> Hnotin]])].
      * rewrite bool_decide_eq_false_2 by congruence. rewrite app_nil_r.
        by apply Hel.
      * rewrite bool_decide_eq_true_2 by done.
        destruct (Hel _ _ Hin) as [-> _]. split; [done|]. by destruct (failures_named _ l).
      * rewrite bool_decide_eq_true_2 by done. split; [|done]. simpl.
        destruct (failures_named (value (Exploit.vector e)) l) eqn:E; [done|].
        exfalso. apply Hnotin, Hkeys. by rewrite E.
    + intros n. rewrite failures_named_snoc, Hb. simpl.
      rewrite record_failure_keys.
      case_bool_decide as Hn.
      * subst n. intros _. case_bool_decide; [done|].
        apply elem_of_app. right. by left.
      * rewrite app_nil_r. intros H%Hkeys. case_bool_decide; [done|].
        apply elem_of_app. by left.
Qed.

Lemma failures_by_defense_represent exploits :
  groups_represent (failures_by_defense exploits) exploits.
Proof.
  unfold failures_by_defense.
  assert (Hgen : forall es groups l,
            groups_represent groups l ->
            groups_represent
              (fold_left (fun groups e => if Exploit.blocked e then groups
                                          else record_failure e groups) es groups)
              (l ++ es)).
  { induction es as [|e es IH]; intros groups l H; simpl.
    - by rewrite app_nil_r.
    - replace (l ++ e :: es) with ((l ++ [e]) ++ es) by by rewrite <- app_assoc.
      apply IH. by apply groups_represent_step. }
  apply (Hgen exploits [] []). split; [constructor|]. split.
  - intros n es H. by apply elem_of_nil in H.
  - done.
Qed.

Lemma failures_named_elem n exploits e :
  e ∈ failures_named n exploits
  <-> e ∈ exploits /\ Exploit.blocked e = false /\ value (Exploit.vector e) = n.
Proof.
  unfold failures_named. rewrite !list_elem_of_In, filter_In, andb_true_iff,
    negb_true_iff, bool_decide_eq_true. tauto.
Qed.

(** [analyze_results] groups the unblocked exploits by target: it gives one
    issue per category with at least one unblocked exploit and none for any
    other, each of type "DEFENSE_FAILURE", naming its category and the number
    [n >= 1] of unblocked exploits on it, with severity CRITICAL when [n > 2]
    and HIGH otherwise. *)
Theorem analyze_results_groups (exploits : list Exploit.t) :
  let issues := analyze_results exploits in
  let failure_count d := Z.of_nat (length (failures_named (value d) exploits)) in
  NoDup (TestIssue.affected_defense <$> issues) /\
  (forall d, Some d ∈ TestIssue.affected_defense <$> issues
             <-> exists e, e ∈ exploits /\ Exploit.blocked e = false /\
                           Exploit.vector e = d) /\
  (forall i, i ∈ issues ->
     exists d, TestIssue.affected_defense i = Some d /\
       1 <= failure_count d /\
       TestIssue.issue_type i = "DEFENSE_FAILURE" /\
       TestIssue.severity i = (if 2 <? failure_count d then CRITICAL else HIGH) /\
       TestIssue.description i
       = value d +:+ " failed against " +:+ pretty (failure_count d) +:+ " attacks").
Proof.
  intros issues failure_count. subst issues failure_count.
  destruct (failures_by_defense_represent exploits) as (Hnd & Hel & Hkeys).
  unfold analyze_results.
  set (groups := failures_by_defense exploits) in *.
  set (mk := fun g : string * list Exploit.t => TestIssue.mk _ _ _ _ _ _ _).
  (* each group yields an issue on the category its name belongs to *)
  assert (Hgroup : forall n es, (n, es) ∈ groups ->
            exists d, value d = n /\ es = failures_named (value d) exploits /\
                      es <> [] /\ TestIssue.affected_defense (mk (n, es)) = Some d).
  { intros n es Hin. destruct (Hel _ _ Hin) as [Hes Hne].
    destruct es as [|e0 es']; [done|].
    assert (He0 : e0 ∈ failures_named n exploits) by (rewrite <- Hes; by left).
    apply failures_named_elem in He0 as (_ & _ & Hn).
    exists (Exploit.vector e0). rewrite Hn. by repeat split. }
  split; [|split].
  - apply (NoDup_fmap_1 (from_option value EmptyString)).
    rewrite <- !list_fmap_compose.
    assert (H : (from_option value EmptyString ∘ TestIssue.affected_defense ∘ mk)
                <$> groups = groups.*1); [|by rewrite H].
    apply Forall_fmap_ext, Forall_forall. intros [n es] Hin.
    destruct (Hgroup _ _ Hin) as (d & Hd & _ & _ & Haff).
    unfold compose. by rewrite Haff.
  - intros d. rewrite <- list_fmap_compose, list_elem_of_fmap. split.
    + intros ([n es] & Hd & Hin).
      destruct (Hgroup _ _ Hin) as (d' & Hd' & Hes & Hne & Haff).
      unfold compose in Hd. rewrite Haff in Hd. injection Hd as ->.
      destruct es as [|e0 es']; [done|].
      assert (He0 : e0 ∈ failures_named (value d') exploits)
        by (rewrite <- Hes; by left).
      apply failures_named_elem in He0 as (Hin0 & Hb & Hv).
      exists e0. repeat split; [done|done|]. by apply (inj value).
    + intros (e & Hin & Hb & <-).
      assert (He : failures_named (value (Exploit.vector e)) exploits <> []).
      { intros Hnil.
        assert (e ∈ failures_named (value (Exploit.vector e)) exploits) as H
          by (by apply failures_named_elem).
        rewrite Hnil in H. by apply elem_of_nil in H. }
      apply Hkeys, list_elem_of_fmap in He as ([n es] & Hn & Hin'). simpl in Hn.
      subst n. exists (value (Exploit.vector e), es). split; [|done].
      destruct (Hgroup _ _ Hin') as (d' & Hd' & _ & _ & Haff).
      unfold compose. rewrite Haff. f_equal. symmetry. by apply (inj value).
  - intros i ([n es] & -> & Hin)%list_elem_of_fmap.
    destruct (Hgroup _ _ Hin) as (d & <- & Hes & Hne & Haff).
    exists d. split; [done|]. rewrite <- Hes. subst mk. simpl.
    repeat split. destruct es; [done|]. simpl length. lia.
Qed.

(** ** _apply_defensive_adaptations *)

Lemma alter_each_app f l1 l2 (fw : DefenseFramework) :
  alter_each f (l1 ++ l2) fw = alter_each f l2 (alter_each f l1 fw).
Proof. unfold alter_each. apply fold_left_app. Qed.

Lemma alter_each_idempotent f acts (fw : DefenseFramework) d :
  (forall m, f (f m) = f m) ->
  alter_each f acts fw !! d = (if bool_decide (d ∈ acts) then f else id) <$> fw !! d.
Proof.
  intros Hf. revert fw. induction acts as [|a acts IH]; intros fw.
  - simpl. by destruct (fw !! d).
  - simpl. rewrite IH, lookup_alter.
    destruct (decide (a = d)) as [->|Hne].
    + rewrite (bool_decide_eq_true_2 (d ∈ d :: acts)) by by left.
      destruct (fw !! d) as [m|]; simpl; [|by case_bool_decide].
      case_bool_decide; simpl; by rewrite ?Hf.
    + case_bool_decide as H1; case_bool_decide as H2; try done.
      * exfalso. apply H2. by right.
      * exfalso. apply elem_of_cons in H2 as [H2|H2]; [by symmetry in H2|done].
Qed.

Lemma strengthen_failed_alter failed s :
  strengthen_failed failed s
  = (Ok (Strengthened <$> failed),
     set_defense_framework
       (alter_each (update_config (config_strengthen 2)) failed (defense_framework s)) s).
Proof.
  revert s. induction failed as [|d rest IH]; intros s.
  - by destruct s.
  - cbn [strengthen_failed]. erewrite bind_Ok by apply strengthen_defense_alter.
    erewrite bind_Ok by apply IH. reflexivity.
Qed.

Lemma activate_complementary_alter complementaries s :
  Forall (fun c => is_Some (defense_framework s !! c)) complementaries ->
  exists fixes acts,
    activate_complementary complementaries s
    = (Ok fixes,
       set_defense_framework
         (alter_each (update_config (set_active true)) acts (defense_framework s)) s).
Proof.
  revert s. induction complementaries as [|c rest IH]; intros s Hreg.
  - exists [], []. by destruct s.
  - apply Forall_cons in Hreg as [[m Hm] Hrest].
    cbn [activate_complementary]. unfold get_defense_snapshot.
    unfold bind at 1. unfold bind at 1. unfold get at 1. unfold ret at 1.
    rewrite get_snapshot_lookup, Hm. cbn [fmap option_fmap option_map].
    destruct (snap_active (snapshot_entry m)); cbn [negb].
    + destruct (IH s Hrest) as (fixes & acts & H).
      exists ([] ++ fixes), acts.
      unfold bind at 1. unfold ret at 1. by erewrite bind_Ok by exact H.
    + set (s1 := set_defense_framework
                   (alter (update_config (set_active true)) c (defense_framework s)) s).
      destruct (IH s1) as (fixes & acts & H).
      { eapply Forall_impl; [exact Hrest|]. intros c' Hc'.
        by eapply keeps_registered_alter. }
      exists ([ActivatedComplementary c] ++ fixes), (c :: acts).
      erewrite bind_Ok; [|erewrite bind_Ok by apply activate_defense_alter; reflexivity].
      fold s1. by erewrite bind_Ok by exact H.
Qed.

Lemma activate_related_alter failed s :
  strategy2_safe failed (defense_framework s) ->
  exists fixes acts,
    activate_related failed s
    = (Ok fixes,
       set_defense_framework
         (alter_each (update_config (set_active true)) acts (defense_framework s)) s).
Proof.
  revert s. induction failed as [|d rest IH]; intros s Hsafe.
  - exists [], []. by destruct s.
  - assert (exists fixes1 acts1,
              match defense_relationships d with
              | Some complementaries => activate_complementary complementaries
              | None => ret []
              end s
              = (Ok fixes1,
                 set_defense_framework
                   (alter_each (update_config (set_active true)) acts1
                      (defense_framework s)) s))
      as (fixes1 & acts1 & H1).
    { destruct (defense_relationships d) as [cs|] eqn:Hcs.
      - apply activate_complementary_alter. eapply Hsafe; [|exact Hcs]. by left.
      - exists [], []. by destruct s. }
    destruct (IH (set_defense_framework
                    (alter_each (update_config (set_active true)) acts1
                       (defense_framework s)) s)) as (fixes & acts & H).
    { intros d' cs Hd' Hcs. eapply Forall_impl; [apply (Hsafe d' cs); [by right|done]|].
      intros c Hc. by apply keeps_registered_alter_each. }
    exists (fixes1 ++ fixes), (acts1 ++ acts).
    cbn [activate_related]. erewrite bind_Ok by exact H1.
    erewrite bind_Ok by exact H. unfold ret. by rewrite alter_each_app.
Qed.

(** When no failed category has a complementary without a mechanism,
    [_apply_defensive_adaptations] completes.  It strengthens by 2, capped
    at 10, exactly the categories with an unblocked exploit, each once;
    otherwise it only activates: it deactivates nothing, changes no counter
    and adds or removes no mechanism.  When fewer than half of the exploits
    were blocked every registered category is active afterwards.  It
    reports at least one fix per failed category. *)
Theorem defensive_adaptations_effect (issues : list TestIssue.t)
    (exploits : list Exploit.t) (s : EvolvableSeed) :
  strategy2_safe (failed_defenses exploits) (defense_framework s) ->
  exists fixes s',
    _apply_defensive_adaptations issues exploits s = (Ok fixes, s') /\
    (length (failed_defenses exploits) <= length fixes)%nat /\
    forall d,
      (d ∈ failed_defenses exploits
       <-> exists e, e ∈ exploits /\ Exploit.blocked e = false /\ Exploit.vector e = d) /\
      exists activated,
        defense_framework s' !! d
        = defensive_effect (bool_decide (d ∈ failed_defenses exploits)) activated
          <$> defense_framework s !! d /\
        (Qltb (fitness_of (count_if Exploit.blocked exploits)
                          (Z.of_nat (length exploits))) 50 = true ->
         activated = true).
Proof.
  intros Hsafe. unfold _apply_defensive_adaptations.
  set (failed := failed_defenses exploits) in *.
  set (act := update_config (set_active true)).
  erewrite bind_Ok by apply strengthen_failed_alter.
  set (s1 := set_defense_framework _ s).
  destruct (activate_related_alter failed s1) as (fixes2 & acts & H2).
  { intros d cs Hd Hcs. eapply Forall_impl; [by apply (Hsafe d cs)|].
    intros c Hc. by apply keeps_registered_alter_each. }
  erewrite bind_Ok by exact H2.
  assert (Hidem : forall m, act (act m) = act m) by (by intros []).
  assert (Hfailed : forall d, d ∈ failed
            <-> exists e, e ∈ exploits /\ Exploit.blocked e = false /\ Exploit.vector e = d).
  { intros d. subst failed. unfold failed_defenses.
    rewrite elem_of_remove_dups, list_elem_of_fmap. split.
    - intros (e & -> & He%list_elem_of_In%filter_In). destruct He as [He Hb].
      exists e. split; [by apply list_elem_of_In|]. split; [|done].
      by apply negb_true_iff.
    - intros (e & He & Hb & <-). exists e. split; [done|].
      apply list_elem_of_In, filter_In. split; [by apply list_elem_of_In|].
      by rewrite Hb. }
  assert (Hstr : forall d,
            defense_framework s1 !! d
            = (if bool_decide (d ∈ failed) then update_config (config_strengthen 2) else id)
              <$> defense_framework s !! d).
  { intros d. subst s1. cbn [defense_framework set_defense_framework].
    case_bool_decide as Hd.
    - apply alter_each_lookup_once; [|done]. apply NoDup_remove_dups.
    - destruct (defense_framework s !! d) as [m|] eqn:E.
      + simpl. clear -Hd E. revert E. generalize (defense_framework s).
        induction failed as [|d0 rest IH]; intros fw E; simpl; [done|].
        apply not_elem_of_cons in Hd as [Hne Hd]. apply IH; [done|].
        by rewrite lookup_alter_ne.
      + by apply alter_each_lookup_None. }
  destruct (Qltb _ 50) eqn:Hfit.
  - erewrite bind_Ok;
      [|erewrite bind_Ok by apply emergency_activation_alter; reflexivity].
    eexists _, _. split; [reflexivity|]. split.
    { rewrite !length_app, length_fmap. lia. }
    intros d. split; [apply Hfailed|]. exists true. split; [|done].
    cbn [defense_framework set_defense_framework].
    rewrite alter_each_idempotent by done.
    rewrite (bool_decide_eq_true_2 _ (DefenseType_members_all d)).
    rewrite alter_each_idempotent by done. rewrite Hstr.
    destruct (defense_framework s !! d) as [m|]; [|done]. simpl.
    unfold defensive_effect. do 2 case_bool_decide; simpl; by rewrite ?Hidem.
  - erewrite bind_Ok by reflexivity. eexists _, _. split; [reflexivity|]. split.
    { rewrite !length_app, length_fmap. lia. }
    intros d. split; [apply Hfailed|].
    exists (bool_decide (d ∈ acts)). split; [|done].
    cbn [defense_framework set_defense_framework].
    rewrite alter_each_idempotent by done. rewrite Hstr.
    destruct (defense_framework s !! d) as [m|]; [|done]. simpl.
    unfold defensive_effect. by do 2 case_bool_decide.
Qed.

Lemma defensive_adaptations_effect_witness :
  let exploits := [Exploit.mk SANITIZATION "probe" (VStr "x") HIGH 4 false
                     "Passed sanitization"] in
  exists fixes s',
    _apply_defensive_adaptations [] exploits (new_EvolvableSeed "TestSeed" Config.default)
    = (Ok fixes, s') /\
    (1 <= length fixes)%nat.
Proof.
  intros exploits.
  destruct (defensive_adaptations_effect [] exploits
              (new_EvolvableSeed "TestSeed" Config.default))
    as (fixes & s' & E & Hlen & _).
  - apply complementaries_strategy2_safe, fresh_registry_complementaries.
  - exists fixes, s'. split; [exact E|exact Hlen].
Defined.

Lemma same_categories_refl fw : same_categories fw fw.
Proof. by intros d. Qed.

Lemma same_categories_trans fw1 fw2 fw3 :
  same_categories fw1 fw2 -> same_categories fw2 fw3 -> same_categories fw1 fw3.
Proof. intros H12 H23 d. by rewrite (H12 d). Qed.

Lemma same_categories_alter_each f ds (fw : DefenseFramework) :
  same_categories fw (alter_each f ds fw).
Proof.
  revert fw. induction ds as [|d0 ds IH]; intros fw; [apply same_categories_refl|].
  simpl. eapply same_categories_trans; [|apply IH].
  intros d. rewrite lookup_alter. case_decide; [subst|done].
  by destruct (fw !! d).
Qed.

Lemma activate_complementary_raises complementaries s c :
  c ∈ complementaries -> defense_framework s !! c = None ->
  exists c' s',
    c' ∈ complementaries /\ defense_framework s !! c' = None /\
    activate_complementary complementaries s = (Raise (repr_str (value c')), s').
Proof.
  revert s. induction complementaries as [|c0 rest IH]; intros s Hin Hnone.
  - by apply elem_of_nil in Hin.
  - cbn [activate_complementary]. unfold get_defense_snapshot.
    unfold bind at 1. unfold bind at 1. unfold get at 1. unfold ret at 1.
    rewrite get_snapshot_lookup.
    destruct (defense_framework s !! c0) as [m|] eqn:Hm; cbn [fmap option_fmap option_map].
    + assert (Hrest : c ∈ rest).
      { apply elem_of_cons in Hin as [->|Hin]; [congruence|done]. }
      destruct (snap_active (snapshot_entry m)); cbn [negb].
      * destruct (IH s Hrest Hnone) as (c' & s' & Hc' & Hn' & E).
        exists c', s'. split; [by right|]. split; [done|].
        unfold bind at 1. unfold ret at 1. unfold bind. by rewrite E.
      * set (s1 := set_defense_framework
                     (alter (update_config (set_active true)) c0 (defense_framework s)) s).
        assert (Hsame : same_categories (defense_framework s) (defense_framework s1))
          by apply (same_categories_alter_each _ [c0]).
        destruct (IH s1 Hrest) as (c' & s' & Hc' & Hn' & E); [by apply Hsame|].
        exists c', s'. split; [by right|]. split; [by apply Hsame|].
        erewrite bind_Ok; [|erewrite bind_Ok by apply activate_defense_alter; reflexivity].
        fold s1. unfold bind. by rewrite E.
    + exists c0, s. split; [by left|]. by split.
Qed.

Lemma activate_related_raises failed s d complementaries c :
  d ∈ failed -> defense_relationships d = Some complementaries ->
  c ∈ complementaries -> defense_framework s !! c = None ->
  exists c' s',
    defense_framework s !! c' = None /\
    activate_related failed s = (Raise (repr_str (value c')), s').
Proof.
  revert s. induction failed as [|d0 rest IH]; intros s Hd Hcs Hc Hnone.
  - by apply elem_of_nil in Hd.
  - cbn [activate_related].
    destruct (defense_relationships d0) as [cs0|] eqn:Hcs0.
    + destruct (decide (Forall (fun c => is_Some (defense_framework s !! c)) cs0))
        as [Hall|Hnot].
      * destruct (activate_complementary_alter cs0 s Hall) as (fixes & acts & E).
        assert (Hrest : d ∈ rest).
        { apply elem_of_cons in Hd as [->|Hd]; [|done]. exfalso.
          rewrite Hcs0 in Hcs. injection Hcs as ->.
          rewrite Forall_forall in Hall. specialize (Hall c Hc).
          rewrite Hnone in Hall. by destruct Hall. }
        pose proof (same_categories_alter_each (update_config (set_active true)) acts
                      (defense_framework s)) as Hsame.
        destruct (IH (set_defense_framework
                        (alter_each (update_config (set_active true)) acts
                           (defense_framework s)) s)
                     Hrest Hcs Hc (proj1 (Hsame c) Hnone)) as (c' & s' & Hn' & E').
        exists c', s'. split; [by apply Hsame|].
        erewrite bind_Ok by exact E. unfold bind. by rewrite E'.
      * apply not_Forall_Exists in Hnot; [|apply _].
        apply Exists_exists in Hnot as (c1 & Hc1 & Hn1).
        unfold compose in Hn1.
        assert (defense_framework s !! c1 = None) as Hn1'.
        { destruct (defense_framework s !! c1); [|done]. exfalso. apply Hn1. by eexists. }
        destruct (activate_complementary_raises cs0 s c1 Hc1 Hn1')
          as (c' & s' & _ & Hn' & E).
        exists c', s'. split; [done|]. unfold bind. by rewrite E.
    + assert (Hrest : d ∈ rest).
      { apply elem_of_cons in Hd as [->|Hd]; [congruence|done]. }
      destruct (IH s Hrest Hcs Hc Hnone) as (c' & s' & Hn' & E).
      exists c', s'. split; [done|]. erewrite bind_Ok by reflexivity.
      unfold bind. by rewrite E.
Qed.

(** When a category with an unblocked exploit has a complementary category
    without a mechanism, [_apply_defensive_adaptations] raises the
    [KeyError] of the snapshot lookup, whose message is the quoted name of
    such a category. *)
Theorem defensive_adaptations_key_error (issues : list TestIssue.t)
    (exploits : list Exploit.t) (s : EvolvableSeed)
    (d : DefenseType) (complementaries : list DefenseType) (c : DefenseType) :
  d ∈ failed_defenses exploits ->
  defense_relationships d = Some complementaries ->
  c ∈ complementaries ->
  defense_framework s !! c = None ->
  exists c' s',
    defense_framework s !! c' = None /\
    _apply_defensive_adaptations issues exploits s
    = (Raise ("'" +:+ value c' +:+ "'"), s').
Proof.
  intros Hd Hcs Hc Hnone. unfold _apply_defensive_adaptations.
  erewrite bind_Ok by apply strengthen_failed_alter.
  pose proof (same_categories_alter_each (update_config (config_strengthen 2))
                (failed_defenses exploits) (defense_framework s)) as Hsame.
  destruct (activate_related_raises (failed_defenses exploits)
              (set_defense_framework
                 (alter_each (update_config (config_strengthen 2))
                    (failed_defenses exploits) (defense_framework s)) s)
              d complementaries c Hd Hcs Hc (proj1 (Hsame c) Hnone))
    as (c' & s' & Hn' & E).
  exists c', s'. split; [by apply Hsame|].
  unfold bind. rewrite E. f_equal. f_equal. by destruct c'.
Qed.

Lemma defensive_adaptations_key_error_witness :
  let s := set_defense_framework
             (delete SANITIZATION (_initialize_defenses (Config.defense Config.default)))
             (new_EvolvableSeed "TestSeed" Config.default) in
  let exploits := [Exploit.mk INPUT_VALIDATION "probe" (VStr "x") LOW 1 false
                     "Passed validation"] in
  exists c' s',
    defense_framework s !! c' = None /\
    _apply_defensive_adaptations [] exploits s = (Raise ("'" +:+ value c' +:+ "'"), s').
Proof.
  intros s exploits.
  apply (defensive_adaptations_key_error [] exploits s INPUT_VALIDATION
           [SANITIZATION; BOUNDS_ENFORCEMENT] SANITIZATION).
  - vm_compute. left.
  - reflexivity.
  - left.
  - vm_compute. reflexivity.
Defined.

(** ** Bookkeeping of a generation and of the cycle *)

Lemma run_generation_record (gen : Z) (o : EvolutionOrchestrator) :
  patterns_safe o ->
  exists report o',
    run_generation gen o = (Ok report, o') /\
    evolution_log o' = evolution_log o ++ [report] /\
    evolution_history (seed o') = evolution_history (seed o) ++ [report] /\
    generation (seed o') = gen /\
    generation_number (red_team o') = gen /\
    code_iteration_count o'
    = code_iteration_count o + GenerationReport.code_iterations report /\
    0 <= GenerationReport.code_iterations report /\
    GenerationReport.generation report = gen /\
    GenerationReport.phase report = VERIFICATION /\
    GenerationReport.defenses_snapshot report
    = get_snapshot (defense_framework (seed o')) /\
    metrics_collector o' = metrics_collector o /\
    max_generations o' = max_generations o /\
    name (seed o') = name (seed o) /\
    seed_config (seed o') = seed_config (seed o).
Proof.
  intros Hsafe. destruct o as [sd rt eng mc mg elog cic].
  unfold patterns_safe in Hsafe. cbn [seed red_team] in Hsafe.
  unfold run_generation.
  erewrite bind_Ok by reflexivity. cbn [fst snd seed red_team adaptation_engine
    metrics_collector max_generations evolution_log code_iteration_count].
  destruct (execute_suite_Ok (sd, set_generation_number gen rt))
    as (exploits & ps & sd1 & Hsuite & Hvec & Hpat & Hev1).
  cbn [snd fst attack_patterns set_generation_number] in *.
  erewrite bind_Ok; [|unfold on_red_team; eapply (zoom_Ok _ _ execute_suite);
                      cbn [seed red_team]; exact Hsuite].
  cbn [fst snd seed red_team adaptation_engine metrics_collector max_generations
       evolution_log code_iteration_count].
  destruct (_apply_defensive_adaptations_Ok (analyze_results exploits) exploits sd1)
    as (fixes & sd2 & Hfix & Hev2).
  { apply (strategy2_safe_evolves _ sd); [done|].
    intros d cs Hd. apply failed_defenses_targets in Hd. rewrite Hvec in Hd.
    by apply Hsafe. }
  erewrite bind_Ok; [|unfold on_seed; eapply (zoom_Ok seed); cbn [seed]; exact Hfix].
  erewrite bind_Ok by reflexivity.
  erewrite bind_Ok;
    [|unfold on_adaptation_engine; eapply (zoom_Ok _ _ (adapt_patterns exploits));
      apply adapt_patterns_Ok].
  cbn [fst snd seed red_team adaptation_engine metrics_collector max_generations
       evolution_log code_iteration_count attack_patterns set_attack_patterns].
  erewrite bind_Ok by reflexivity.
  erewrite bind_Ok by reflexivity.
  erewrite bind_Ok by reflexivity.
  unfold ret. eexists _, _. split; [reflexivity|].
  destruct (seed_evolves_trans _ _ _ Hev1 Hev2) as (fw' & -> & _).
  cbn. repeat split. lia.
Qed.

(** A completed [run_generation(gen)] appends its report to the
    orchestrator's log and to the seed's history, sets the seed's and the
    executor's generation number to [gen], adds the report's number of fixes
    to the running count, and leaves metrics, configuration and the maximum
    number of generations alone; the report carries [gen], the final phase,
    and the snapshot of the registry as the adaptations left it. *)
Theorem run_generation_bookkeeping (gen : Z) (o : EvolutionOrchestrator) :
  patterns_safe o ->
  exists report o',
    run_generation gen o = (Ok report, o') /\
    evolution_log o' = evolution_log o ++ [report] /\
    evolution_history (seed o') = evolution_history (seed o) ++ [report] /\
    generation (seed o') = gen /\
    generation_number (red_team o') = gen /\
    code_iteration_count o'
    = code_iteration_count o + GenerationReport.code_iterations report /\
    0 <= GenerationReport.code_iterations report /\
    GenerationReport.generation report = gen /\
    GenerationReport.phase report = VERIFICATION /\
    GenerationReport.defenses_snapshot report
    = get_snapshot (defense_framework (seed o')) /\
    metrics_collector o' = metrics_collector o /\
    max_generations o' = max_generations o /\
    name (seed o') = name (seed o) /\
    seed_config (seed o') = seed_config (seed o).
Proof. exact (run_generation_record gen o). Qed.

Lemma run_generation_bookkeeping_witness :
  exists report o',
    run_generation 7 (fresh_orchestrator Config.default 10) = (Ok report, o') /\
    evolution_log o' = [report] /\ generation (seed o') = 7.
Proof.
  destruct (run_generation_bookkeeping 7 (fresh_orchestrator Config.default 10))
    as (report & o' & E & Hlog & _ & Hgen & _).
  - apply fresh_orchestrator_safe.
  - exists report, o'. by repeat split.
Defined.

Lemma seed_evolves_alter_each f ds s :
  seed_evolves s (set_defense_framework (alter_each f ds (defense_framework s)) s).
Proof. eexists. split; [done|]. apply keeps_registered_alter_each. Qed.

(** One pass of the loop of [run_evolution_cycle] with the real
    [run_generation]. *)
Lemma cycle_body_run gen o :
  patterns_safe o ->
  exists stop events o',
    cycle_body run_generation gen o = (Ok (stop, events), o') /\
    patterns_safe o' /\
    length (attack_patterns (red_team o')) = length (attack_patterns (red_team o)) /\
    length (evolution_log o') = S (length (evolution_log o)) /\
    length (metrics_history (metrics_collector o'))
    = S (length (metrics_history (metrics_collector o))) /\
    max_generations o' = max_generations o /\
    (if stop then events = [PerfectDefense gen]
     else events = [] \/ events = [Stagnating gen]) /\
    (attack_patterns (red_team o) = [] -> stop = false).
Proof.
  intros Hsafe.
  destruct (run_generation_Ok gen o Hsafe)
    as (report & o1 & H1 & Htotal & _ & _ & Hfit & _ & Hsafe1 & Hlen1).
  destruct (run_generation_record gen o Hsafe)
    as (report' & o1' & H1' & Hlog & _ & _ & _ & _ & _ & _ & _ & _ & Hmc & Hmg & _).
  rewrite H1 in H1'. injection H1' as <- <-.
  destruct o1 as [sd rt eng mc mg elog cic].
  cbn [evolution_log seed red_team metrics_collector max_generations] in *.
  unfold cycle_body. erewrite bind_Ok by exact H1.
  erewrite bind_Ok by reflexivity.
  cbn [seed red_team adaptation_engine metrics_collector max_generations
       evolution_log code_iteration_count].
  assert (Hlen : length elog = S (length (evolution_log o)))
    by (rewrite Hlog, length_app; simpl; lia).
  assert (Hstop : attack_patterns (red_team o) = [] ->
                  Qle_bool 100 (GenerationReport.fitness_score report) = false).
  { intros Hempty. rewrite Hfit, Htotal, Hempty. reflexivity. }
  destruct (Qle_bool 100 (GenerationReport.fitness_score report)).
  - eexists true, _, _. split; [reflexivity|]. cbn.
    rewrite length_app, Hmc. simpl.
    repeat split; first [done | lia].
  - erewrite bind_Ok by reflexivity.
    cbn [seed red_team adaptation_engine metrics_collector max_generations
         evolution_log code_iteration_count].
    destruct ((3 <? gen) && _).
    + erewrite bind_Ok;
        [|unfold on_seed; eapply (zoom_Ok seed); cbn [seed];
          apply _apply_breakthrough_mutations_alter].
      eexists false, _, _. split; [reflexivity|]. split.
      { unfold patterns_safe. cbn [seed red_team].
        apply (strategy2_safe_evolves _ sd); [apply seed_evolves_alter_each|done]. }
      cbn. rewrite length_app, Hmc. simpl.
      repeat split; first [done | lia | by right].
    + eexists false, _, _. split; [reflexivity|]. cbn.
      rewrite length_app, Hmc. simpl.
      repeat split; first [done | lia | by left].
Qed.

Lemma evolution_loop_run gens o :
  patterns_safe o ->
  exists events o' n,
    evolution_loop run_generation gens o = (Ok events, o') /\
    patterns_safe o' /\
    length (attack_patterns (red_team o')) = length (attack_patterns (red_team o)) /\
    length (evolution_log o') = (length (evolution_log o) + n)%nat /\
    length (metrics_history (metrics_collector o'))
    = (length (metrics_history (metrics_collector o)) + n)%nat /\
    max_generations o' = max_generations o /\
    (n <= length gens)%nat /\
    (gens <> [] -> (1 <= n)%nat) /\
    ((forall g, PerfectDefense g ∉ events) -> n = length gens) /\
    (attack_patterns (red_team o) = [] -> n = length gens).
Proof.
  revert o. induction gens as [|gen rest IH]; intros o Hsafe.
  - exists [], o, 0%nat. simpl. unfold ret. repeat split; try done; lia.
  - destruct (cycle_body_run gen o Hsafe)
      as (stop & ev & o1 & H1 & Hsafe1 & Hp1 & Hl1 & Hm1 & Hg1 & Hev & Hempty).
    cbn [evolution_loop]. erewrite bind_Ok by exact H1. cbn [fst snd].
    destruct stop.
    + exists ev, o1, 1%nat. unfold ret. subst ev.
      repeat split; try done; try (simpl; lia).
      * intros H. exfalso. apply (H gen). by left.
      * intros H. by specialize (Hempty H).
    + destruct (IH o1 Hsafe1)
        as (events & o' & n & H & Hsafe' & Hp & Hl & Hm & Hg & Hn & _ & Hperfect & Hemp).
      exists (ev ++ events), o', (S n). erewrite bind_Ok by exact H. unfold ret.
      repeat split; try done; try (simpl; lia); try congruence.
      * intros Hno. simpl. f_equal. apply Hperfect. intros g Hg'.
        apply (Hno g). apply elem_of_app. by right.
      * intros Hnil. simpl. f_equal. apply Hemp.
        destruct (attack_patterns (red_team o1)); [done|].
        rewrite Hnil in Hp1. done.
Qed.

Lemma length_range n : length (range n) = Z.to_nat n.
Proof. unfold range. by rewrite length_fmap, length_seq. Qed.

(** From a state where no pattern targets a category whose complementaries
    lack a mechanism, the generations of [run_evolution_cycle] all complete.
    The cycle runs [n] generations, at most [max_generations] and at least
    one when that is positive, appending one report to the log and one entry
    to the metrics history per generation; it runs all of them unless it
    reports a perfect defense.  It then raises only if the closing summary
    does. *)
Theorem evolution_cycle_bounded (o : EvolutionOrchestrator) :
  patterns_safe o ->
  exists events o' n,
    run_evolution_cycle o
    = (match fst (print_evolution_summary o') with
       | Ok _ => Ok events
       | Raise e => Raise e
       end, o') /\
    length (evolution_log o') = (length (evolution_log o) + n)%nat /\
    length (metrics_history (metrics_collector o'))
    = (length (metrics_history (metrics_collector o)) + n)%nat /\
    (n <= Z.to_nat (max_generations o))%nat /\
    (0 < max_generations o -> (1 <= n)%nat) /\
    ((forall g, PerfectDefense g ∉ events) -> n = Z.to_nat (max_generations o)).
Proof.
  intros Hsafe.
  destruct (evolution_loop_run (range (max_generations o)) o Hsafe)
    as (events & o' & n & H & _ & _ & Hl & Hm & _ & Hn & Hpos & Hperfect & _).
  rewrite length_range in *.
  exists events, o', n. split; [|repeat split; try done].
  - unfold run_evolution_cycle, evolution_cycle.
    erewrite bind_Ok by reflexivity. erewrite bind_Ok by exact H.
    unfold bind.
    assert (Hs : snd (print_evolution_summary o') = o').
    { unfold print_evolution_summary, bind, get, raise, ret.
      destruct (evolution_log o'); [done|]. destruct (last _); [|done].
      by destruct (_ || _). }
    destruct (print_evolution_summary o') as [[[]|e] o2]; simpl in *; by subst.
  - intros Hmax. apply Hpos. intros Hnil.
    apply (f_equal length) in Hnil. rewrite length_range in Hnil. simpl in Hnil. lia.
Qed.

Lemma evolution_cycle_bounded_witness :
  exists events o' n,
    run_evolution_cycle (fresh_orchestrator Config.default 10)
    = (match fst (print_evolution_summary o') with
       | Ok _ => Ok events
       | Raise e => Raise e
       end, o') /\
    length (evolution_log o') = (0 + n)%nat /\ (n <= 10)%nat.
Proof.
  destruct (evolution_cycle_bounded (fresh_orchestrator Config.default 10))
    as (events & o' & n & E & Hl & _ & Hn & _).
  - apply fresh_orchestrator_safe.
  - exists events, o', n. by repeat split.
Defined.

(** With no active pattern and a positive [max_generations],
    [run_evolution_cycle] runs every generation (none is a perfect defense)
    and then raises [ZeroDivisionError] in the closing summary, which
    divides by the number of patterns. *)
Theorem empty_pattern_cycle_raises (o : EvolutionOrchestrator) :
  attack_patterns (red_team o) = [] ->
  0 < max_generations o ->
  exists o',
    run_evolution_cycle o = (Raise "division by zero", o') /\
    length (evolution_log o')
    = (length (evolution_log o) + Z.to_nat (max_generations o))%nat.
Proof.
  intros Hempty Hmax.
  assert (Hsafe : patterns_safe o).
  { unfold patterns_safe. rewrite Hempty. intros d cs Hd. by apply elem_of_nil in Hd. }
  destruct (evolution_loop_run (range (max_generations o)) o Hsafe)
    as (events & o' & n & H & _ & Hp & Hl & _ & _ & _ & _ & _ & Hn).
  rewrite (Hn Hempty), length_range in Hl.
  exists o'. split; [|done].
  unfold run_evolution_cycle, evolution_cycle.
  erewrite bind_Ok by reflexivity. erewrite bind_Ok by exact H.
  assert (Hsummary : print_evolution_summary o' = (Raise "division by zero", o')).
  { unfold print_evolution_summary. erewrite bind_Ok by reflexivity.
    rewrite Hempty in Hp. simpl in Hp.
    destruct (evolution_log o') as [|first_gen log'] eqn:Hlog.
    { simpl in Hl. lia. }
    rewrite <- Hlog.
    destruct (last (evolution_log o')) as [last_gen|] eqn:Hlast.
    - rewrite Hp. cbn [Nat.eqb]. by rewrite !orb_true_r.
    - apply last_None in Hlast. rewrite Hlog in Hlast. done. }
  unfold bind. by rewrite Hsummary.
Qed.

Lemma empty_pattern_cycle_raises_witness :
  let cfg := {| Config.defense := Config.defense Config.default;
                Config.attack := {| Config.initial_population_size := 0;
                                    Config.mutation_rate := 1 # 2;
                                    Config.crossover_rate := 7 # 10;
                                    Config.max_parameter_value := 10000 |} |} in
  exists o',
    run_evolution_cycle (fresh_orchestrator cfg 3) = (Raise "division by zero", o') /\
    length (evolution_log o') = 3%nat.
Proof.
  intros cfg.
  apply (empty_pattern_cycle_raises (fresh_orchestrator cfg 3) eq_refl).
  reflexivity.
Defined.

(** ** The built-in catalog against its own defenses *)

Lemma len_str_repeat_char a n : 0 <= n -> len (str_repeat (str1 a) n) = n.
Proof.
  intros Hn. unfold len, str_repeat.
  assert (H : forall k, String.length (Nat.iter k (String.append (str1 a)) EmptyString) = k).
  { induction k as [|k IH]; [done|]. rewrite Nat.iter_succ.
    change (S (String.length (Nat.iter k (String.append (str1 a)) EmptyString)) = S k).
    by rewrite IH. }
  rewrite H. lia.
Qed.

Lemma evaluate_class v m r m' :
  evaluate v m = (r, m') -> mechanism_class m' = mechanism_class m.
Proof.
  destruct m; simpl; try (intros [= _ <-]; reflexivity).
  destruct (RateLimiting_evaluate config0 request_count v) as [r0 n'].
  intros [= _ <-]. reflexivity.
Qed.

Lemma update_config_class f m : mechanism_class (update_config f m) = mechanism_class m.
Proof. by destruct m. Qed.

(** Each catalog payload, at any generation from 0 on, is rejected by the
    mechanism of its target's class. *)
Lemma catalog_payload_blocked c gen m :
  c ∈ pattern_catalog -> 0 <= gen ->
  mechanism_class m = AttackPattern.defense_type c -> strength (config m) < 160 ->
  exists v reason m',
    AttackPattern.payload_generator c gen = Ok v /\
    evaluate v m = (Ok (true, reason), m').
Proof.
  intros Hc Hgen Hclass Hs. unfold pattern_catalog in Hc.
  repeat (apply elem_of_cons in Hc as [->|Hc]); [..|by apply elem_of_nil in Hc];
    destruct m as [cfg|cfg|cfg|cfg|cfg|cfg n|cfg]; try discriminate Hclass;
    cbn [config] in Hs; eexists _, _, _; (split; [reflexivity|]).
  - reflexivity.
  - reflexivity.
  - reflexivity.
  - reflexivity.
  - cbn [evaluate]. unfold BoundsEnforcement_evaluate, AttackPatternLibrary.buffer_overflow_small.
    cbn [is_str value_len andb].
    change "A"%string with (str1 "A"%char).
    rewrite len_str_repeat_char by lia.
    replace (_ <? _) with true by (symmetry; apply Z.ltb_lt; lia).
    reflexivity.
  - cbn [evaluate]. unfold Sanitization_evaluate.
    destruct (8 <=? strength cfg); reflexivity.
  - cbn [evaluate]. unfold Sanitization_evaluate, AttackPatternLibrary.sql_injection_obfuscated.
    destruct (8 <=? strength cfg), (gen <? 3); reflexivity.
  - reflexivity.
  - reflexivity.
Qed.

Lemma settings_kept_refl fw : settings_kept fw fw.
Proof. intros d. by destruct (fw !! d); constructor. Qed.

Lemma settings_kept_trans fw1 fw2 fw3 :
  settings_kept fw1 fw2 -> settings_kept fw2 fw3 -> settings_kept fw1 fw3.
Proof.
  intros H12 H23 d. specialize (H12 d). specialize (H23 d).
  destruct H12 as [m1 m2 (Hc & Hs & Ha)|]; inversion H23 as [? m3 (Hc' & Hs' & Ha')|];
    subst; constructor.
  repeat split; congruence.
Qed.

Lemma settings_kept_insert (fw : DefenseFramework) d m m' :
  fw !! d = Some m ->
  mechanism_class m' = mechanism_class m ->
  strength (config m') = strength (config m) ->
  active (config m') = active (config m) ->
  settings_kept fw (<[d := m']> fw).
Proof.
  intros Hm Hc Hs Ha d'. destruct (decide (d' = d)) as [->|Hne].
  - rewrite lookup_insert_eq, Hm. by constructor.
  - rewrite lookup_insert_ne by done. by destruct (fw !! d'); constructor.
Qed.

Lemma settings_kept_guards fw fw' : settings_kept fw fw' -> guards fw -> guards fw'.
Proof.
  intros Hk Hg d Hd. destruct (Hg d Hd) as (m & Hm & Hc & Ha & Hs).
  specialize (Hk d). rewrite Hm in Hk.
  inversion Hk as [? m' (Hc' & Hs' & Ha') E1 E2|]. subst.
  exists m'. repeat split; congruence.
Qed.

(** Running a defense changes no class, strength or active flag. *)
Lemma apply_defense_settings d v (fw : DefenseFramework) r fw' :
  apply_defense d v fw = (r, fw') -> settings_kept fw fw'.
Proof.
  destruct (fw !! d) as [m|] eqn:Hm.
  2: { rewrite (apply_defense_not_found _ _ _ Hm). intros [= _ <-].
       apply settings_kept_refl. }
  destruct (active (config m)) eqn:Ha.
  2: { rewrite (apply_defense_inactive _ _ _ _ Hm Ha). intros [= _ <-].
       apply settings_kept_refl. }
  destruct (evaluate v m) as [[[b reason]|e] m1] eqn:He.
  - rewrite (apply_defense_evaluated _ _ _ _ _ _ _ Hm Ha He). intros [= _ <-].
    apply (settings_kept_insert _ _ m); [done|..];
      rewrite ?update_config_class, ?update_config_config;
      [by eapply evaluate_class|by rewrite (evaluate_config _ _ _ _ He)..].
  - rewrite (apply_defense_fault _ _ _ _ _ _ Hm Ha He). intros [= _ <-].
    apply (settings_kept_insert _ _ m); [done|by eapply evaluate_class|..];
      by rewrite (evaluate_config _ _ _ _ He).
Qed.

Lemma catalog_attack_blocked c gen (fw : DefenseFramework) :
  guards fw -> c ∈ pattern_catalog -> 0 <= gen ->
  exists v reason fw',
    AttackPattern.payload_generator c gen = Ok v /\
    apply_defense (AttackPattern.defense_type c) v fw = (Ok (true, reason), fw') /\
    settings_kept fw fw'.
Proof.
  intros Hg Hc Hgen.
  destruct (Hg (AttackPattern.defense_type c)) as (m & Hm & Hclass & Ha & Hs).
  { apply list_elem_of_fmap. by exists c. }
  destruct (catalog_payload_blocked c gen m Hc Hgen Hclass Hs)
    as (v & reason & m' & Hv & He).
  pose proof (apply_defense_evaluated _ _ _ _ _ _ _ Hm Ha He) as E.
  eexists v, reason, _. split; [done|]. split; [exact E|].
  by eapply apply_defense_settings.
Qed.

Lemma execute_attack_guarded pattern (st : ExecutorStore) :
  guards (defense_framework (fst st)) -> from_catalog pattern ->
  0 <= generation_number (snd st) ->
  exists e fw',
    execute_attack pattern st
    = (Ok (e, AttackPattern.record_attempt false pattern),
       (set_defense_framework fw' (fst st), snd st)) /\
    Exploit.blocked e = true /\
    settings_kept (defense_framework (fst st)) fw'.
Proof.
  intros Hg (c & Hc & Htarget & Hgenerator) Hgen. destruct st as [sd ex].
  cbn [fst snd] in *.
  destruct (catalog_attack_blocked c (generation_number ex) _ Hg Hc Hgen)
    as (v & reason & fw' & Hv & E & Hk).
  unfold execute_attack. unfold bind at 1. unfold get at 1. cbn [snd fst].
  rewrite Hgenerator, Hv, Htarget.
  erewrite bind_Ok;
    [|unfold on_target; apply (zoom_Ok fst (fun sd0 st0 => (sd0, snd st0)));
      unfold test_defense, in_framework; apply zoom_Ok; exact E].
  cbn [fst snd negb]. unfold ret. eexists _, fw'. split; [|split; [|exact Hk]].
  - reflexivity.
  - reflexivity.
Qed.

Lemma set_defense_framework_twice fw fw' s :
  set_defense_framework fw' (set_defense_framework fw s) = set_defense_framework fw' s.
Proof. reflexivity. Qed.

Lemma set_defense_framework_same s : set_defense_framework (defense_framework s) s = s.
Proof. by destruct s. Qed.

Lemma execute_patterns_guarded patterns (st : ExecutorStore) :
  guards (defense_framework (fst st)) -> Forall from_catalog patterns ->
  0 <= generation_number (snd st) ->
  exists exploits fw',
    execute_patterns patterns st
    = (Ok (exploits, Z.of_nat (length patterns),
           AttackPattern.record_attempt false <$> patterns),
       (set_defense_framework fw' (fst st), snd st)) /\
    Forall (fun e => Exploit.blocked e = true) exploits /\
    length exploits = length patterns /\
    settings_kept (defense_framework (fst st)) fw'.
Proof.
  intros Hg Hps Hgen. revert st Hg Hgen.
  induction Hps as [|pattern rest Hp _ IH]; intros st Hg Hgen.
  - exists [], (defense_framework (fst st)). rewrite set_defense_framework_same.
    destruct st. repeat split; [constructor|apply settings_kept_refl].
  - destruct (execute_attack_guarded pattern st Hg Hp Hgen) as (e & fw1 & H1 & Hb & Hk1).
    destruct (IH (set_defense_framework fw1 (fst st), snd st))
      as (es & fw2 & H2 & Hbs & Hlen & Hk2);
      [by apply (settings_kept_guards _ _ Hk1)|done|].
    cbn [fst snd] in H2, Hk2. rewrite set_defense_framework_twice in H2.
    exists (e :: es), fw2. split; [|split; [by constructor|split]].
    + cbn [execute_patterns]. erewrite bind_Ok by exact H1.
      erewrite bind_Ok by exact H2. cbn [fst snd]. unfold ret. rewrite Hb.
      rewrite fmap_cons. repeat f_equal. simpl length. lia.
    + simpl. by rewrite Hlen.
    + by eapply settings_kept_trans.
Qed.

Lemma execute_suite_guarded (st : ExecutorStore) :
  guards (defense_framework (fst st)) -> Forall from_catalog (attack_patterns (snd st)) ->
  0 <= generation_number (snd st) ->
  exists exploits fw',
    execute_suite st
    = (Ok (exploits, Z.of_nat (length exploits), Z.of_nat (length exploits)),
       (set_defense_framework fw' (fst st),
        set_attack_patterns
          (AttackPattern.record_attempt false <$> attack_patterns (snd st)) (snd st))) /\
    Forall (fun e => Exploit.blocked e = true) exploits /\
    length exploits = length (attack_patterns (snd st)) /\
    settings_kept (defense_framework (fst st)) fw'.
Proof.
  intros Hg Hps Hgen.
  destruct (execute_patterns_guarded _ st Hg Hps Hgen) as (es & fw' & H & Hb & Hlen & Hk).
  exists es, fw'. split; [|done].
  unfold execute_suite. unfold bind at 1. unfold get at 1.
  erewrite bind_Ok by exact H. cbn [fst snd]. by rewrite Hlen.
Qed.

Lemma fitness_of_all n : 0 < n -> (fitness_of n n == 100)%Q.
Proof.
  intros Hn. unfold fitness_of.
  replace (0 <? n) with true by (symmetry; by apply Z.ltb_lt).
  destruct n as [|p|p]; try lia.
  unfold Qeq, Qdiv, Qmult, Qinv, inject_Z; simpl. lia.
Qed.

Lemma count_if_Forall {A} (f : A -> bool) l :
  Forall (fun x => f x = true) l -> count_if f l = Z.of_nat (length l).
Proof.
  induction 1 as [|x l Hx _ IH]; [done|].
  rewrite count_if_cons, Hx, IH. simpl length. lia.
Qed.

Lemma failed_defenses_none exploits :
  Forall (fun e => Exploit.blocked e = true) exploits -> failed_defenses exploits = [].
Proof.
  intros H. unfold failed_defenses.
  replace (List.filter _ exploits) with (@nil Exploit.t); [done|].
  induction H as [|e es He _ IH]; [done|]. simpl. by rewrite He.
Qed.

(** With every attack blocked there is nothing to adapt. *)
Lemma defensive_adaptations_noop issues exploits s :
  Forall (fun e => Exploit.blocked e = true) exploits -> exploits <> [] ->
  _apply_defensive_adaptations issues exploits s = (Ok [], s).
Proof.
  intros Hb Hne. unfold _apply_defensive_adaptations.
  rewrite (failed_defenses_none _ Hb), (count_if_Forall _ _ Hb).
  cbn [strengthen_failed activate_related]. unfold bind at 1. unfold ret at 1.
  unfold bind at 1. unfold ret at 1.
  assert (E : Qltb (fitness_of (Z.of_nat (length exploits)) (Z.of_nat (length exploits))) 50
              = false).
  { apply Qltb_ge. rewrite fitness_of_all; [discriminate|].
    destruct exploits; [done|simpl length; lia]. }
  by rewrite E.
Qed.

Lemma adapt_pattern_payload_generator p :
  AttackPattern.payload_generator (fst (adapt_pattern p))
  = AttackPattern.payload_generator p.
Proof.
  unfold adapt_pattern, _mutate_payload.
  destruct (Qltb (6 # 10) _); [done|].
  destruct (_ && _); [|done].
  by destruct (AttackPattern.defense_type p).
Qed.

Lemma from_catalog_adapt p : from_catalog p -> from_catalog (fst (adapt_pattern p)).
Proof.
  intros (c & Hc & Ht & Hg). exists c.
  by rewrite adapt_pattern_defense_type, adapt_pattern_payload_generator.
Qed.

Lemma from_catalog_record b p :
  from_catalog p -> from_catalog (AttackPattern.record_attempt b p).
Proof. intros (c & Hc & Ht & Hg). by exists c. Qed.

(** A generation on a guarded orchestrator: every attack is blocked, nothing
    is adapted on the defense side, and the orchestrator stays guarded. *)
Lemma run_generation_guarded gen o :
  guarded o -> 0 <= gen ->
  exists report o',
    run_generation gen o = (Ok report, o') /\
    Forall (fun e => Exploit.blocked e = true) (GenerationReport.exploits report) /\
    GenerationReport.attacks_total report
    = Z.of_nat (length (attack_patterns (red_team o))) /\
    GenerationReport.attacks_blocked report = GenerationReport.attacks_total report /\
    (GenerationReport.fitness_score report == 100)%Q /\
    GenerationReport.issues report = [] /\
    GenerationReport.code_iterations report = 0 /\
    GenerationReport.defenses_snapshot report
    = get_snapshot (defense_framework (seed o')) /\
    evolution_log o' = evolution_log o ++ [report] /\
    metrics_collector o' = metrics_collector o /\
    max_generations o' = max_generations o /\
    code_iteration_count o' = code_iteration_count o /\
    settings_kept (defense_framework (seed o)) (defense_framework (seed o')) /\
    length (attack_patterns (red_team o')) = length (attack_patterns (red_team o)) /\
    guarded o'.
Proof.
  intros (Hg & Hps & Hne) Hgen. destruct o as [sd rt eng mc mg elog cic].
  cbn [seed red_team] in Hg, Hps, Hne.
  unfold run_generation.
  erewrite bind_Ok by reflexivity. cbn [fst snd seed red_team adaptation_engine
    metrics_collector max_generations evolution_log code_iteration_count].
  destruct (execute_suite_guarded (sd, set_generation_number gen rt))
    as (exploits & fw' & Hsuite & Hb & Hlen & Hk); [done..|].
  cbn [snd fst attack_patterns set_generation_number] in *.
  assert (Hex : exploits <> []) by (destruct exploits, (attack_patterns rt); done).
  erewrite bind_Ok; [|unfold on_red_team; eapply (zoom_Ok _ _ execute_suite);
                      cbn [seed red_team]; exact Hsuite].
  cbn [fst snd seed red_team adaptation_engine metrics_collector max_generations
       evolution_log code_iteration_count].
  erewrite bind_Ok;
    [|unfold on_seed; eapply (zoom_Ok seed); cbn [seed];
      by apply defensive_adaptations_noop].
  erewrite bind_Ok by reflexivity.
  erewrite bind_Ok;
    [|unfold on_adaptation_engine; eapply (zoom_Ok _ _ (adapt_patterns exploits));
      apply adapt_patterns_Ok].
  cbn [fst snd seed red_team adaptation_engine metrics_collector max_generations
       evolution_log code_iteration_count attack_patterns set_attack_patterns].
  erewrite bind_Ok by reflexivity.
  erewrite bind_Ok by reflexivity.
  erewrite bind_Ok by reflexivity.
  unfold ret. eexists _, _. split; [reflexivity|].
  cbn [GenerationReport.attacks_total GenerationReport.exploits
       GenerationReport.attacks_blocked GenerationReport.fitness_score
       GenerationReport.issues GenerationReport.code_iterations
       GenerationReport.defenses_snapshot length
       seed red_team metrics_collector max_generations evolution_log
       code_iteration_count attack_patterns defense_framework set_defense_framework].
  assert (Hlen' : length (fst (adapt_all (AttackPattern.record_attempt false
                                            <$> attack_patterns rt)))
                  = length (attack_patterns rt)).
  { rewrite <- (length_fmap AttackPattern.defense_type (fst _)),
      adapt_all_defense_types. by rewrite !length_fmap. }
  repeat split.
  - exact Hb.
  - by rewrite Hlen.
  - apply fitness_of_all. destruct exploits; [done|simpl length; lia].
  - apply analyze_results_empty. apply forallb_forall.
    intros e He. by apply (proj1 (List.Forall_forall _ _) Hb).
  - lia.
  - exact Hk.
  - exact Hlen'.
  - by apply (settings_kept_guards _ _ Hk).
  - apply (adapt_all_keeps _ from_catalog_adapt).
    apply Forall_fmap. eapply Forall_impl; [exact Hps|].
    intros p Hp. by apply from_catalog_record.
  - cbn [red_team attack_patterns set_attack_patterns set_generation_number].
    intros E. rewrite E in Hlen'. destruct (attack_patterns rt); done.
Qed.

Lemma run_generations_guarded gens o :
  guarded o -> Forall (fun gen => 0 <= gen) gens ->
  exists o' reports,
    for_each gens (fun gen => _ <- run_generation gen ;; ret tt) o = (Ok tt, o') /\
    evolution_log o' = evolution_log o ++ reports /\
    length reports = length gens /\
    Forall perfect_report reports /\
    Forall (fun report => GenerationReport.attacks_total report
                          = Z.of_nat (length (attack_patterns (red_team o)))) reports /\
    settings_kept (defense_framework (seed o)) (defense_framework (seed o')) /\
    code_iteration_count o' = code_iteration_count o /\
    guarded o'.
Proof.
  intros Hg Hgens. revert o Hg.
  induction Hgens as [|gen rest Hgen _ IH]; intros o Hg.
  - exists o, []. rewrite app_nil_r.
    split; [done|split; [done|split; [done|split; [constructor|split; [constructor|]]]]].
    split; [apply settings_kept_refl|done].
  - destruct (run_generation_guarded gen o Hg Hgen)
      as (report & o1 & H1 & Hb & Htotal & Hblocked & Hfit & Hissues & Hfixes & _
          & Hlog1 & _ & _ & Hcic1 & Hk1 & Hlen1 & Hg1).
    destruct (IH o1 Hg1) as (o' & reports & H & Hlog & Hlen & Hperfect & Htotals
                             & Hk & Hcic & Hg').
    exists o', (report :: reports).
    split; [|split; [|split; [|split; [|split; [|split; [|split]]]]]].
    + cbn [for_each]. erewrite bind_Ok; [exact H|]. by erewrite bind_Ok by exact H1.
    + by rewrite Hlog, Hlog1, <- app_assoc.
    + simpl. by rewrite Hlen.
    + by constructor.
    + constructor; [done|]. by rewrite Hlen1 in Htotals.
    + by eapply settings_kept_trans.
    + congruence.
    + done.
Qed.

Lemma range_nonneg n : Forall (fun gen => 0 <= gen) (range n).
Proof. unfold range. apply Forall_fmap, Forall_forall. intros k _. simpl. lia. Qed.

(** From a state whose registry guards the catalog and whose patterns come
    from it, [for gen in range(n): run_generation(gen)] completes, and every
    one of its [n] reports shows all attacks blocked: fitness 100, no issue,
    no fix.  The run changes no class, strength or active flag of any
    mechanism, only counters, and the state it leaves is again such a state:
    the defenses never get to evolve against the built-in catalog. *)
Theorem catalog_attacks_always_blocked (o : EvolutionOrchestrator) (n : Z) :
  guarded o ->
  exists o' reports,
    run_generations n o = (Ok tt, o') /\
    evolution_log o' = evolution_log o ++ reports /\
    length reports = Z.to_nat n /\
    Forall perfect_report reports /\
    Forall (fun report => GenerationReport.attacks_total report
                          = Z.of_nat (length (attack_patterns (red_team o)))) reports /\
    settings_kept (defense_framework (seed o)) (defense_framework (seed o')) /\
    code_iteration_count o' = code_iteration_count o /\
    guarded o'.
Proof.
  intros Hg. rewrite <- length_range.
  exact (run_generations_guarded (range n) o Hg (range_nonneg n)).
Qed.

Lemma fresh_registry_guards cfg :
  Config.initial_strength cfg < 160 -> guards (_initialize_defenses cfg).
Proof.
  intros Hs d Hd. rewrite fresh_registry_lookup.
  unfold pattern_catalog in Hd. rewrite !fmap_cons, fmap_nil in Hd.
  repeat (apply elem_of_cons in Hd as [->|Hd]); [..|by apply elem_of_nil in Hd];
    eexists; (split; [reflexivity|]); repeat split; exact Hs.
Qed.

Lemma fresh_orchestrator_guarded cfg max_gen :
  Config.initial_strength (Config.defense cfg) < 160 ->
  1 <= Config.initial_population_size (Config.attack cfg) ->
  guarded (fresh_orchestrator cfg max_gen).
Proof.
  intros Hs Hpop. split; [by apply fresh_registry_guards|]. split.
  - cbn. unfold _initialize_patterns. apply Forall_take, Forall_forall.
    intros c Hc. by exists c.
  - cbn. unfold _initialize_patterns. intros E.
    apply (f_equal length) in E. rewrite length_take in E. simpl in E. lia.
Qed.

Lemma catalog_attacks_always_blocked_witness :
  exists o' reports,
    run_generations 3 (fresh_orchestrator Config.default 10) = (Ok tt, o') /\
    length reports = 3%nat /\ Forall perfect_report reports /\
    evolution_log o' = reports.
Proof.
  destruct (catalog_attacks_always_blocked (fresh_orchestrator Config.default 10) 3)
    as (o' & reports & E & Hlog & Hlen & Hperfect & _).
  - apply fresh_orchestrator_guarded; simpl; lia.
  - exists o', reports. by repeat split.
Defined.

Lemma range_pos n : 1 <= n -> exists rest, range n = 0 :: rest.
Proof.
  intros Hn. unfold range.
  destruct (Z.to_nat n) as [|k] eqn:E; [lia|].
  by exists (Z.of_nat <$> seq 1 k).
Qed.

(** Under any configuration with an initial strength below 160 and at least
    one initial pattern, [run_evolution_cycle] on a new orchestrator with
    [max_generations >= 1] stops in generation 0: that generation blocks
    all [min(9, initial_population_size)] attacks, the cycle reports a
    perfect defense and returns without raising, with one report in the log
    and one entry in the metrics history, so that [calculate_improvement]
    has nothing to compare and returns its empty result; no mechanism was
    strengthened or activated. *)
Theorem fresh_cycle_stops_at_generation_zero (cfg : Config.SystemConfig) (max_gen : Z) :
  Config.initial_strength (Config.defense cfg) < 160 ->
  1 <= Config.initial_population_size (Config.attack cfg) ->
  1 <= max_gen ->
  exists report o',
    run_evolution_cycle (fresh_orchestrator cfg max_gen) = (Ok [PerfectDefense 0], o') /\
    evolution_log o' = [report] /\
    perfect_report report /\
    GenerationReport.generation report = 0 /\
    GenerationReport.attacks_total report
    = Z.min 9 (Config.initial_population_size (Config.attack cfg)) /\
    length (metrics_history (metrics_collector o')) = 1%nat /\
    calculate_improvement (metrics_collector o') = None /\
    code_iteration_count o' = 0 /\
    settings_kept (_initialize_defenses (Config.defense cfg))
                  (defense_framework (seed o')).
Proof.
  intros Hs Hpop Hmax.
  pose proof (fresh_orchestrator_guarded cfg max_gen Hs Hpop) as Hg.
  destruct (run_generation_guarded 0 _ Hg (Z.le_refl 0))
    as (report & o1 & H1 & Hb & Htotal & Hblocked & Hfit & Hissues & Hfixes & Hsnap
        & Hlog1 & Hmc1 & _ & Hcic1 & Hk1 & Hlen1 & Hg1).
  destruct (run_generation_record 0 _ (fresh_orchestrator_safe cfg max_gen))
    as (report' & o1' & H1' & _ & _ & _ & _ & _ & _ & Hgen & _).
  rewrite H1 in H1'. injection H1' as <- <-.
  destruct (range_pos max_gen Hmax) as (rest & Hrange).
  destruct o1 as [sd rt eng mc mg elog cic].
  cbn [seed red_team metrics_collector evolution_log code_iteration_count] in *.
  assert (Hstop : Qle_bool 100 (GenerationReport.fitness_score report) = true).
  { apply Qle_bool_iff. rewrite Hfit. apply Qle_refl. }
  change (elog = [report]) in Hlog1. subst elog.
  destruct Hg1 as (Hguards & _ & Hne). cbn [seed red_team] in Hguards, Hne.
  eexists report, _. split.
  - unfold run_evolution_cycle, evolution_cycle. unfold bind at 1. unfold get at 1.
    cbn [max_generations fresh_orchestrator new_EvolutionOrchestrator].
    rewrite Hrange. cbn [evolution_loop]. unfold cycle_body.
    erewrite bind_Ok; [|erewrite bind_Ok; [|erewrite bind_Ok by exact H1;
                                            erewrite bind_Ok by reflexivity;
                                            rewrite Hstop; reflexivity];
                        reflexivity].
    erewrite bind_Ok; [reflexivity|].
    unfold print_evolution_summary. unfold bind at 1. unfold get at 1.
    cbn [evolution_log attack_patterns red_team last].
    match goal with
    | |- context [Nat.eqb ?a 0] => replace (Nat.eqb a 0) with false
    end.
    2: { symmetry. apply Nat.eqb_neq. rewrite Hsnap.
         apply (map_size_ne_0_lookup_2 _ (value INPUT_VALIDATION)).
         rewrite get_snapshot_lookup.
         destruct (Hguards INPUT_VALIDATION) as (m & -> & _).
         - unfold pattern_catalog. rewrite fmap_cons. left.
         - by eexists. }
    replace (length (attack_patterns rt) =? 0)%nat with false; [reflexivity|].
    symmetry. apply Nat.eqb_neq. by destruct (attack_patterns rt).
  - cbn [evolution_log metrics_collector code_iteration_count seed defense_framework].
    split; [reflexivity|]. split; [done|]. split; [exact Hgen|].
    split.
    { rewrite Htotal. cbn. unfold _initialize_patterns. rewrite length_take.
      simpl length. lia. }
    split; [by rewrite Hmc1|].
    split; [unfold calculate_improvement; cbn [metrics_history]; by rewrite Hmc1|].
    split; [exact Hcic1|exact Hk1].
Qed.

Lemma fresh_cycle_stops_at_generation_zero_witness :
  exists report o',
    run_evolution_cycle (fresh_orchestrator strong_config 10)
    = (Ok [PerfectDefense 0], o') /\
    evolution_log o' = [report] /\ GenerationReport.attacks_total report = 6.
Proof.
  destruct (fresh_cycle_stops_at_generation_zero strong_config 10)
    as (report & o' & E & Hlog & _ & _ & Htotal & _); [simpl; lia..|].
  exists report, o'. by repeat split.
Defined.

(** ** Metrics of a generation *)

Lemma count_if_Permutation {A} (f : A -> bool) l l' :
  l ≡ₚ l' -> count_if f l = count_if f l'.
Proof.
  induction 1 as [|x l l' _ IH|x y l|l1 l2 l3 _ IH1 _ IH2];
    rewrite ?count_if_cons; [done|by rewrite IH|lia|congruence].
Qed.

Lemma count_if_fmap {A B} (g : A -> B) (f : B -> bool) l :
  count_if f (g <$> l) = count_if (fun x => f (g x)) l.
Proof.
  induction l as [|x l IH]; [done|].
  rewrite fmap_cons, !count_if_cons. by rewrite IH.
Qed.

Lemma snapshot_active_count (fw : DefenseFramework) :
  count_if (fun kv => snap_active (snd kv)) (map_to_list (get_snapshot fw))
  = active_count fw.
Proof.
  unfold get_snapshot, active_count.
  rewrite (count_if_Permutation _ _ _
             (map_to_list_kmap (M1 := gmap DefenseType) (M2 := gmap string) value _)).
  rewrite map_to_list_fmap, !count_if_fmap. reflexivity.
Qed.

Lemma snapshot_size (fw : DefenseFramework) : size (get_snapshot fw) = size fw.
Proof.
  unfold get_snapshot. rewrite <- !length_map_to_list.
  rewrite (map_to_list_kmap (M1 := gmap DefenseType) (M2 := gmap string) value).
  by rewrite length_fmap, map_to_list_fmap, length_fmap.
Qed.

Lemma analyze_results_counts exploits :
  count_if (fun i => match TestIssue.severity i with
                     | CRITICAL | HIGH => true
                     | _ => false
                     end) (analyze_results exploits)
  = Z.of_nat (length (analyze_results exploits)) /\
  count_if TestIssue.fix_verified (analyze_results exploits) = 0.
Proof.
  unfold analyze_results. induction (failures_by_defense exploits) as [|g gs [IH1 IH2]].
  - done.
  - cbn [map]. rewrite !count_if_cons, IH1, IH2. cbn [TestIssue.severity
      TestIssue.fix_verified length]. split; [|done].
    destruct (2 <? _); lia.
Qed.

(** The metrics entry the cycle files for a generation: it carries the
    report's generation, fitness (the [success_rate] property recomputes the
    stored [fitness_score]), attack counts and number of fixes;
    [defenses_total] is the number of registered mechanisms and
    [defenses_active] the number of active ones, as the generation left the
    registry; every issue counts as found, since [analyze_results] only
    files CRITICAL and HIGH issues, and none as resolved. *)
Theorem generation_metrics_agree (gen : Z) (o : EvolutionOrchestrator) :
  patterns_safe o ->
  exists report o' m c',
    run_generation gen o = (Ok report, o') /\
    collect_generation_metrics report (metrics_collector o') = (Ok m, c') /\
    metrics_history c' = metrics_history (metrics_collector o) ++ [m] /\
    baseline_fitness c' = baseline_fitness (metrics_collector o) /\
    EvolutionMetrics.generation m = gen /\
    EvolutionMetrics.fitness_score m = GenerationReport.fitness_score report /\
    EvolutionMetrics.attacks_blocked m = GenerationReport.attacks_blocked report /\
    EvolutionMetrics.attacks_total m = GenerationReport.attacks_total report /\
    EvolutionMetrics.code_iterations m = GenerationReport.code_iterations report /\
    EvolutionMetrics.defenses_total m = Z.of_nat (size (defense_framework (seed o'))) /\
    EvolutionMetrics.defenses_active m = active_count (defense_framework (seed o')) /\
    0 <= EvolutionMetrics.defenses_active m <= EvolutionMetrics.defenses_total m /\
    EvolutionMetrics.issues_found m = Z.of_nat (length (GenerationReport.issues report)) /\
    EvolutionMetrics.issues_resolved m = 0.
Proof.
  intros Hsafe.
  destruct (run_generation_Ok gen o Hsafe)
    as (report & o' & H & Htotal & _ & _ & Hfit & Hissues & _).
  destruct (run_generation_record gen o Hsafe)
    as (report' & o1' & H' & _ & _ & _ & _ & _ & _ & Hgen & _ & Hsnap & Hmc & _).
  rewrite H in H'. injection H' as <- <-.
  eexists report, o', _, _. split; [exact H|]. split; [reflexivity|].
  cbn [metrics_history baseline_fitness EvolutionMetrics.generation
       EvolutionMetrics.fitness_score EvolutionMetrics.attacks_blocked
       EvolutionMetrics.attacks_total EvolutionMetrics.code_iterations
       EvolutionMetrics.defenses_total EvolutionMetrics.defenses_active
       EvolutionMetrics.issues_found EvolutionMetrics.issues_resolved].
  rewrite Hmc, Hsnap, snapshot_size, snapshot_active_count, Hissues.
  destruct (analyze_results_counts (GenerationReport.exploits report)) as [-> ->].
  repeat split; try done.
  - unfold GenerationReport.success_rate. rewrite Hfit, Htotal. unfold fitness_of.
    by destruct (attack_patterns (red_team o)).
  - unfold active_count. apply count_if_bounds.
  - unfold active_count. rewrite <- length_map_to_list. apply count_if_bounds.
Qed.

Lemma generation_metrics_agree_witness :
  exists report o' m c',
    run_generation 0 (fresh_orchestrator Config.default 10) = (Ok report, o') /\
    collect_generation_metrics report (metrics_collector o') = (Ok m, c') /\
    EvolutionMetrics.defenses_total m = 7 /\ EvolutionMetrics.defenses_active m = 5.
Proof.
  destruct (generation_metrics_agree 0 (fresh_orchestrator Config.default 10))
    as (report & o' & m & c' & E & Em & _ & _ & _ & _ & _ & _ & _ & Htotal & Hactive & _).
  - apply fresh_orchestrator_safe.
  - exists report, o', m, c'. split; [exact E|]. split; [exact Em|].
    rewrite Htotal, Hactive.
    assert (Eo : o' = snd (run_generation 0 (fresh_orchestrator Config.default 10)))
      by (by rewrite E).
    rewrite Eo. split; vm_compute; reflexivity.
Defined.

(** ** The adaptations do not depend on the order in which the set of failed
    categories is visited *)

Lemma inactive_in_alter_activate (fw : DefenseFramework) c c' :
  inactive_in (alter (update_config (set_active true)) c fw) c'
  <-> c' <> c /\ inactive_in fw c'.
Proof.
  unfold inactive_in. destruct (decide (c' = c)) as [->|Hne].
  - rewrite lookup_alter_eq. split; [|by intros [[] _]].
    intros (m & Hm & Ha). destruct (fw !! c) as [m0|]; [|done].
    injection Hm as <-. by rewrite update_config_config in Ha.
  - rewrite lookup_alter_ne by done. tauto.
Qed.

Lemma inactive_in_alter_each_activate (fw : DefenseFramework) acts c :
  inactive_in (alter_each (update_config (set_active true)) acts fw) c
  <-> (c ∉ acts) /\ inactive_in fw c.
Proof.
  revert fw. induction acts as [|a acts IH]; intros fw.
  - simpl. split; [intros H; split; [apply not_elem_of_nil|done]|by intros [_ H]].
  - change (alter_each ?f (a :: acts) fw) with (alter_each f acts (alter f a fw)).
    rewrite IH, inactive_in_alter_activate, not_elem_of_cons. tauto.
Qed.

Lemma inactive_in_strengthened (fw : DefenseFramework) amount failed c :
  inactive_in (alter_each (update_config (config_strengthen amount)) failed fw) c
  <-> inactive_in fw c.
Proof.
  revert fw. induction failed as [|d rest IH]; intros fw; [done|].
  change (alter_each ?f (d :: rest) fw) with (alter_each f rest (alter f d fw)).
  rewrite IH. unfold inactive_in. destruct (decide (c = d)) as [->|Hne].
  - rewrite lookup_alter_eq. destruct (fw !! d) as [m|]; [|by split; intros (? & ? & _)].
    split; intros (m' & [= <-] & Ha); eexists; (split; [reflexivity|]);
      by rewrite ?update_config_config in *.
  - by rewrite lookup_alter_ne.
Qed.

Lemma activate_complementary_exact complementaries s :
  Forall (fun c => is_Some (defense_framework s !! c)) complementaries ->
  exists acts,
    activate_complementary complementaries s
    = (Ok (ActivatedComplementary <$> acts),
       set_defense_framework
         (alter_each (update_config (set_active true)) acts (defense_framework s)) s) /\
    NoDup acts /\
    forall c, c ∈ acts <-> c ∈ complementaries /\ inactive_in (defense_framework s) c.
Proof.
  revert s. induction complementaries as [|c rest IH]; intros s Hreg.
  - exists []. split; [by destruct s|]. split; [constructor|].
    intros c. split; [by intros ?%elem_of_nil|by intros [?%elem_of_nil _]].
  - apply Forall_cons in Hreg as [[m Hm] Hrest].
    cbn [activate_complementary]. unfold get_defense_snapshot.
    unfold bind at 1. unfold bind at 1. unfold get at 1. unfold ret at 1.
    rewrite get_snapshot_lookup, Hm. cbn [fmap option_fmap option_map].
    change (snap_active (snapshot_entry m)) with (active (config m)).
    destruct (active (config m)) eqn:Ha; cbn [negb].
    + destruct (IH s Hrest) as (acts & H & Hnd & Hacts).
      exists acts. split; [|split; [done|]].
      * unfold bind at 1. unfold ret at 1. by erewrite bind_Ok by exact H.
      * intros c'. rewrite Hacts, elem_of_cons. split; [tauto|].
        intros [[->|Hin] Hinact]; [|done].
        destruct Hinact as (m' & Hm' & Ha'). congruence.
    + set (s1 := set_defense_framework
                   (alter (update_config (set_active true)) c (defense_framework s)) s).
      destruct (IH s1) as (acts & H & Hnd & Hacts).
      { eapply Forall_impl; [exact Hrest|]. intros c' Hc'.
        by eapply keeps_registered_alter. }
      cbn [s1 defense_framework set_defense_framework] in Hacts.
      exists (c :: acts). split; [|split].
      * erewrite bind_Ok; [|erewrite bind_Ok by apply activate_defense_alter; reflexivity].
        fold s1. by erewrite bind_Ok by exact H.
      * constructor; [|done]. intros Hc%Hacts.
        destruct Hc as [_ Hc%inactive_in_alter_activate]. by destruct Hc.
      * intros c'. rewrite !elem_of_cons, Hacts, inactive_in_alter_activate.
        split; [|destruct (decide (c' = c)); tauto].
        intros [->|(Hin & _ & Hinact)]; [|tauto].
        split; [by left|by exists m].
Qed.

Lemma activate_related_exact failed s :
  strategy2_safe failed (defense_framework s) ->
  exists acts,
    activate_related failed s
    = (Ok (ActivatedComplementary <$> acts),
       set_defense_framework
         (alter_each (update_config (set_active true)) acts (defense_framework s)) s) /\
    NoDup acts /\
    forall c, c ∈ acts <-> c ∈ complementaries_of failed /\ inactive_in (defense_framework s) c.
Proof.
  revert s. induction failed as [|d rest IH]; intros s Hsafe.
  - exists []. split; [by destruct s|]. split; [constructor|].
    intros c. split; [by intros ?%elem_of_nil|by intros [?%elem_of_nil _]].
  - assert (exists acts1,
              match defense_relationships d with
              | Some complementaries => activate_complementary complementaries
              | None => ret []
              end s
              = (Ok (ActivatedComplementary <$> acts1),
                 set_defense_framework
                   (alter_each (update_config (set_active true)) acts1
                      (defense_framework s)) s) /\
              NoDup acts1 /\
              forall c, c ∈ acts1 <-> c ∈ default [] (defense_relationships d)
                                      /\ inactive_in (defense_framework s) c)
      as (acts1 & H1 & Hnd1 & Hacts1).
    { destruct (defense_relationships d) as [cs|] eqn:Hcs.
      - apply activate_complementary_exact. eapply Hsafe; [|exact Hcs]. by left.
      - exists []. split; [by destruct s|]. split; [constructor|].
        intros c. split; [by intros ?%elem_of_nil|by intros [?%elem_of_nil _]]. }
    destruct (IH (set_defense_framework
                    (alter_each (update_config (set_active true)) acts1
                       (defense_framework s)) s)) as (acts & H & Hnd & Hacts).
    { intros d' cs Hd' Hcs. eapply Forall_impl; [apply (Hsafe d' cs); [by right|done]|].
      intros c Hc. by apply keeps_registered_alter_each. }
    cbn [defense_framework set_defense_framework] in Hacts.
    exists (acts1 ++ acts). split; [|split].
    + cbn [activate_related]. erewrite bind_Ok by exact H1.
      erewrite bind_Ok by exact H. unfold ret. by rewrite alter_each_app, fmap_app.
    + apply NoDup_app. split; [done|]. split; [|done].
      intros c Hc1 Hc%Hacts. destruct Hc as [_ Hc%inactive_in_alter_each_activate].
      by destruct Hc.
    + intros c. unfold complementaries_of. rewrite bind_cons.
      fold (complementaries_of rest).
      rewrite !elem_of_app, Hacts1, Hacts, inactive_in_alter_each_activate.
      destruct (decide (c ∈ acts1)) as [Hin|Hnotin]; [|tauto].
      pose proof (proj1 (Hacts1 c) Hin). tauto.
Qed.

Lemma strengthened_lookup failed (fw : DefenseFramework) d :
  NoDup failed ->
  alter_each (update_config (config_strengthen 2)) failed fw !! d
  = (if bool_decide (d ∈ failed) then update_config (config_strengthen 2) else id)
    <$> fw !! d.
Proof.
  intros Hnd. case_bool_decide as Hd.
  - by apply alter_each_lookup_once.
  - destruct (fw !! d) as [m|] eqn:E; [|by apply alter_each_lookup_None].
    simpl. clear Hnd. revert fw E.
    induction failed as [|d0 rest IH]; intros fw E; simpl; [done|].
    apply not_elem_of_cons in Hd as [Hne Hd]. apply IH; [done|].
    by rewrite lookup_alter_ne.
Qed.

Lemma defensive_adaptations_in_order_exact failed exploits s :
  NoDup failed -> strategy2_safe failed (defense_framework s) ->
  let emergency :=
    Qltb (fitness_of (count_if Exploit.blocked exploits) (Z.of_nat (length exploits))) 50 in
  exists acts fixes3 fw',
    defensive_adaptations_in_order failed exploits s
    = (Ok ((Strengthened <$> failed) ++ (ActivatedComplementary <$> acts) ++ fixes3),
       set_defense_framework fw' s) /\
    NoDup acts /\
    (forall c, c ∈ acts
               <-> c ∈ complementaries_of failed /\ inactive_in (defense_framework s) c) /\
    fixes3 = (if emergency
              then [EmergencyActivation
                      (fitness_of (count_if Exploit.blocked exploits)
                                  (Z.of_nat (length exploits)))]
              else []) /\
    forall d,
      fw' !! d
      = defensive_effect (bool_decide (d ∈ failed)) (bool_decide (d ∈ acts) || emergency)
        <$> defense_framework s !! d.
Proof.
  intros Hnd Hsafe emergency. unfold defensive_adaptations_in_order.
  set (act := update_config (set_active true)).
  erewrite bind_Ok by apply strengthen_failed_alter.
  set (s1 := set_defense_framework _ s).
  destruct (activate_related_exact failed s1) as (acts & H2 & Hnd2 & Hacts).
  { intros d cs Hd Hcs. eapply Forall_impl; [by apply (Hsafe d cs)|].
    intros c Hc. by apply keeps_registered_alter_each. }
  erewrite bind_Ok by exact H2.
  assert (Hidem : forall m, act (act m) = act m) by (by intros []).
  fold emergency. exists acts.
  assert (Hacts' : forall c, c ∈ acts
            <-> c ∈ complementaries_of failed /\ inactive_in (defense_framework s) c).
  { intros c. rewrite Hacts. subst s1. cbn [defense_framework set_defense_framework].
    by rewrite inactive_in_strengthened. }
  destruct emergency eqn:Hfit.
  - erewrite bind_Ok;
      [|erewrite bind_Ok by apply emergency_activation_alter; reflexivity].
    eexists _, _. split; [reflexivity|]. split; [done|]. split; [done|].
    split; [reflexivity|]. intros d.
    cbn [defense_framework set_defense_framework s1].
    rewrite alter_each_idempotent by done.
    rewrite (bool_decide_eq_true_2 _ (DefenseType_members_all d)).
    rewrite alter_each_idempotent by done. rewrite strengthened_lookup by done.
    destruct (defense_framework s !! d) as [m|]; [|done]. simpl.
    rewrite orb_true_r.
    unfold defensive_effect. do 2 case_bool_decide; simpl; by rewrite ?Hidem.
  - erewrite bind_Ok by reflexivity. eexists _, _. split; [reflexivity|].
    split; [done|]. split; [done|]. split; [reflexivity|]. intros d.
    cbn [defense_framework set_defense_framework s1].
    rewrite alter_each_idempotent by done. rewrite strengthened_lookup by done.
    destruct (defense_framework s !! d) as [m|]; [|done]. simpl.
    rewrite orb_false_r.
    unfold defensive_effect. by do 2 case_bool_decide.
Qed.

(** Python iterates the set [failed_defenses] in an order the language does
    not fix.  Whatever that order, when no failed category has a
    complementary without a mechanism the adaptations leave the same seed
    and report the same fixes, up to their order.  Strategy 2 activates
    exactly the complementaries of failed categories that were registered
    and inactive. *)
Theorem defensive_adaptations_any_order (order : list DefenseType)
    (issues : list TestIssue.t) (exploits : list Exploit.t) (s : EvolvableSeed) :
  order ≡ₚ failed_defenses exploits ->
  strategy2_safe (failed_defenses exploits) (defense_framework s) ->
  exists fixes fixes' s',
    _apply_defensive_adaptations issues exploits s = (Ok fixes, s') /\
    defensive_adaptations_in_order order exploits s = (Ok fixes', s') /\
    fixes ≡ₚ fixes' /\
    forall c, ActivatedComplementary c ∈ fixes
              <-> c ∈ complementaries_of (failed_defenses exploits)
                  /\ inactive_in (defense_framework s) c.
Proof.
  intros Hperm Hsafe.
  assert (Hnd : NoDup (failed_defenses exploits)) by apply NoDup_remove_dups.
  assert (Hnd' : NoDup order) by (by rewrite Hperm).
  assert (Hsafe' : strategy2_safe order (defense_framework s)).
  { intros d cs Hd. apply Hsafe. by rewrite <- Hperm. }
  destruct (defensive_adaptations_in_order_exact _ exploits s Hnd Hsafe)
    as (acts & fixes3 & fw & H & Hnda & Hacts & Hfix3 & Hfw).
  destruct (defensive_adaptations_in_order_exact _ exploits s Hnd' Hsafe')
    as (acts' & fixes3' & fw' & H' & Hnda' & Hacts' & Hfix3' & Hfw').
  assert (Hsame : forall c, c ∈ acts <-> c ∈ acts').
  { intros c. rewrite Hacts, Hacts'. unfold complementaries_of. by rewrite Hperm. }
  assert (Efw : fw = fw').
  { apply map_eq. intros d. rewrite Hfw, Hfw'.
    rewrite (bool_decide_ext _ _ (Hsame d)).
    assert (Hd : d ∈ failed_defenses exploits <-> d ∈ order) by (by rewrite Hperm).
    by rewrite (bool_decide_ext _ _ Hd). }
  eexists _, _, _. split; [exact H|]. split; [by rewrite Efw|]. split.
  - rewrite Hfix3, Hfix3'. apply Permutation_app; [by rewrite Hperm|].
    apply Permutation_app; [|done]. apply fmap_Permutation.
    by apply NoDup_Permutation.
  - intros c. rewrite <- Hacts. rewrite !elem_of_app, !list_elem_of_fmap. split.
    + intros [(d & [=] & _)|[(c' & [= ->] & Hc)|Hc]]; [done|].
      rewrite Hfix3 in Hc. destruct (Qltb _ 50); [|by apply elem_of_nil in Hc].
      by apply list_elem_of_singleton in Hc.
    + intros Hc. right. left. by exists c.
Qed.

Lemma defensive_adaptations_any_order_witness :
  let exploits := [Exploit.mk SANITIZATION "probe" (VStr "x") HIGH 4 false
                     "Passed sanitization";
                   Exploit.mk INPUT_VALIDATION "other" (VStr "y") LOW 1 false
                     "Passed validation"] in
  let s := new_EvolvableSeed "TestSeed" Config.default in
  exists fixes fixes' s',
    _apply_defensive_adaptations [] exploits s = (Ok fixes, s') /\
    defensive_adaptations_in_order [INPUT_VALIDATION; SANITIZATION] exploits s
    = (Ok fixes', s') /\
    ActivatedComplementary CRYPTOGRAPHY ∈ fixes.
Proof.
  intros exploits s.
  destruct (defensive_adaptations_any_order [INPUT_VALIDATION; SANITIZATION] [] exploits s)
    as (fixes & fixes' & s' & H & H' & _ & Hc).
  - vm_compute. apply perm_swap.
  - apply complementaries_strategy2_safe, fresh_registry_complementaries.
  - exists fixes, fixes', s'. split; [exact H|]. split; [exact H'|].
    apply Hc. split.
    + vm_compute. left.
    + eexists. split; [vm_compute; reflexivity|reflexivity].
Defined.

(** ** Payloads that cannot make a defense fail *)









(** ** The pattern status table *)

Lemma pattern_status_fold patterns (status : gmap string PatternStatus) k :
  fold_left (fun status pattern =>
               <[AttackPattern.description pattern := pattern_status pattern]> status)
            patterns status !! k
  = match last (List.filter (fun p => String.eqb (AttackPattern.description p) k)
                            patterns) with
    | Some p => Some (pattern_status p)
    | None => status !! k
    end.
Proof.
  revert status. induction patterns as [|p rest IH]; intros status; [done|].
  cbn [fold_left List.filter]. rewrite IH.
  destruct (String.eqb_spec (AttackPattern.description p) k) as [<-|Hne].
  - rewrite last_cons. destruct (last (List.filter _ rest)); [done|].
    by rewrite lookup_insert_eq.
  - destruct (last (List.filter _ rest)); [done|]. by rewrite lookup_insert_ne.
Qed.

Lemma pattern_status_size patterns (status : gmap string PatternStatus) :
  (size (fold_left (fun status pattern =>
                      <[AttackPattern.description pattern := pattern_status pattern]> status)
                   patterns status)
   <= size status + length patterns)%nat /\
  (NoDup (AttackPattern.description <$> patterns) ->
   (forall p, p ∈ patterns -> status !! AttackPattern.description p = None) ->
   size (fold_left (fun status pattern =>
                      <[AttackPattern.description pattern := pattern_status pattern]> status)
                   patterns status)
   = (size status + length patterns)%nat).
Proof.
  revert status. induction patterns as [|p rest IH]; intros status.
  - simpl. split; [lia|intros _ _; lia].
  - cbn [fold_left length].
    destruct (IH (<[AttackPattern.description p := pattern_status p]> status))
      as [Hle Heq].
    rewrite map_size_insert in Hle, Heq. split.
    + destruct (status !! AttackPattern.description p); simpl in Hle; lia.
    + intros [Hnotin Hnd]%NoDup_cons Hfresh. rewrite Heq; [|done|].
      * rewrite (Hfresh p) by (by left). simpl. lia.
      * intros q Hq. rewrite lookup_insert_ne; [apply Hfresh; by right|].
        intros E. apply Hnotin. rewrite E. apply list_elem_of_fmap. by exists q.
Qed.

Lemma catalog_descriptions_NoDup cfg :
  NoDup (AttackPattern.description <$> _initialize_patterns cfg).
Proof.
  unfold _initialize_patterns. rewrite fmap_take.
  assert (H : NoDup (AttackPattern.description <$> pattern_catalog)).
  { apply (bool_decide_unpack _). by vm_compute. }
  rewrite <- (take_drop (Z.to_nat (Z.min (Z.of_nat (length pattern_catalog))
                                         (Config.initial_population_size cfg)))
                        (AttackPattern.description <$> pattern_catalog)) in H.
  by apply NoDup_app in H as [H _].
Qed.

(** [get_pattern_status] is keyed by description: the entry under a
    description is the status of the last pattern carrying it, and there is
    no entry for a description no pattern carries.  The table never has more
    entries than there are patterns, it is empty only when there are none,
    and when the descriptions are distinct, as they are in a new executor,
    every pattern has its own entry. *)
Theorem pattern_status_table (e : RedTeamExecutor) :
  (forall k,
     get_pattern_status e !! k
     = pattern_status
       <$> last (List.filter (fun p => String.eqb (AttackPattern.description p) k)
                             (attack_patterns e))) /\
  (size (get_pattern_status e) <= length (attack_patterns e))%nat /\
  (get_pattern_status e = ∅ <-> attack_patterns e = []) /\
  (NoDup (AttackPattern.description <$> attack_patterns e) ->
   size (get_pattern_status e) = length (attack_patterns e) /\
   forall p, p ∈ attack_patterns e ->
     get_pattern_status e !! AttackPattern.description p = Some (pattern_status p)) /\
  (forall cfg,
     size (get_pattern_status (new_RedTeamExecutor cfg))
     = length (attack_patterns (new_RedTeamExecutor cfg))).
Proof.
  assert (Hlookup : forall e k,
            get_pattern_status e !! k
            = pattern_status
              <$> last (List.filter (fun p => String.eqb (AttackPattern.description p) k)
                                    (attack_patterns e))).
  { intros e0 k. unfold get_pattern_status. rewrite pattern_status_fold.
    by destruct (last _). }
  assert (Hsize : forall e,
            NoDup (AttackPattern.description <$> attack_patterns e) ->
            size (get_pattern_status e) = length (attack_patterns e)).
  { intros e0 Hnd. unfold get_pattern_status.
    rewrite (proj2 (pattern_status_size _ ∅) Hnd); [by rewrite map_size_empty|].
    intros p _. apply lookup_empty. }
  split; [apply Hlookup|]. split; [|split; [|split]].
  - unfold get_pattern_status.
    pose proof (proj1 (pattern_status_size (attack_patterns e) ∅)) as H.
    by rewrite map_size_empty in H.
  - split.
    + intros Hempty. destruct (attack_patterns e) as [|p rest] eqn:E; [done|].
      exfalso. pose proof (Hlookup e (AttackPattern.description
                 (default p (last (p :: rest))))) as H.
      rewrite Hempty, lookup_empty, E in H. symmetry in H.
      apply fmap_None, last_None in H.
      assert (Hin : default p (last (p :: rest)) ∈ p :: rest).
      { destruct (last (p :: rest)) as [q|] eqn:Hq; [|by left].
        simpl. apply last_Some in Hq as [l' ->]. apply elem_of_app. right. by left. }
      apply list_elem_of_In in Hin.
      assert (Hf : In (default p (last (p :: rest)))
                      (List.filter
                         (fun p0 => String.eqb (AttackPattern.description p0)
                                      (AttackPattern.description
                                         (default p (last (p :: rest)))))
                         (p :: rest)))
        by (apply filter_In; split; [done|apply String.eqb_refl]).
      rewrite H in Hf. destruct Hf.
    + intros Hempty. unfold get_pattern_status. by rewrite Hempty.
  - intros Hnd. split; [by apply Hsize|]. intros p Hp. rewrite Hlookup.
    assert (E : List.filter (fun q => String.eqb (AttackPattern.description q)
                                        (AttackPattern.description p))
                            (attack_patterns e) = [p]); [|by rewrite E].
    revert Hnd Hp. generalize (attack_patterns e) as ps.
    induction ps as [|q rest IH]; intros Hnd Hp; [by apply elem_of_nil in Hp|].
    rewrite fmap_cons in Hnd. apply NoDup_cons in Hnd as [Hnotin Hnd].
    cbn [List.filter].
    assert (Hnone : forall x, AttackPattern.description x ∉
                                (AttackPattern.description <$> rest) ->
              List.filter (fun q0 => String.eqb (AttackPattern.description q0)
                                       (AttackPattern.description x)) rest = []).
    { intros x Hx. clear -Hx. induction rest as [|r rest IH]; [done|].
      rewrite fmap_cons in Hx. apply not_elem_of_cons in Hx as [Hne Hx].
      cbn [List.filter]. destruct (String.eqb_spec (AttackPattern.description r)
                                     (AttackPattern.description x)); [congruence|].
      by apply IH. }
    apply elem_of_cons in Hp as [->|Hp].
    + rewrite String.eqb_refl. by rewrite Hnone.
    + destruct (String.eqb_spec (AttackPattern.description q)
                  (AttackPattern.description p)) as [E|_]; [|by apply IH].
      exfalso. apply Hnotin. rewrite E. apply list_elem_of_fmap. by exists p.
  - intros cfg. apply Hsize. apply catalog_descriptions_NoDup.
Qed.

(** ** The campaign's mapping of attack types *)


